(** * Job-board shared scripts: identity, deduplication and filters

    A shallow embedding of the JavaScript sources
      lib/job-processor.js, lib/jobId.js, lib/deduplication.js, lib/utils.js,
      lib/template-renderer.js, the age filter of lib/readme-generator.js,
      config/locations.js and config/categories.js
    together with the properties of the job identity & deduplication
    pipeline that the specification states about them, and further
    properties of the same code: the characters of the ids, the age
    filters, the merge, the stores, the templates and the classifiers.

    Conventions of the embedding
    - A JavaScript string is a list of code units.  The model keeps the
      code units 0..255 (Latin-1); [\s], [\w], [\b], [toLowerCase] and [trim]
      are written out for that range.
    - A property that is [undefined], [null] or absent is [None]; the
      idiom [x || ''] is [orEmpty], and [a || b] on properties is [orElse].
    - Platform services (SHA-256, the URL constructor, Date, JSON.parse and
      the file system) are parameters of the sections that use them.
    - A function that can throw returns a [result]. *)

From Stdlib Require Import String DecimalString.
From Stdlib Require DecimalPos.
From Stdlib Require Import Ascii Bool Arith NArith ZArith Lia List.
Import ListNotations.

(* ================================================================== *)
(** * Part I: the program *)
(* ================================================================== *)

(** ** JavaScript strings *)

Module JS.

Definition str := list ascii.

(** A string literal of the source. *)
Definition lit (s : string) : str := list_ascii_of_string s.

Arguments lit s%_string.

Definition code (c : ascii) : N := N_of_ascii c.

Definition in_range (lo hi : N) (c : ascii) : bool :=
  (lo <=? code c)%N && (code c <=? hi)%N.

Definition is_char (n : N) (c : ascii) : bool := (code c =? n)%N.

Definition is_digit (c : ascii) : bool := in_range 48 57 c.
Definition is_upper (c : ascii) : bool := in_range 65 90 c.
Definition is_lower (c : ascii) : bool := in_range 97 122 c.

(** [\w] is [[A-Za-z0-9_]]. *)
Definition is_word (c : ascii) : bool :=
  is_digit c || is_upper c || is_lower c || is_char 95 c.

(** [\s] and the characters removed by [trim]: TAB, LF, VT, FF, CR, space
    and NBSP (the members of the class below U+0100). *)
Definition is_space (c : ascii) : bool :=
  in_range 9 13 c || is_char 32 c || is_char 160 c.

Definition is_hyphen (c : ascii) : bool := is_char 45 c.
Definition is_comma (c : ascii) : bool := is_char 44 c.
Definition is_slash (c : ascii) : bool := is_char 47 c.

(** [toLowerCase] on one code unit: A-Z, and the Latin-1 capitals
    U+00C0..U+00DE except the multiplication sign U+00D7. *)
Definition lower_char (c : ascii) : ascii :=
  if is_upper c || (in_range 192 222 c && negb (is_char 215 c))
  then ascii_of_N (code c + 32) else c.

Definition toLowerCase (s : str) : str := map lower_char s.

(** Case folding of a regular expression with the [i] flag (and without
    [u]): only the ASCII letters fold onto the pattern's ASCII letters. *)
Definition fold_char (c : ascii) : ascii :=
  if is_upper c then ascii_of_N (code c + 32) else c.

Fixpoint eqb (a b : str) : bool :=
  match a, b with
  | [], [] => true
  | x :: a', y :: b' => Ascii.eqb x y && eqb a' b'
  | _, _ => false
  end.

(** [s.startsWith(p)]. *)
Fixpoint starts_with (p s : str) : bool :=
  match p, s with
  | [], _ => true
  | x :: p', y :: s' => Ascii.eqb x y && starts_with p' s'
  | _ :: _, [] => false
  end.

(** [s.includes(kw)]. *)
Fixpoint includes (s kw : str) : bool :=
  starts_with kw s ||
  match s with
  | [] => false
  | _ :: s' => includes s' kw
  end.

(** [list.includes(x)] on an array of strings. *)
Definition mem (x : str) (l : list str) : bool := existsb (eqb x) l.

(** [list.some(kw => s.includes(kw))]. *)
Definition includes_any (s : str) (kws : list str) : bool :=
  existsb (includes s) kws.

Fixpoint trimStart (s : str) : str :=
  match s with
  | [] => []
  | c :: s' => if is_space c then trimStart s' else s
  end.

Fixpoint trimEnd (s : str) : str :=
  match s with
  | [] => []
  | c :: s' =>
      match trimEnd s' with
      | [] => if is_space c then [] else [c]
      | r => c :: r
      end
  end.

Definition trim (s : str) : str := trimEnd (trimStart s).

(** [s.replace(/[p]+/g, r)]: every maximal run of characters of the class
    [p] becomes the single character [r].  [inrun] tells that the previous
    character belonged to a run already replaced. *)
Fixpoint squeeze_from (p : ascii -> bool) (r : ascii) (inrun : bool) (s : str) : str :=
  match s with
  | [] => []
  | c :: s' =>
      if p c then
        if inrun then squeeze_from p r true s'
        else r :: squeeze_from p r true s'
      else c :: squeeze_from p r false s'
  end.

Definition squeeze (p : ascii -> bool) (r : ascii) (s : str) : str :=
  squeeze_from p r false s.

(** [s.replace(/[p]/g, r)] for a class of single characters. *)
Definition replace_class (p : ascii -> bool) (r : ascii) (s : str) : str :=
  map (fun c => if p c then r else c) s.

(** [s.split(sep)[0]]. *)
Fixpoint before (sep : ascii -> bool) (s : str) : str :=
  match s with
  | [] => []
  | c :: s' => if sep c then [] else c :: before sep s'
  end.

(** Truthiness of a string-valued property: present and not empty. *)
Definition truthy (o : option str) : bool :=
  match o with
  | Some (_ :: _) => true
  | _ => false
  end.

(** [a || b] on string-valued properties. *)
Definition orElse (a b : option str) : option str :=
  if truthy a then a else b.

(** [a || '']. *)
Definition orEmpty (a : option str) : str :=
  match a with
  | Some s => s
  | None => []
  end.

(** Template literals and [join]. *)
Fixpoint join (sep : str) (parts : list str) : str :=
  match parts with
  | [] => []
  | [p] => p
  | p :: ps => p ++ sep ++ join sep ps
  end.

End JS.

Import JS.

(** ** The regular expressions of the sources

    Each pattern used by the code is written as the function that
    [String.prototype.replace] computes with it. *)

Module Regex.

Definition next_is_word (s : str) : bool :=
  match s with
  | c :: _ => is_word c
  | [] => false
  end.

(** [\b] at a position: [prevw] tells whether the character before the
    position is a word character, [s] is the text from the position on. *)
Definition boundary (prevw : bool) (s : str) : bool :=
  xorb prevw (next_is_word s).

(** One pattern character against one subject character; [ci] is the
    [i] flag. *)
Definition char_match (ci : bool) (p c : ascii) : bool :=
  if ci then Ascii.eqb (fold_char p) (fold_char c) else Ascii.eqb p c.

(** A literal at the head of [s]: the text after it, and whether the last
    character consumed is a word character. *)
Fixpoint after_literal (ci : bool) (w : str) (prevw : bool) (s : str)
  : option (bool * str) :=
  match w with
  | [] => Some (prevw, s)
  | p :: w' =>
      match s with
      | c :: s' =>
          if char_match ci p c then after_literal ci w' (is_word c) s' else None
      | [] => None
      end
  end.

(** [\bw\b] at a position; the length of the match. *)
Definition word_literal (ci : bool) (w : str) (prevw : bool) (s : str)
  : option nat :=
  if boundary prevw s then
    match after_literal ci w prevw s with
    | Some (pw, rest) => if boundary pw rest then Some (List.length w) else None
    | None => None
    end
  else None.

(** [\b(w1|w2|...)\b] at a position: the first alternative that matches.
    An optional or counted part of an alternative is listed longest first
    ([sr\.?] is ["sr."] then ["sr"], [i{1,3}] is ["iii"], ["ii"], ["i"]). *)
Fixpoint word_alts (ci : bool) (alts : list str) (prevw : bool) (s : str)
  : option nat :=
  match alts with
  | [] => None
  | w :: alts' =>
      match word_literal ci w prevw s with
      | Some n => Some n
      | None => word_alts ci alts' prevw s
      end
  end.

(** [s.replace(/m/g, repl)]: scan from the left; where [m] matches [S k]
    characters write [repl] and resume after the match, elsewhere copy one
    character.  [skip] counts the characters of a match still to pass. *)
Fixpoint replace_all (m : bool -> str -> option nat) (repl : str)
  (prevw : bool) (skip : nat) (s : str) : str :=
  match s with
  | [] => []
  | c :: s' =>
      match skip with
      | S k => replace_all m repl (is_word c) k s'
      | O =>
          match m prevw s with
          | Some (S k) => repl ++ replace_all m repl (is_word c) k s'
          | _ => c :: replace_all m repl (is_word c) O s'
          end
      end
  end.

Definition replace_g (m : bool -> str -> option nat) (repl : str) (s : str) : str :=
  replace_all m repl false 0 s.

(** [s.replace(/\b(w1|w2|...)\b/g, repl)]. *)
Definition replace_words (ci : bool) (alts : list str) (repl : str) (s : str) : str :=
  replace_g (word_alts ci alts) repl s.

(** The literal [w] up to the end of the text: [w$]. *)
Definition literal_to_end (ci : bool) (s : str) (w : str) : bool :=
  match after_literal ci w false s with
  | Some (_, []) => true
  | _ => false
  end.

(** [\s+(w1|w2|...)$] at a position.  No alternative begins with white
    space, so [\s+] takes the whole run. *)
Definition suffix_here (ci : bool) (alts : list str) (s : str) : bool :=
  match s with
  | c :: _ => is_space c && existsb (literal_to_end ci (trimStart s)) alts
  | [] => false
  end.

(** [s.replace(/\s+(w1|w2|...)$/, '')]: the leftmost match is removed, and
    it runs to the end of the text. *)
Fixpoint strip_suffix (ci : bool) (alts : list str) (s : str) : str :=
  match s with
  | [] => []
  | c :: s' => if suffix_here ci alts s then [] else c :: strip_suffix ci alts s'
  end.

(** [\s+[^-]+$] at a position: white space first, no hyphen up to the
    end, and at least one character left for [[^-]+]. *)
Definition dash_tail (s : str) : bool :=
  match s with
  | c :: _ :: _ => is_space c && forallb (fun x => negb (is_hyphen x)) s
  | _ => false
  end.

(** [\s+-\s+[^-]+$] at a position. *)
Definition dash_clause_here (s : str) : bool :=
  match s with
  | c :: _ =>
      is_space c &&
      match trimStart s with
      | d :: rest => is_hyphen d && dash_tail rest
      | [] => false
      end
  | [] => false
  end.

(** [s.replace(/\s+-\s+[^-]+$/, '')]. *)
Fixpoint strip_dash_clause (s : str) : str :=
  match s with
  | [] => []
  | c :: s' => if dash_clause_here s then [] else c :: strip_dash_clause s'
  end.

(** [s.replace(/c$/, '')] for a single character class. *)
Fixpoint drop_final (p : ascii -> bool) (s : str) : str :=
  match s with
  | [] => []
  | c :: s' =>
      match s' with
      | [] => if p c then [] else [c]
      | _ :: _ => c :: drop_final p s'
      end
  end.

(** [s.replace(/^-|-$/g, '')]. *)
Definition strip_edge_hyphens (s : str) : str :=
  match s with
  | [] => []
  | c :: s' => if is_hyphen c then drop_final is_hyphen s' else drop_final is_hyphen s
  end.

(** The length of the leading white-space run. *)
Fixpoint space_run (s : str) : nat :=
  match s with
  | c :: s' => if is_space c then S (space_run s') else 0
  | [] => 0
  end.

(** [\s*,\s*] at a position. *)
Definition comma_here (_ : bool) (s : str) : option nat :=
  let k := space_run s in
  match skipn k s with
  | c :: rest => if is_comma c then Some (k + 1 + space_run rest) else None
  | [] => None
  end.

(** The sanitising chain
    [.replace(/[^\w-]/g, '-').replace(/-+/g, '-').replace(/^-|-$/g, '')]. *)
Definition slug (s : str) : str :=
  strip_edge_hyphens
    (squeeze is_hyphen "-"
       (replace_class (fun c => negb (is_word c || is_hyphen c)) "-" s)).

(** The same chain with [/[^\w]/g] first. *)
Definition slug_strict (s : str) : str :=
  strip_edge_hyphens
    (squeeze is_hyphen "-"
       (replace_class (fun c => negb (is_word c)) "-" s)).

(** The longest prefix in a class, and what follows it. *)
Fixpoint span (p : ascii -> bool) (s : str) : str * str :=
  match s with
  | c :: s' =>
      if p c then let (a, b) := span p s' in (c :: a, b) else ([], s)
  | [] => ([], [])
  end.


(** [s.replace(/[p]+$/, '')]: the run of characters of the class [p] at
    the end is removed, from the first position after which every
    character is of the class. *)
Fixpoint drop_trailing (p : ascii -> bool) (s : str) : str :=
  match s with
  | [] => []
  | c :: s' => if forallb p s then [] else c :: drop_trailing p s'
  end.

End Regex.

Import Regex.

(** ** Results of code that can throw *)

Inductive result (A : Type) : Type :=
| Ok (a : A)
| Throw (e : str).

Arguments Ok {A} a.
Arguments Throw {A} e.

Definition bind {A B : Type} (r : result A) (k : A -> result B) : result B :=
  match r with
  | Ok a => k a
  | Throw e => Throw e
  end.

(** [try { body } catch (error) { handler }]. *)
Definition try_catch {A : Type} (body : result A) (handler : str -> result A) : result A :=
  match body with
  | Ok a => Ok a
  | Throw e => handler e
  end.

Notation "x <- r ;; k" := (bind r (fun x => k))
  (at level 61, r at next level, right associativity).

(** ** Platform values *)

(** What [new URL(s)] exposes to the code. *)
Record URL := mkURL {
  hostname : str;
  pathname : str;
  search : str
}.

(** ** Numbers as text *)

(** [String(n)] for an integer [n]: the decimal numeral, with a minus sign
    below zero. *)
Definition decimal (n : Z) : str := lit (NilEmpty.string_of_int (Z.to_int n)).

(** ** lib/job-processor.js *)

Module JobProcessor.

(** A job as the JSearch API delivers it, with the [id] the processor adds. *)
Record Job := mkJob {
  job_apply_link : option str;
  employer_name : option str;
  job_title : option str;
  job_city : option str;
  job_state : option str;
  job_country : option str;
  job_description : option str;
  job_source : option str;
  id : option str
}.

Section Identity.

(** [new URL(s)]; [None] when the constructor throws. *)
Variable URL_parse : str -> option URL.

Definition fallbackId (job : Job) : str :=
  let company := squeeze is_space "-" (toLowerCase (orEmpty (employer_name job))) in
  let title := squeeze is_space "-" (toLowerCase (orEmpty (job_title job))) in
  let location := squeeze is_space "-" (toLowerCase (orEmpty (job_city job))) in
  slug (company ++ lit "-" ++ title ++ lit "-" ++ location).

Definition urlId (urlObj : URL) : str :=
  let normalized := hostname urlObj ++ drop_final is_slash (pathname urlObj) in
  slug_strict (toLowerCase normalized).

Definition generateJobId (job : Job) : str :=
  if truthy (job_apply_link job) then
    match URL_parse (orEmpty (job_apply_link job)) with
    | Some urlObj => urlId urlObj
    | None => fallbackId job
    end
  else fallbackId job.

End Identity.

Definition seniorityWords : list str :=
  map lit ["senior"; "sr."; "sr"; "junior"; "jr."; "jr"; "staff"; "principal";
           "lead"; "associate"]%string.

Definition companySuffixes : list str :=
  map lit ["inc."; "inc"; "llc"; "corp."; "corp"; "ltd."; "ltd"]%string.

Definition generateJobFingerprint (job : Job) : str :=
  let title :=
    trim (squeeze is_space " "
            (replace_words true seniorityWords []
               (toLowerCase (orEmpty (job_title job))))) in
  let company :=
    trim (strip_suffix true companySuffixes
            (toLowerCase (orEmpty (employer_name job)))) in
  let location :=
    trim (toLowerCase (before is_comma (orEmpty (job_city job)))) in
  company ++ lit "::" ++ title ++ lit "::" ++ location.

Definition seniorKeywords : list str :=
  map lit ["senior"; "sr."; "staff"; "principal"; "lead";
           "architect"; "manager"; "director"; "vp"; "head of"]%string.

Definition entryLevelKeywords : list str :=
  map lit ["entry level"; "junior"; "jr."; "new grad"; "recent graduate";
           "associate"; "intern"; "campus"; "student"; "0-2 years";
           "early career"]%string.

Definition seniorText (job : Job) : str :=
  toLowerCase (orEmpty (job_title job) ++ lit " " ++ orEmpty (job_description job)).

Definition isSeniorJob (job : Job) : bool :=
  if match job_source job with
     | Some s => eqb s (lit "jsearch")
     | None => false
     end
  then false
  else
    let text := seniorText job in
    let hasSeniorKeyword := includes_any text seniorKeywords in
    let hasEntryLevelKeyword := includes_any text entryLevelKeywords in
    hasSeniorKeyword && negb hasEntryLevelKeyword.

Definition nonUSCountries : list str :=
  map lit ["canada"; "uk"; "united kingdom"; "germany"; "france";
           "netherlands"; "india"; "singapore"; "japan"; "australia"]%string.

Definition usStates : list str :=
  map lit ["al"; "ak"; "az"; "ar"; "ca"; "co"; "ct"; "de"; "fl"; "ga";
           "hi"; "id"; "il"; "in"; "ia"; "ks"; "ky"; "la"; "me"; "md";
           "ma"; "mi"; "mn"; "ms"; "mo"; "mt"; "ne"; "nv"; "nh"; "nj";
           "nm"; "ny"; "nc"; "nd"; "oh"; "ok"; "or"; "pa"; "ri"; "sc";
           "sd"; "tn"; "tx"; "ut"; "vt"; "va"; "wa"; "wv"; "wi"; "wy"; "dc"]%string.

Definition isUSOnlyJob (job : Job) : bool :=
  let country := toLowerCase (orEmpty (job_country job)) in
  let state := toLowerCase (orEmpty (job_state job)) in
  let city := toLowerCase (orEmpty (job_city job)) in
  if eqb country (lit "us") || eqb country (lit "usa")
     || eqb country (lit "united states") then true
  else if existsb (fun c => includes country c) nonUSCountries then false
  else if mem state usStates then true
  else if includes city (lit "remote") && negb (truthy (Some country)) then true
  else false.

(** *** mergeJobs

    The [Map] keeps its keys in insertion order; [set] on a key that is
    present replaces the value where it stands.  The code reads only the
    [id] of a job, so the job type is left open. *)
Section Merge.

Variable J : Type.
Variable job_id : J -> option str.

Definition JobMap := list (str * J).

Fixpoint map_set (k : str) (v : J) (m : JobMap) : JobMap :=
  match m with
  | [] => [(k, v)]
  | (k', v') :: m' =>
      if eqb k' k then (k, v) :: m' else (k', v') :: map_set k v m'
  end.

(** [if (job.id) jobMap.set(job.id, job)]. *)
Definition insert_job (m : JobMap) (job : J) : JobMap :=
  if truthy (job_id job) then map_set (orEmpty (job_id job)) job m else m.

Definition map_values (m : JobMap) : list J := map snd m.

Definition mergeJobs (persistedJobs freshJobs : list J) : list J :=
  let jobMap := fold_left insert_job persistedJobs [] in
  let jobMap := fold_left insert_job freshJobs jobMap in
  map_values jobMap.

End Merge.

Arguments map_set {J} k v m.
Arguments insert_job {J} job_id m job.
Arguments map_values {J} m.
Arguments mergeJobs {J} job_id persistedJobs freshJobs.

(** *** The stores *)

(** A parsed JSON text.  Numbers are kept abstract; the properties of an
    object come in the order [Object.keys] lists them. *)
#[local] Unset Elimination Schemes.

Inductive json (num : Type) : Type :=
| JNull
| JBool (b : bool)
| JNum (n : num)
| JStr (s : str)
| JArr (items : list (json num))
| JObj (props : list (str * json num)).

#[local] Set Elimination Schemes.

Arguments JNull {num}.
Arguments JBool {num} b.
Arguments JNum {num} n.
Arguments JStr {num} s.
Arguments JArr {num} items.
Arguments JObj {num} props.

(** The decimal numeral of an array index. *)
Definition index_name (i : nat) : str :=
  lit (NilEmpty.string_of_uint (Nat.to_uint i)).

Section Stores.

Variable num : Type.
(** SameValueZero on numbers, and [!n]. *)
Variable num_same : num -> num -> bool.
Variable num_falsy : num -> bool.

(** [process.cwd()], [path.join], [fs.existsSync], [fs.readFileSync]
    and [JSON.parse]. *)
Variable cwd : str.
Variable path_join : list str -> str.
Variable existsSync : str -> bool.
Variable readFileSync : str -> result str.
Variable JSON_parse : str -> result (json num).

(** SameValueZero, the equality of [Set]: primitives by value; an
    array or an object of a parsed text is equal to no other value. *)
Definition same_value_zero (a b : json num) : bool :=
  match a, b with
  | JNull, JNull => true
  | JBool x, JBool y => Bool.eqb x y
  | JNum x, JNum y => num_same x y
  | JStr x, JStr y => eqb x y
  | _, _ => false
  end.

(** A [Set] in insertion order. *)
Definition JSSet := list (json num).

Definition set_has (s : JSSet) (v : json num) : bool :=
  existsb (same_value_zero v) s.

Definition set_add (s : JSSet) (v : json num) : JSSet :=
  if set_has s v then s else s ++ [v].

(** [Object.keys(v)]; it throws on [null]. *)
Definition Object_keys (v : json num) : result (list str) :=
  match v with
  | JNull => Throw (lit "Cannot convert undefined or null to object")
  | JBool _ | JNum _ => Ok []
  | JStr s => Ok (map index_name (seq 0 (List.length s)))
  | JArr items => Ok (map index_name (seq 0 (List.length items)))
  | JObj props => Ok (map fst props)
  end.

Definition dataDir : str := path_join [cwd; lit ".github"; lit "data"].

Definition loadSeenJobsStore : result JSSet :=
  let seenPath := path_join [dataDir; lit "seen_jobs.json"] in
  try_catch
    (if negb (existsSync seenPath) then Ok []
     else
       text <- readFileSync seenPath ;;
       data <- JSON_parse text ;;
       match data with
       | JArr items => Ok (fold_left set_add items [])
       | _ =>
           keys <- Object_keys data ;;
           Ok (fold_left set_add (map JStr keys) [])
       end)
    (fun _ => Ok []).

(** [!v] on a parsed JSON value. *)
Definition falsy (v : json num) : bool :=
  match v with
  | JNull => true
  | JBool b => negb b
  | JNum n => num_falsy n
  | JStr s => match s with [] => true | _ => false end
  | JArr _ | JObj _ => false
  end.

Definition loadCurrentJobsStore : result (json num) :=
  let currentPath := path_join [dataDir; lit "current_jobs.json"] in
  try_catch
    (if negb (existsSync currentPath) then Ok (JArr [])
     else
       text <- readFileSync currentPath ;;
       data <- JSON_parse text ;;
       Ok (if falsy data then JArr [] else data))
    (fun _ => Ok (JArr [])).

End Stores.

Arguments same_value_zero {num} num_same a b.
Arguments set_has {num} num_same s v.
Arguments set_add {num} num_same s v.
Arguments Object_keys {num} v.
Arguments falsy {num} num_falsy v.
Arguments loadSeenJobsStore {num} num_same cwd path_join existsSync
  readFileSync JSON_parse.
Arguments loadCurrentJobsStore {num} num_falsy cwd path_join existsSync
  readFileSync JSON_parse.


(** *** The age filter *)

(** A job with the posting date, the one more property the age filter
    reads. *)
Record Posting := mkPosting {
  posting : Job;
  job_posted_at_datetime_utc : option str
}.

Section Age.

(** [new Date(s).getTime()], [None] for an invalid date, and the time of
    the call. *)
Variable Date_parse : str -> option Z.
Variable now : Z.

Definition isJobOlderThan14Days (job : Posting) : bool :=
  let postedDate := job_posted_at_datetime_utc job in
  if negb (truthy postedDate) then false
  else
    match Date_parse (orEmpty postedDate) with
    | None => false
    | Some jobDate =>
        let diffInDays := ((now - jobDate) / (1000 * 60 * 60 * 24))%Z in
        (14 <=? diffInDays)%Z
    end.

End Age.

(** *** processJobs

    The jobs of the argument are records of the type above.  The
    persisted jobs are what [JSON.parse] made of the store file, values of
    any shape: the functions are written out below for such a value,
    with the errors that a property of another type raises.  (The text of
    an error names its kind; the wording of the engine is not modelled.) *)

(** [job.id = v]. *)
Definition set_id (job : Job) (v : str) : Job :=
  {| job_apply_link := job_apply_link job; employer_name := employer_name job;
     job_title := job_title job; job_city := job_city job;
     job_state := job_state job; job_country := job_country job;
     job_description := job_description job; job_source := job_source job;
     id := Some v |}.

Definition posting_id (job : Posting) : option str := id (posting job).

(** A job of the pipeline: a job of the argument or an element of the
    store. *)
Inductive Entry (num : Type) : Type :=
| Fresh (job : Posting)
| Stored (v : json num).

Arguments Fresh {num} job.
Arguments Stored {num} v.

Module Dyn.

Section Values.

Variable num : Type.
Variable num_same : num -> num -> bool.
Variable num_falsy : num -> bool.

Variable Date_parse : str -> option Z.

(** For a value [v] that is not a string: the text of [v] in a template
    literal, and [new Date(v).getTime()] ([None] for an invalid date).
    Both throw where the conversion of [v] to a primitive throws. *)
Variable String_value : json num -> result str.
Variable Date_value : json num -> result (option Z).

(** The value of the property [name] of a parsed object: that of the last
    member of the text with this name. *)
Definition lookup (name : str) (props : list (str * json num))
  : option (json num) :=
  fold_left (fun found p => if eqb (fst p) name then Some (snd p) else found)
    props None.

(** [v.name] for the names that the functions read ([id], [job_country]
    and the like), [None] for [undefined]: only an object has such a
    property, and reading it from [null] throws. *)
Definition get (v : json num) (name : str) : result (option (json num)) :=
  match v with
  | JNull => Throw (lit "TypeError: Cannot read properties of null")
  | JObj props => Ok (lookup name props)
  | JBool _ | JNum _ | JStr _ | JArr _ => Ok None
  end.

(** [x || '']. *)
Definition or_empty (x : option (json num)) : json num :=
  match x with
  | Some v => if falsy num_falsy v then JStr [] else v
  | None => JStr []
  end.

(** [v.toLowerCase()] is a call of a method that strings only have. *)
Definition lower_receiver (v : json num) : result str :=
  match v with
  | JStr s => Ok s
  | _ => Throw (lit "TypeError: toLowerCase is not a function")
  end.

(** [v] in a template literal. *)
Definition template_text (v : json num) : result str :=
  match v with
  | JStr s => Ok s
  | _ => String_value v
  end.

(** [persistedJobs.length] in the template literal of the log line: an
    array and a string have a number there, an object may have any
    property of this name. *)
Definition length_text (v : json num) : result unit :=
  match v with
  | JObj props =>
      match lookup (lit "length") props with
      | Some x => _ <- template_text x ;; Ok tt
      | None => Ok tt
      end
  | _ => Ok tt
  end.

(** [isUSOnlyJob(job)]: the three properties are read and put in lower
    case, then the tests are those of the function on records. *)
Definition isUSOnlyJob (job : Entry num) : result bool :=
  match job with
  | Fresh job => Ok (JobProcessor.isUSOnlyJob (posting job))
  | Stored v =>
      c <- get v (lit "job_country") ;;
      country <- lower_receiver (or_empty c) ;;
      s <- get v (lit "job_state") ;;
      state <- lower_receiver (or_empty s) ;;
      ci <- get v (lit "job_city") ;;
      city <- lower_receiver (or_empty ci) ;;
      Ok (JobProcessor.isUSOnlyJob
            {| job_apply_link := None; employer_name := None; job_title := None;
               job_city := Some city; job_state := Some state;
               job_country := Some country; job_description := None;
               job_source := None; id := None |})
  end.

(** [isSeniorJob(job)]: the source is compared first; the title and the
    description are converted by the template literal. *)
Definition isSeniorJob (job : Entry num) : result bool :=
  match job with
  | Fresh job => Ok (JobProcessor.isSeniorJob (posting job))
  | Stored v =>
      src <- get v (lit "job_source") ;;
      let source := match src with Some (JStr s) => Some s | _ => None end in
      if match source with Some s => eqb s (lit "jsearch") | None => false end
      then Ok false
      else
        t <- get v (lit "job_title") ;;
        title <- template_text (or_empty t) ;;
        d <- get v (lit "job_description") ;;
        description <- template_text (or_empty d) ;;
        Ok (JobProcessor.isSeniorJob
              {| job_apply_link := None; employer_name := None;
                 job_title := Some title; job_city := None; job_state := None;
                 job_country := None; job_description := Some description;
                 job_source := source; id := None |})
  end.

(** [isJobOlderThan14Days(job)] at the [tick]-th reading of the clock:
    the answer and the number of the next reading.  The clock is read
    for a job that has a posting date. *)
Definition isJobOlderThan14Days (clock : nat -> Z) (tick : nat) (job : Entry num)
  : result (bool * nat) :=
  match job with
  | Fresh job =>
      Ok (JobProcessor.isJobOlderThan14Days Date_parse (clock tick) job,
          if truthy (job_posted_at_datetime_utc job) then S tick else tick)
  | Stored v =>
      d <- get v (lit "job_posted_at_datetime_utc") ;;
      match d with
      | None => Ok (false, tick)
      | Some postedDate =>
          if falsy num_falsy postedDate then Ok (false, tick)
          else
            jobDate <- match postedDate with
                       | JStr s => Ok (Date_parse s)
                       | _ => Date_value postedDate
                       end ;;
            let now := clock tick in
            Ok (match jobDate with
                | None => false
                | Some jobDate =>
                    (14 <=? (now - jobDate) / (1000 * 60 * 60 * 24))%Z
                end, S tick)
      end
  end.

(** [job.id]. *)
Definition id_of (job : Entry num) : result (option (json num)) :=
  match job with
  | Fresh job =>
      Ok (match posting_id job with Some s => Some (JStr s) | None => None end)
  | Stored v => get v (lit "id")
  end.

(** The [Map] of [mergeJobs]: its keys are values of any type, compared
    by SameValueZero. *)
Definition JobMap := list (json num * Entry num).

Fixpoint map_set (k : json num) (v : Entry num) (m : JobMap) : JobMap :=
  match m with
  | [] => [(k, v)]
  | (k', v') :: m' =>
      if same_value_zero num_same k' k then (k, v) :: m'
      else (k', v') :: map_set k v m'
  end.

(** [if (job.id) jobMap.set(job.id, job)]. *)
Definition insert_job (m : JobMap) (job : Entry num) : result JobMap :=
  i <- id_of job ;;
  Ok (match i with
      | Some k => if falsy num_falsy k then m else map_set k job m
      | None => m
      end).

(** [jobs.forEach(job => ...)]. *)
Fixpoint insert_jobs (m : JobMap) (jobs : list (Entry num)) : result JobMap :=
  match jobs with
  | [] => Ok m
  | job :: rest => m' <- insert_job m job ;; insert_jobs m' rest
  end.

(** [mergeJobs(persistedJobs, freshJobs)]: [forEach] is a method of
    arrays. *)
Definition mergeJobs (persistedJobs : json num) (freshJobs : list Posting)
  : result (list (Entry num)) :=
  match persistedJobs with
  | JArr items =>
      jobMap <- insert_jobs [] (map Stored items) ;;
      jobMap <- insert_jobs jobMap (map Fresh freshJobs) ;;
      Ok (map snd jobMap)
  | _ => Throw (lit "TypeError: persistedJobs.forEach is not a function")
  end.

(** [jobs.filter(test)] with a test that may throw. *)
Fixpoint filter_by (test : Entry num -> result bool) (jobs : list (Entry num))
  : result (list (Entry num)) :=
  match jobs with
  | [] => Ok []
  | job :: rest =>
      b <- test job ;;
      kept <- filter_by test rest ;;
      Ok (if b then job :: kept else kept)
  end.

(** [jobs.filter(job => isJobOlderThan14Days(job))] for [wanted = true] and
    [jobs.filter(job => !isJobOlderThan14Days(job))] for [wanted = false],
    from the [tick]-th reading of the clock on; the readings used are
    counted. *)
Fixpoint filterByAge (clock : nat -> Z) (wanted : bool) (tick : nat)
    (jobs : list (Entry num)) : result (list (Entry num) * nat) :=
  match jobs with
  | [] => Ok ([], tick)
  | job :: rest =>
      r <- isJobOlderThan14Days clock tick job ;;
      let (older, tick') := r in
      r' <- filterByAge clock wanted tick' rest ;;
      let (kept, t) := r' in
      Ok (if Bool.eqb older wanted then job :: kept else kept, t)
  end.

End Values.

Arguments lookup {num} name props.
Arguments get {num} v name.
Arguments or_empty {num} num_falsy x.
Arguments lower_receiver {num} v.
Arguments template_text {num} String_value v.
Arguments length_text {num} String_value v.
Arguments isUSOnlyJob {num} num_falsy job.
Arguments isSeniorJob {num} num_falsy String_value job.
Arguments isJobOlderThan14Days {num} num_falsy Date_parse Date_value clock tick job.
Arguments id_of {num} job.
Arguments map_set {num} num_same k v m.
Arguments insert_job {num} num_same num_falsy m job.
Arguments insert_jobs {num} num_same num_falsy m jobs.
Arguments mergeJobs {num} num_same num_falsy persistedJobs freshJobs.
Arguments filter_by {num} test jobs.
Arguments filterByAge {num} num_falsy Date_parse Date_value clock wanted tick jobs.

End Dyn.

Section Process.

Variable num : Type.
Variable num_same : num -> num -> bool.
Variable num_falsy : num -> bool.

Variable URL_parse : str -> option URL.
Variable Date_parse : str -> option Z.
Variable String_value : json num -> result str.
Variable Date_value : json num -> result (option Z).

(** The clock: the time that [new Date()] reads when it is called for
    the n-th time. *)
Variable clock : nat -> Z.

(** The file system, as far as the function meets it: the two writes,
    which may throw, and in between what [loadCurrentJobsStore] finds:
    [process.cwd()], [path.join], [fs.existsSync], [fs.readFileSync] and
    [JSON.parse] at the time of its call. *)
Variable writeNewJobsFile : list Posting -> result unit.
Variable saveCurrentJobsStore : list (Entry num) -> result unit.
Variable cwd : str.
Variable path_join : list str -> str.
Variable existsSync : str -> bool.
Variable readFileSync : str -> result str.
Variable JSON_parse : str -> result (json num).

(** [job.id = generateJobId(job)], whatever id the job had. *)
Definition assignId (job : Posting) : Posting :=
  mkPosting (set_id (posting job) (generateJobId URL_parse (posting job)))
    (job_posted_at_datetime_utc job).

(** The value the promise is fulfilled with, [{ currentJobs, archivedJobs }],
    or the error it is rejected with. *)
Definition processJobs (jobs : list Posting)
  : result (list (Entry num) * list (Entry num)) :=
  let jobs := map assignId jobs in
  _ <- writeNewJobsFile jobs ;;
  persistedJobs <-
    loadCurrentJobsStore num_falsy cwd path_join existsSync readFileSync
      JSON_parse ;;
  _ <- Dyn.length_text String_value persistedJobs ;;
  mergedJobs <- Dyn.mergeJobs num_same num_falsy persistedJobs jobs ;;
  usJobs <- Dyn.filter_by (Dyn.isUSOnlyJob num_falsy) mergedJobs ;;
  nonSeniorJobs <-
    Dyn.filter_by
      (fun job => b <- Dyn.isSeniorJob num_falsy String_value job ;; Ok (negb b))
      usJobs ;;
  r <- Dyn.filterByAge num_falsy Date_parse Date_value clock false 0
         nonSeniorJobs ;;
  let (currentJobs, tick) := r in
  _ <- saveCurrentJobsStore currentJobs ;;
  r <- Dyn.filterByAge num_falsy Date_parse Date_value clock true tick
         nonSeniorJobs ;;
  let (archivedJobs, _) := r in
  Ok (currentJobs, archivedJobs).

End Process.

(** *** Saving the stores

    The writing functions change the file system: its state is passed
    along.  [FS] is the type of the states; the calls of [fs] are
    parameters that take the state, and those that change it return the
    new one, or throw. *)
Section Saving.

Variable num : Type.
Variable FS : Type.

Variable cwd : str.
Variable path_join : list str -> str.
Variable existsSync : FS -> str -> bool.
Variable mkdirSync : FS -> str -> result FS.
Variable writeFileSync : FS -> str -> str -> result FS.
Variable renameSync : FS -> str -> str -> result FS.

(** [JSON.stringify(value, null, 2)]. *)
Variable JSON_stringify : json num -> str.

(** [if (!fs.existsSync(dataDir)) fs.mkdirSync(dataDir, { recursive: true })]. *)
Definition ensureDataDir (fs : FS) : result FS :=
  let dataDir := dataDir cwd path_join in
  if negb (existsSync fs dataDir) then mkdirSync fs dataDir else Ok fs.

(** The text goes to a temporary file, which is then renamed. *)
Definition writeStore (fs : FS) (name temp : str) (data : json num) : result FS :=
  fs <- ensureDataDir fs ;;
  let dataDir := dataDir cwd path_join in
  let storePath := path_join [dataDir; name] in
  let tempPath := path_join [dataDir; temp] in
  fs <- writeFileSync fs tempPath (JSON_stringify data) ;;
  renameSync fs tempPath storePath.

(** [Array.from(seenJobs)] lists the members in the order of insertion. *)
Definition saveSeenJobsStore (fs : FS) (seenJobs : list (json num)) : result FS :=
  let data := JArr seenJobs in
  writeStore fs (lit "seen_jobs.json") (lit "seen_jobs.tmp.json") data.

Definition saveCurrentJobsStore (fs : FS) (jobs : json num) : result FS :=
  writeStore fs (lit "current_jobs.json") (lit "current_jobs.tmp.json") jobs.

Definition writeNewJobsFile (fs : FS) (freshJobs : json num) : result FS :=
  writeStore fs (lit "new_jobs.json") (lit "new_jobs.tmp.json") freshJobs.

End Saving.

Arguments saveSeenJobsStore {num FS} cwd path_join existsSync mkdirSync
  writeFileSync renameSync JSON_stringify fs seenJobs.
Arguments saveCurrentJobsStore {num FS} cwd path_join existsSync mkdirSync
  writeFileSync renameSync JSON_stringify fs jobs.
Arguments writeNewJobsFile {num FS} cwd path_join existsSync mkdirSync
  writeFileSync renameSync JSON_stringify fs freshJobs.
Arguments ensureDataDir {FS} cwd path_join existsSync mkdirSync fs.
Arguments writeStore {num FS} cwd path_join existsSync mkdirSync
  writeFileSync renameSync JSON_stringify fs name temp data.
Arguments processJobs {num} num_same num_falsy URL_parse Date_parse String_value
  Date_value clock writeNewJobsFile saveCurrentJobsStore cwd path_join existsSync
  readFileSync JSON_parse jobs.

End JobProcessor.

(** ** config/locations.js *)

Module Locations.

Definition usStateCodes : list str :=
  map lit ["al"; "ak"; "az"; "ar"; "ca"; "co"; "ct"; "de"; "fl"; "ga"; "hi";
           "id"; "il"; "in"; "ia"; "ks"; "ky"; "la"; "me"; "md"; "ma"; "mi";
           "mn"; "ms"; "mo"; "mt"; "ne"; "nv"; "nh"; "nj"; "nm"; "ny"; "nc";
           "nd"; "oh"; "ok"; "or"; "pa"; "ri"; "sc"; "sd"; "tn"; "tx"; "ut";
           "vt"; "va"; "wa"; "wv"; "wi"; "wy"; "dc"]%string.

Definition usStateFullNames : list str :=
  map lit ["alabama"; "alaska"; "arizona"; "arkansas"; "california";
           "colorado"; "connecticut"; "delaware"; "florida"; "georgia";
           "hawaii"; "idaho"; "illinois"; "indiana"; "iowa"; "kansas";
           "kentucky"; "louisiana"; "maine"; "maryland"; "massachusetts";
           "michigan"; "minnesota"; "mississippi"; "missouri"; "montana";
           "nebraska"; "nevada"; "new hampshire"; "new jersey"; "new mexico";
           "new york"; "north carolina"; "north dakota"; "ohio"; "oklahoma";
           "oregon"; "pennsylvania"; "rhode island"; "south carolina";
           "south dakota"; "tennessee"; "texas"; "utah"; "vermont";
           "virginia"; "washington"; "west virginia"; "wisconsin"; "wyoming";
           "district of columbia"]%string.

Definition usIndicators : list str :=
  map lit ["us"; "usa"; "united states"; "united states of america";
           "america"]%string.

(** [Object.values(nonUSCountries)], region by region. *)
Definition nonUSCountries : list (list str) :=
  map (map lit)
    [ ["canada"; "mexico"];
      ["uk"; "united kingdom"; "great britain"; "britain"; "germany";
       "deutschland"; "france"; "netherlands"; "holland"; "sweden"; "norway";
       "denmark"; "finland"; "ireland"; "belgium"; "austria"; "switzerland";
       "poland"; "portugal"; "greece"; "italy"; "spain"; "romania";
       "bulgaria"; "hungary"; "czech republic"; "croatia"; "serbia";
       "russia"; "ukraine"];
      ["estonia"; "latvia"; "lithuania"];
      ["india"; "singapore"; "japan"; "south korea"; "korea"; "china";
       "taiwan"; "hong kong"; "thailand"; "vietnam"; "philippines";
       "indonesia"; "malaysia"];
      ["israel"; "turkey"; "uae"; "saudi arabia"];
      ["australia"; "new zealand"];
      ["brazil"; "argentina"; "chile"; "colombia"; "peru"] ]%string.

Definition usCities_top20 : list str :=
  map lit ["new york"; "los angeles"; "chicago"; "houston"; "phoenix";
           "philadelphia"; "san antonio"; "san diego"; "dallas"; "san jose";
           "austin"; "jacksonville"; "san francisco"; "columbus";
           "fort worth"; "indianapolis"; "seattle"; "denver"; "washington";
           "boston"]%string.

Definition usCities_tech : list str :=
  map lit ["san francisco"; "san jose"; "palo alto"; "mountain view";
           "sunnyvale"; "cupertino"; "seattle"; "austin"; "boston"; "denver";
           "portland"; "raleigh"; "durham"; "chicago"; "new york";
           "los angeles"; "san diego"]%string.

(** [Object.values(nonUSCities)], group by group. *)
Definition nonUSCities : list (list str) :=
  map (map lit)
    [ ["toronto"; "vancouver"; "montreal"; "ottawa"; "calgary"; "edmonton";
       "quebec city"];
      ["london"; "manchester"; "birmingham"; "glasgow"; "liverpool";
       "bristol"; "edinburgh"];
      ["berlin"; "munich"; "hamburg"; "cologne"; "frankfurt"; "stuttgart"];
      ["paris"; "marseille"; "lyon"; "toulouse"; "nice"];
      ["amsterdam"; "rotterdam"; "the hague"; "utrecht"];
      ["stockholm"; "copenhagen"; "helsinki"; "oslo"; "gothenburg"];
      ["bangalore"; "bengaluru"; "mumbai"; "delhi"; "hyderabad"; "pune";
       "chennai"];
      ["tokyo"; "osaka"; "seoul"; "busan"; "singapore"; "hong kong";
       "taipei"; "bangkok"];
      ["sydney"; "melbourne"; "brisbane"; "perth"; "auckland"];
      ["tel aviv"; "jerusalem"; "dubai"; "abu dhabi"; "riyadh"] ]%string.

Definition isNonUS (location : str) : bool :=
  match location with
  | [] => false
  | _ :: _ =>
      let loc := trim (toLowerCase location) in
      if existsb (fun countries => includes_any loc countries) nonUSCountries
      then true
      else if existsb (fun cities => includes_any loc cities) nonUSCities
      then true
      else false
  end.

Definition isUS (location : str) : bool :=
  match location with
  | [] => false
  | _ :: _ =>
      let loc := trim (toLowerCase location) in
      if includes_any loc usIndicators then true
      else if existsb (fun state => eqb loc state || includes loc state) usStateCodes
      then true
      else if includes_any loc usStateFullNames then true
      else if includes_any loc (usCities_top20 ++ usCities_tech) then true
      else if includes loc (lit "remote") && negb (isNonUS location) then true
      else false
  end.

End Locations.

(** ** lib/utils.js *)

Module Utils.

(** The [locations] part of a configuration: its two predicates. *)
Record LocConfig := mkLocConfig {
  isUS : str -> bool;
  isNonUS : str -> bool
}.

(** The keyword lists of [categories.experienceLevels]. *)
Record ExperienceLevels := mkExperienceLevels {
  Senior : option (list str);
  EntryLevel : option (list str);
  MidLevel : option (list str)
}.

(** [categories.keywords] in the order of [Object.entries]; a value that
    is not an array is [None]. *)
Record Categories := mkCategories {
  keywords : option (list (str * option (list str)));
  experienceLevels : option ExperienceLevels
}.

Record Config := mkConfig {
  config_locations : option LocConfig;
  config_categories : option Categories
}.

(** The configuration the package itself ships (config/index.js), as far
    as the location filter reads it. *)
Definition packageLocations : LocConfig :=
  {| isUS := Locations.isUS; isNonUS := Locations.isNonUS |}.

(** A job in any of the source formats the utilities accept. *)
Record Job := mkJob {
  title : option str;
  job_title : option str;
  company_name : option str;
  employer_name : option str;
  company : option str;
  locations : option (list str);
  job_city : option str;
  location : option str;
  url : option str;
  job_apply_link : option str;
  job_state : option str
}.

(** *** Identity *)

Definition companyWords (job : Job) : option str :=
  orElse (company_name job) (orElse (employer_name job) (company job)).

Definition companySuffixes : list str :=
  map lit ["inc."; "inc"; "llc"; "corp."; "corp"; "corporation"; "ltd.";
           "ltd"; "limited"; "gmbh"; "co"; "company"]%string.

Definition normalizeCompanyNameStr (company : option str) : str :=
  if negb (truthy company) then []
  else
    squeeze is_space " "
      (strip_suffix true companySuffixes
         (trim (toLowerCase (orEmpty company)))).

Definition enhancedCompanySuffixes : list str :=
  map lit ["inc."; "inc"; "incorporated"; "llc"; "corp."; "corp";
           "corporation"; "ltd."; "ltd"; "limited"]%string.

Definition firstLocation (job : Job) : option str :=
  match locations job with
  | Some (l :: _) => Some l
  | _ => None
  end.

Definition generateEnhancedId (job : Job) : str :=
  let title := trim (toLowerCase (orEmpty (orElse (title job) (job_title job)))) in
  let title := replace_words false [lit "i"] (lit "1") title in
  let title := replace_words false [lit "ii"] (lit "2") title in
  let title := replace_words false [lit "iii"] (lit "3") title in
  let title := replace_words false [lit "iv"] (lit "4") title in
  let title := replace_words false [lit "v"] (lit "5") title in
  let title := replace_words false [lit "sr."; lit "sr"] (lit "senior") title in
  let title := replace_words false [lit "jr."; lit "jr"] (lit "junior") title in
  let title := replace_words false [lit "&"] (lit "and") title in
  let title := squeeze is_space "-" title in
  let company := trim (toLowerCase (orEmpty (companyWords job))) in
  let company := strip_suffix true enhancedCompanySuffixes company in
  let company := strip_suffix true [lit "solutions"; lit "solution"] company in
  let company := strip_suffix true [lit "technologies"; lit "technologie"] company in
  let company := strip_suffix true [lit "systems"; lit "system"] company in
  let company := strip_suffix true [lit "group"] company in
  let company := replace_g comma_here (lit "-") company in
  let company := squeeze is_space "-" company in
  let city :=
    match firstLocation job with
    | Some l => trim (toLowerCase l)
    | None => trim (toLowerCase (orEmpty (orElse (job_city job) (location job))))
    end in
  let city := squeeze is_space "-" city in
  slug company ++ lit "-" ++ slug title ++ lit "-" ++ slug city.

Section Identity.

(** [new URL(s)]; [None] when the constructor throws. *)
Variable URL_parse : str -> option URL.

Definition urlId (urlObj : URL) : str :=
  let normalized := hostname urlObj ++ drop_final is_slash (pathname urlObj) in
  slug_strict (toLowerCase normalized).

Definition generateJobIdFromUrl (job : Job) : str :=
  let jobUrl := orElse (url job) (job_apply_link job) in
  if truthy jobUrl then
    match URL_parse (orEmpty jobUrl) with
    | Some urlObj => urlId urlObj
    | None => generateEnhancedId job
    end
  else generateEnhancedId job.

Definition generateJobId (job : Job) : str := generateJobIdFromUrl job.

End Identity.

Definition seniorityWords : list str :=
  map lit ["senior"; "sr."; "sr"; "junior"; "jr."; "jr"; "staff"; "principal";
           "lead"; "associate"]%string.

Definition levelWords : list str :=
  map lit ["iii"; "ii"; "i"; "iv"; "v"; "1"; "2"; "3"; "4"; "5"]%string.

Definition fingerprintTitle (raw : str) : str :=
  let title := trim (toLowerCase raw) in
  let title := replace_words true seniorityWords [] title in
  let title := replace_words false levelWords [] title in
  let title := strip_dash_clause title in
  let title := squeeze is_space " " title in
  trim title.

Definition fingerprintLocation (job : Job) : str :=
  let location :=
    match firstLocation job with
    | Some l => before is_comma l
    | None => before is_comma (orEmpty (orElse (job_city job) (location job)))
    end in
  trim (toLowerCase location).

Definition generateJobFingerprint (job : Job) : str :=
  let title := fingerprintTitle (orEmpty (orElse (title job) (job_title job))) in
  let company := normalizeCompanyNameStr (Some (orEmpty (companyWords job))) in
  let location := fingerprintLocation job in
  company ++ lit "::" ++ title ++ lit "::" ++ location.

(** *** Age filter *)

Definition digit_value (c : ascii) : N := (code c - 48)%N.

(** [parseInt] on a string of decimal digits. *)
Definition parseInt (digits : str) : N :=
  fold_left (fun acc d => (10 * acc + digit_value d)%N) digits 0%N.

(** The class [[hdwmo]] under the [i] flag. *)
Definition unit_class (c : ascii) : bool :=
  existsb (fun u => char_match true u c) (lit "hdwmo").

(** [String(dateString).match(/^(\d+)([hdwmo])$/i)]: the two groups. *)
Definition match_relative (s : str) : option (str * str) :=
  match span is_digit s with
  | ((_ :: _) as digits, [u]) => if unit_class u then Some (digits, [u]) else None
  | _ => None
  end.

Section Age.

(** [new Date(s).getTime()], [None] for an invalid date; and the time of
    the call, both in milliseconds. *)
Variable Date_parse : str -> option Z.
Variable now : Z.

Definition isJobOlderThanWeek (dateString : option str) : bool :=
  if negb (truthy dateString) then false
  else
    let s := orEmpty dateString in
    match match_relative s with
    | Some (digits, u) =>
        let value := parseInt digits in
        let unit := toLowerCase u in
        if eqb unit (lit "h") then (336 <=? value)%N
        else if eqb unit (lit "d") then (14 <=? value)%N
        else if eqb unit (lit "w") then (2 <=? value)%N
        else if eqb unit (lit "mo") then true
        else false
    | None =>
        match Date_parse s with
        | None => false
        | Some date =>
            let diffInDays := ((now - date) / (1000 * 60 * 60 * 24))%Z in
            (14 <=? diffInDays)%Z
        end
    end.

End Age.

(** *** Location filter *)

Definition usIndicators : list str :=
  map lit ["us"; "usa"; "united states"; "america"]%string.

Definition isUSOnlyJob (job : Job) (config : option Config) : bool :=
  let locConfig :=
    match config with
    | Some c => config_locations c
    | None => None
    end in
  let state := trim (toLowerCase (orEmpty (job_state job))) in
  let city := trim (toLowerCase (orEmpty (job_city job))) in
  let cleanCity := trim (squeeze (fun c => is_comma c || is_space c) " " city) in
  let cleanState := trim (squeeze (fun c => is_comma c || is_space c) " " state) in
  match locConfig with
  | Some lc =>
      if isNonUS lc cleanCity || isNonUS lc cleanState then false
      else isUS lc cleanCity || isUS lc cleanState
  | None =>
      if existsb (fun i => includes cleanState i) usIndicators then true
      else if includes cleanCity (lit "remote") || includes cleanState (lit "remote")
      then true
      else true
  end.

(** *** Classification *)

(** The text both classifiers search; [description] is [None] when the
    argument is omitted and the default [''] applies. *)
Definition classifierText (title : str) (description : option str) : str :=
  toLowerCase (title ++ lit " " ++ orEmpty description).

Definition configuredLevels (config : option Config) : option ExperienceLevels :=
  match config with
  | Some c =>
      match config_categories c with
      | Some cats => experienceLevels cats
      | None => None
      end
  | None => None
  end.

(** [levels[name] && levels[name].some(keyword => text.includes(keyword))]. *)
Definition level_matches (kws : option (list str)) (text : str) : bool :=
  match kws with
  | Some l => includes_any text l
  | None => false
  end.

Definition seniorDefaults : list str :=
  map lit ["senior"; "sr."; "lead"; "principal"; "staff"; "architect"]%string.

Definition entryDefaults : list str :=
  map lit ["entry"; "junior"; "jr."; "new grad"; "graduate"; "intern";
           "associate"; "level 1"; "l1"; "campus"; "student";
           "early career"]%string.

Definition defaultLevel (text : str) : str :=
  if includes text (lit "senior") || includes text (lit "sr.")
     || includes text (lit "lead") || includes text (lit "principal")
     || includes text (lit "staff") || includes text (lit "architect")
  then lit "Senior"
  else if includes text (lit "entry") || includes text (lit "junior")
     || includes text (lit "jr.") || includes text (lit "new grad")
     || includes text (lit "graduate") || includes text (lit "intern")
     || includes text (lit "associate") || includes text (lit "level 1")
     || includes text (lit "l1") || includes text (lit "campus")
     || includes text (lit "student") || includes text (lit "early career")
  then lit "Entry-Level"
  else lit "Entry-Level".

Definition getExperienceLevel (title : str) (description : option str)
  (config : option Config) : str :=
  let text := classifierText title description in
  match configuredLevels config with
  | Some levels =>
      if level_matches (Senior levels) text then lit "Senior"
      else if level_matches (EntryLevel levels) text then lit "Entry-Level"
      else if level_matches (MidLevel levels) text then lit "Mid-Level"
      else defaultLevel text
  | None => defaultLevel text
  end.

Definition configuredKeywords (config : option Config)
  : option (list (str * option (list str))) :=
  match config with
  | Some c =>
      match config_categories c with
      | Some cats => keywords cats
      | None => None
      end
  | None => None
  end.

(** The loop over [Object.entries(config.categories.keywords)]. *)
Fixpoint firstCategory (entries : list (str * option (list str))) (text : str)
  : option str :=
  match entries with
  | [] => None
  | (category, kws) :: rest =>
      if level_matches kws text then Some category else firstCategory rest text
  end.

Definition defaultCategory (text : str) : str :=
  if includes text (lit "ios") || includes text (lit "android")
     || includes text (lit "mobile")
  then lit "Mobile Development"
  else if includes text (lit "frontend") || includes text (lit "front-end")
     || includes text (lit "react") || includes text (lit "vue")
  then lit "Frontend Development"
  else if includes text (lit "backend") || includes text (lit "back-end")
     || includes text (lit "api") || includes text (lit "server")
  then lit "Backend Development"
  else if includes text (lit "machine learning") || includes text (lit "ml ")
     || includes text (lit "ai ") || includes text (lit "deep learning")
  then lit "Machine Learning & AI"
  else if includes text (lit "data scientist") || includes text (lit "data analyst")
     || includes text (lit "analytics")
  then lit "Data Science & Analytics"
  else if includes text (lit "devops") || includes text (lit "infrastructure")
     || includes text (lit "cloud")
  then lit "DevOps & Infrastructure"
  else if includes text (lit "security") || includes text (lit "cybersecurity")
  then lit "Security Engineering"
  else if includes text (lit "product manager") || includes text (lit "pm ")
  then lit "Product Management"
  else if includes text (lit "design") || includes text (lit "ux")
     || includes text (lit "ui")
  then lit "Design"
  else if includes text (lit "full stack") || includes text (lit "fullstack")
  then lit "Full Stack Development"
  else lit "Software Engineering".

Definition getJobCategory (title : str) (description : option str)
  (config : option Config) : str :=
  let text := classifierText title description in
  match configuredKeywords config with
  | Some entries =>
      match firstCategory entries text with
      | Some category => category
      | None => defaultCategory text
      end
  | None => defaultCategory text
  end.


(** *** Migration of ids *)

Definition migrateOldJobId (oldId : str) : str := slug oldId.

(** *** Formatting *)

Section Clock.

(** [new Date(s).getTime()], [None] for an invalid date, and the time of
    the call. *)
Variable Date_parse : str -> option Z.
Variable now : Z.

(** With an invalid date every comparison fails and the last branch
    prints [NaN]. *)
Definition formatTimeAgo (dateString : option str) : str :=
  if negb (truthy dateString) then lit "Recently"
  else
    match Date_parse (orEmpty dateString) with
    | None => lit "NaN" ++ lit "mo"
    | Some date =>
        let diffInHours := ((now - date) / (1000 * 60 * 60))%Z in
        if (diffInHours <? 24)%Z then decimal diffInHours ++ lit "h"
        else
          let diffInDays := (diffInHours / 24)%Z in
          if (diffInDays =? 1)%Z then lit "1d"
          else if (diffInDays <? 7)%Z then decimal diffInDays ++ lit "d"
          else if (diffInDays <? 30)%Z then decimal (diffInDays / 7) ++ lit "w"
          else decimal (diffInDays / 30) ++ lit "mo"
    end.

End Clock.

(** *** The other id and fingerprint *)

(** The class [[-_\s]]. *)
Definition title_tail (c : ascii) : bool :=
  is_hyphen c || is_char 95 c || is_space c.

Definition minimalTitle (raw : str) : str :=
  let title := trim (toLowerCase raw) in
  let title := drop_trailing title_tail title in
  let title := squeeze is_space " " title in
  trim title.

Definition generateMinimalJobFingerprint (job : Job) : str :=
  let title := minimalTitle (orEmpty (orElse (title job) (job_title job))) in
  let company := normalizeCompanyNameStr (Some (orEmpty (companyWords job))) in
  let location := fingerprintLocation job in
  company ++ lit "::" ++ title ++ lit "::" ++ location.

Section Hashed.

(** [crypto.createHash('sha256').update(s).digest('hex')]. *)
Variable sha256_hex : str -> str.

Definition generateJobIdHash (job : Job) : str :=
  let company := normalizeCompanyNameStr (Some (orEmpty (companyWords job))) in
  let title := trim (toLowerCase (orEmpty (orElse (title job) (job_title job)))) in
  let location := orEmpty (orElse (location job) (job_city job)) in
  let hashInput :=
    trim (toLowerCase (company ++ lit "|" ++ title ++ lit "|" ++ location)) in
  let hash := sha256_hex hashInput in
  firstn 8 hash.

End Hashed.

End Utils.

(** ** lib/jobId.js and lib/deduplication.js *)

Module Dedup.

(** A job as the shared package sees it. *)
Record Job := mkJob {
  company : option str;
  title : option str;
  location : option str;
  experience_level : option str;
  employment_type : option str;
  id : option str;
  fingerprint : option str
}.

(** [job.id = v] and [job.fingerprint = v]. *)
Definition set_id (job : Job) (v : str) : Job :=
  {| company := company job; title := title job; location := location job;
     experience_level := experience_level job;
     employment_type := employment_type job;
     id := Some v; fingerprint := fingerprint job |}.

Definition set_fingerprint (job : Job) (v : str) : Job :=
  {| company := company job; title := title job; location := location job;
     experience_level := experience_level job;
     employment_type := employment_type job;
     id := id job; fingerprint := Some v |}.

Definition companySuffixes : list str :=
  map lit ["inc."; "inc"; "llc."; "llc"; "corp."; "corp"; "corporation.";
           "corporation"; "ltd."; "ltd"; "limited."; "limited"; "gmbh.";
           "gmbh"; "co."; "co"; "company."; "company"]%string.

Definition normalizeCompanyName (company : option str) : str :=
  if negb (truthy company) then []
  else
    squeeze is_space " "
      (strip_suffix true companySuffixes
         (trim (toLowerCase (orEmpty company)))).

Definition normalizeTitle (title : option str) : str :=
  if negb (truthy title) then []
  else squeeze is_space " " (trim (toLowerCase (orEmpty title))).

Definition normalizeLocation (location : option str) : str :=
  if negb (truthy location) then []
  else squeeze is_space " " (trim (toLowerCase (orEmpty location))).

Definition required : str := lit "Job object is required".

Section Hashing.

(** [crypto.createHash('sha256').update(s).digest('hex')]. *)
Variable sha256_hex : str -> str.

(** jobId.js, after the guard: the first eight digits of the hash. *)
Definition hashedId (job : Job) : str :=
  let company := normalizeCompanyName (company job) in
  let title := normalizeTitle (title job) in
  let location :=
    if truthy (location job) then normalizeLocation (location job) else [] in
  let hashInput :=
    trim (toLowerCase (company ++ lit "|" ++ title ++ lit "|" ++ location)) in
  let hash := sha256_hex hashInput in
  firstn 8 hash.

(** The argument is [None] for [null] and [undefined]. *)
Definition generateJobId (job : option Job) : result str :=
  match job with
  | None => Throw required
  | Some job => Ok (hashedId job)
  end.

(** deduplication.js, after the guard. *)
Definition hashedFingerprint (job : Job) : str :=
  let parts :=
    [ orEmpty (company job); orEmpty (title job); orEmpty (location job);
      orEmpty (experience_level job); orEmpty (employment_type job) ] in
  let normalized := join (lit "|") (map (fun p => trim (toLowerCase p)) parts) in
  sha256_hex normalized.

Definition generateFingerprint (job : option Job) : result str :=
  match job with
  | None => Throw required
  | Some job => Ok (hashedFingerprint job)
  end.

(** [job.id || generateJobId(job)] and
    [job.fingerprint || generateFingerprint(job)] on an object. *)
Definition idOrGenerated (job : Job) : result str :=
  if truthy (id job) then Ok (orEmpty (id job)) else generateJobId (Some job).

Definition fingerprintOrGenerated (job : Job) : result str :=
  if truthy (fingerprint job) then Ok (orEmpty (fingerprint job))
  else generateFingerprint (Some job).

(** [enrichJob]: a copy of the job with both keys; [null] for no job. *)
Definition enrichJob (job : option Job) : result (option Job) :=
  match job with
  | None => Ok None
  | Some job =>
      i <- idOrGenerated job ;;
      f <- fingerprintOrGenerated job ;;
      Ok (Some (set_fingerprint (set_id job i) f))
  end.

(** *** filterDuplicates

    The jobs of the array are objects of a store; the loop assigns to
    them.  A reference is the address of an object. *)

Definition ref := nat.
Definition store := ref -> Job.

Definition write (h : store) (r : ref) (job : Job) : store :=
  fun r' => if Nat.eqb r' r then job else h r'.

(** The variables of the loop: the store, the two [Set]s (the most
    recent member first) and [uniqueJobs]. *)
Record Pass := mkPass {
  objects : store;
  seen : list str;
  seenFingerprints : list str;
  uniqueJobs : list ref
}.

(** One turn of [for (const job of jobs)]. *)
Definition visit (st : Pass) (r : ref) : result Pass :=
  let h := objects st in
  i <- idOrGenerated (h r) ;;
  let h := write h r (set_id (h r) i) in
  f <- fingerprintOrGenerated (h r) ;;
  let h := write h r (set_fingerprint (h r) f) in
  if mem i (seen st) || mem f (seenFingerprints st) then
    Ok {| objects := h; seen := seen st;
          seenFingerprints := seenFingerprints st;
          uniqueJobs := uniqueJobs st |}
  else
    Ok {| objects := h; seen := i :: seen st;
          seenFingerprints := f :: seenFingerprints st;
          uniqueJobs := uniqueJobs st ++ [r] |}.

Fixpoint visit_all (st : Pass) (jobs : list ref) : result Pass :=
  match jobs with
  | [] => Ok st
  | r :: rest => st' <- visit st r ;; visit_all st' rest
  end.

(** The store after the call, and the array returned. *)
Definition filterDuplicates (h : store) (jobs : list ref)
  : result (store * list ref) :=
  st <- visit_all {| objects := h; seen := []; seenFingerprints := [];
                     uniqueJobs := [] |} jobs ;;
  Ok (objects st, uniqueJobs st).


(** *** isDuplicate *)

(** The object returned: [{ isDuplicate, match, reason }]. *)
Record Verdict := mkVerdict {
  is_duplicate : bool;
  match_ : option Job;
  reason : str
}.

(** [j.id === v] and [j.fingerprint === v]. *)
Definition has_key (key : Job -> option str) (v : str) (j : Job) : bool :=
  match key j with
  | Some k => eqb k v
  | None => false
  end.

(** [existingJobs] is [None] for a value that is not an array. *)
Definition isDuplicate (job : option Job) (existingJobs : option (list Job))
  : result Verdict :=
  match job, existingJobs with
  | Some _, Some existing =>
      jobId <- generateJobId job ;;
      fp <- generateFingerprint job ;;
      match find (has_key id jobId) existing with
      | Some idMatch =>
          Ok (mkVerdict true (Some idMatch)
                (lit "ID match (same company, title, location)"))
      | None =>
          match find (has_key fingerprint fp) existing with
          | Some fingerprintMatch =>
              Ok (mkVerdict true (Some fingerprintMatch)
                    (lit "Fingerprint match (similar job attributes)"))
          | None => Ok (mkVerdict false None (lit "No match found"))
          end
      end
  | _, _ => Ok (mkVerdict false None (lit "Invalid input"))
  end.

End Hashing.

End Dedup.

(** ** lib/template-renderer.js *)

Module TemplateRenderer.

(** The [vars] argument: the two counts, [None] where the property is
    [undefined]. *)
Record Vars := mkVars {
  totalCompanies : option Z;
  currentJobs : option Z
}.

(** A literal pattern at a position: the length of the match. *)
Definition literal_here (w : str) (_ : bool) (s : str) : option nat :=
  if starts_with w s then Some (length w) else None.

(** The template is a string; a value of another type is returned as it
    is by the guard. *)
Definition renderTemplate (template : str) (vars : Vars) : str :=
  if negb (truthy (Some template)) then template
  else
    let result := template in
    let result :=
      match totalCompanies vars with
      | Some n => replace_g (literal_here (lit "{totalCompanies}")) (decimal n) result
      | None => result
      end in
    let result :=
      match currentJobs vars with
      | Some n => replace_g (literal_here (lit "{currentJobs}")) (decimal n) result
      | None => result
      end in
    result.

(** The part of a configuration the renderer reads; [rest] stands for
    the properties it copies. *)
Record Config (R : Type) := mkConfig {
  descriptionLine1 : option str;
  descriptionLine2 : option str;
  rest : R
}.

Arguments mkConfig {R} descriptionLine1 descriptionLine2 rest.
Arguments descriptionLine1 {R} c.
Arguments descriptionLine2 {R} c.
Arguments rest {R} c.

Definition renderConfigTemplates {R : Type} (config : Config R) (vars : Vars)
  : Config R :=
  let rendered := config in
  let rendered :=
    if truthy (descriptionLine1 rendered) then
      mkConfig (Some (renderTemplate (orEmpty (descriptionLine1 rendered)) vars))
        (descriptionLine2 rendered) (rest rendered)
    else rendered in
  let rendered :=
    if truthy (descriptionLine2 rendered) then
      mkConfig (descriptionLine1 rendered)
        (Some (renderTemplate (orEmpty (descriptionLine2 rendered)) vars))
        (rest rendered)
    else rendered in
  rendered.

Definition variableNames : list str :=
  [lit "totalCompanies"; lit "currentJobs"].

(** [{(w1|w2|...)}] at a position: the group and the length of the match. *)
Fixpoint braced (alts : list str) (s : str) : option (str * nat) :=
  match alts with
  | [] => None
  | w :: alts' =>
      if starts_with (lit "{" ++ w ++ lit "}") s then Some (w, length w + 2)
      else braced alts' s
  end.

(** [regex.test(s)]: a match at some position of the text. *)
Fixpoint test_from (alts : list str) (s : str) : bool :=
  match braced alts s with
  | Some _ => true
  | None =>
      match s with
      | [] => false
      | _ :: s' => test_from alts s'
      end
  end.

Definition hasTemplateVariables (text : option str) : bool :=
  if negb (truthy text) then false
  else test_from variableNames (orEmpty text).

(** The loop [while ((match = regex.exec(str)) !== null)]: [skip] counts
    the characters up to [lastIndex], [matches] is the array built so far. *)
Fixpoint exec_loop (skip : nat) (s : str) (matches : list str) : list str :=
  match s with
  | [] => matches
  | _ :: s' =>
      match skip with
      | S k => exec_loop k s' matches
      | O =>
          match braced variableNames s with
          | Some (name, n) =>
              exec_loop (n - 1) s'
                (if mem name matches then matches else matches ++ [name])
          | None => exec_loop 0 s' matches
          end
      end
  end.

Definition extractTemplateVariables (text : option str) : list str :=
  if negb (truthy text) then []
  else exec_loop 0 (orEmpty text) [].

End TemplateRenderer.

(** ** lib/readme-generator.js *)

Module ReadmeGenerator.

(** *** filterJobsByAge

    The code reads one property of a job, so the job type is left open. *)
Section FilterJobsByAge.

Variable J : Type.
Variable job_posted_at_datetime_utc : J -> option str.

(** [new Date(s).getTime()], [None] for an invalid date; and the time
    value of [oneWeekAgo], the day of the call moved back by seven. *)
Variable Date_parse : str -> option Z.
Variable oneWeekAgo : Z.

(** The test of the first [filter]. *)
Definition isCurrent (job : J) : bool :=
  let dateValue := job_posted_at_datetime_utc job in
  if negb (truthy dateValue) then true
  else
    match Date_parse (orEmpty dateValue) with
    | None => true
    | Some jobDate => (oneWeekAgo <=? jobDate)%Z
    end.

(** The test of the second [filter]. *)
Definition isArchived (job : J) : bool :=
  let dateValue := job_posted_at_datetime_utc job in
  if negb (truthy dateValue) then false
  else
    match Date_parse (orEmpty dateValue) with
    | None => false
    | Some jobDate => (jobDate <? oneWeekAgo)%Z
    end.

(** [{ currentJobs, archivedJobs }]. *)
Definition filterJobsByAge (allJobs : list J) : list J * list J :=
  let currentJobs := filter isCurrent allJobs in
  let archivedJobs := filter isArchived allJobs in
  (currentJobs, archivedJobs).

End FilterJobsByAge.

Arguments isCurrent {J} job_posted_at_datetime_utc Date_parse oneWeekAgo job.
Arguments isArchived {J} job_posted_at_datetime_utc Date_parse oneWeekAgo job.
Arguments filterJobsByAge {J} job_posted_at_datetime_utc Date_parse oneWeekAgo
  allJobs.

End ReadmeGenerator.

(** ** config/categories.js *)

Module Categories.

(** The keys of [categories], the primary job categories. *)
Definition categories : list str :=
  map lit ["Software Engineering"; "Frontend Development"; "Backend Development";
           "Full Stack Development"; "Mobile Development";
           "Machine Learning & AI"; "Data Science & Analytics";
           "DevOps & Infrastructure"; "Security Engineering";
           "Product Management"; "Design"]%string.

Definition defaultCategory : str := lit "Software Engineering".

Definition defaultExperienceLevel : str := lit "Mid-Level".

End Categories.

(** ** Vocabulary of the properties *)

(** [kw] occurs in [text]. *)
Definition Contains (kw text : str) : Prop :=
  exists pre post, text = pre ++ kw ++ post.

(** A property that is absent or the empty string. *)
Definition blank (o : option str) : Prop := orEmpty o = [].

(** Every keyword the category classifier looks for: the built-in ones in
    the order of the code, then those of a configuration. *)
Definition builtinCategoryKeywords : list str :=
  map lit ["ios"; "android"; "mobile"; "frontend"; "front-end"; "react"; "vue";
           "backend"; "back-end"; "api"; "server"; "machine learning"; "ml ";
           "ai "; "deep learning"; "data scientist"; "data analyst";
           "analytics"; "devops"; "infrastructure"; "cloud"; "security";
           "cybersecurity"; "product manager"; "pm "; "design"; "ux"; "ui";
           "full stack"; "fullstack"]%string.

Definition arrayOf (kws : option (list str)) : list str :=
  match kws with
  | Some l => l
  | None => []
  end.

Definition configCategoryKeywords (config : option Utils.Config) : list str :=
  match Utils.configuredKeywords config with
  | Some entries => concat (map (fun e => arrayOf (snd e)) entries)
  | None => []
  end.

Definition configLevelKeywords (config : option Utils.Config) : list str :=
  match Utils.configuredLevels config with
  | Some levels =>
      arrayOf (Utils.Senior levels) ++ arrayOf (Utils.EntryLevel levels)
      ++ arrayOf (Utils.MidLevel levels)
  | None => []
  end.

(** ** Example data *)

(** The configuration of the classifier tests. *)
Definition testCategories : Utils.Categories :=
  {| Utils.keywords :=
       Some [ (lit "Blockchain", Some (map lit ["blockchain"; "web3"; "crypto"]%string));
              (lit "Gaming", Some (map lit ["game"; "unity"; "unreal"]%string)) ];
     Utils.experienceLevels :=
       Some {| Utils.Senior := Some (map lit ["expert"; "veteran"]%string);
               Utils.EntryLevel := Some (map lit ["beginner"; "newbie"]%string);
               Utils.MidLevel := Some [lit "intermediate"] |} |}.

Definition testConfig : Utils.Config :=
  {| Utils.config_locations := None;
     Utils.config_categories := Some testCategories |}.

(** The configuration the package exports, as far as the filters read it. *)
Definition packageConfig : Utils.Config :=
  {| Utils.config_locations := Some Utils.packageLocations;
     Utils.config_categories := None |}.

(** Jobs without any property. *)
Definition emptyJSearchJob : JobProcessor.Job :=
  JobProcessor.mkJob None None None None None None None None None.

Definition emptyJob : Utils.Job :=
  Utils.mkJob None None None None None None None None None None None.

Definition emptyRecord : Dedup.Job :=
  Dedup.mkJob None None None None None None None.

(** The [locations] part of an optional configuration. *)
Definition locationConfig (config : option Utils.Config) : option Utils.LocConfig :=
  match config with
  | Some c => Utils.config_locations c
  | None => None
  end.

(** A string of decimal digits. *)
Definition all_digits (ds : str) : Prop := forallb is_digit ds = true.

(** The keys of a job map, in insertion order. *)
Definition keys {J : Type} (m : JobProcessor.JobMap J) : list str := map fst m.

(** The job written last under the id [k] in a sequence of writes. *)
Section LastWrite.

Variable J : Type.
Variable job_id : J -> option str.

Definition has_id (k : str) (job : J) : bool :=
  truthy (job_id job) && eqb (orEmpty (job_id job)) k.

Definition last_with_id (k : str) (writes : list J) : option J :=
  find (has_id k) (rev writes).

(** What the job map holds after the writes [l]: one entry per id, each
    with the job written last under it. *)
Record Written (l : list J) (m : JobProcessor.JobMap J) : Prop := {
  written_keys : NoDup (keys m);
  written_last : forall k v, In (k, v) m ->
                   job_id v = Some k /\ k <> []
                   /\ last_with_id k l = Some v;
  written_all : forall job, In job l -> truthy (job_id job) = true ->
                  In (orEmpty (job_id job)) (keys m)
}.

End LastWrite.

Arguments has_id {J} job_id k job.
Arguments last_with_id {J} job_id k writes.
Arguments Written {J} job_id l m.

(** Jobs of the merge scenario: a payload with an optional id. *)
Definition tagged (id : string) (payload : nat) : option str * nat :=
  (Some (lit id), payload).

Definition untagged (payload : nat) : option str * nat := (None, payload).

(** ** Vocabulary of the deduplication pass *)

(** A list obtained from another by dropping elements, order kept. *)
Inductive Subseq {A : Type} : list A -> list A -> Prop :=
| Subseq_nil : Subseq [] []
| Subseq_drop : forall x out l, Subseq out l -> Subseq out (x :: l)
| Subseq_keep : forall x out l, Subseq out l -> Subseq (x :: out) (x :: l).

Section Keys.

Variable sha256_hex : str -> str.

(** The id and the fingerprint under which the pass knows a job: its own
    when it has one, else the generated one. *)
Definition idOf (job : Dedup.Job) : str :=
  if truthy (Dedup.id job) then orEmpty (Dedup.id job)
  else Dedup.hashedId sha256_hex job.

Definition fingerprintOf (job : Dedup.Job) : str :=
  if truthy (Dedup.fingerprint job) then orEmpty (Dedup.fingerprint job)
  else Dedup.hashedFingerprint sha256_hex job.

(** The job once both keys are assigned. *)
Definition enriched (job : Dedup.Job) : Dedup.Job :=
  Dedup.set_fingerprint (Dedup.set_id job (idOf job)) (fingerprintOf job).

(** [r] has the id or the fingerprint of a job of [kept], the keys being
    read in the store [h]. *)
Definition seenAmong (h : Dedup.store) (kept : list Dedup.ref) (r : Dedup.ref)
  : bool :=
  existsb (fun k => eqb (idOf (h r)) (idOf (h k))) kept
  || existsb (fun k => eqb (fingerprintOf (h r)) (fingerprintOf (h k))) kept.

(** The jobs a pass keeps, given the keys it has recorded so far. *)
Fixpoint keep_first (h : Dedup.store) (ids fps : list str)
  (jobs : list Dedup.ref) : list Dedup.ref :=
  match jobs with
  | [] => []
  | r :: rest =>
      if mem (idOf (h r)) ids || mem (fingerprintOf (h r)) fps
      then keep_first h ids fps rest
      else r :: keep_first h (idOf (h r) :: ids) (fingerprintOf (h r) :: fps) rest
  end.

(** The store once the jobs [done] have been visited, from [h0]. *)
Definition StoreAfter (h0 : Dedup.store) (done : list Dedup.ref)
  (h : Dedup.store) : Prop :=
  forall x, h x = if existsb (Nat.eqb x) done then enriched (h0 x) else h0 x.

End Keys.

(** Each missing property of a record as the empty string. *)
Definition filled (job : Dedup.Job) : Dedup.Job :=
  {| Dedup.company := Some (orEmpty (Dedup.company job));
     Dedup.title := Some (orEmpty (Dedup.title job));
     Dedup.location := Some (orEmpty (Dedup.location job));
     Dedup.experience_level := Some (orEmpty (Dedup.experience_level job));
     Dedup.employment_type := Some (orEmpty (Dedup.employment_type job));
     Dedup.id := Dedup.id job;
     Dedup.fingerprint := Dedup.fingerprint job |}.

(** A store of three jobs that come with their keys: the first two share
    the fingerprint, the last two share the id. *)
Definition keyed (id fp : string) : Dedup.Job :=
  Dedup.mkJob None None None None None (Some (lit id)) (Some (lit fp)).

Definition threeJobs : Dedup.store :=
  fun r =>
    match r with
    | 0 => keyed "1" "X"
    | 1 => keyed "2" "X"
    | 2 => keyed "2" "Y"
    | _ => emptyRecord
    end.

(** ** Vocabulary of the stores *)

Section StorePaths.

Variable num : Type.
Variable cwd : str.
Variable path_join : list str -> str.
Variable readFileSync : str -> result str.
Variable JSON_parse : str -> result (JobProcessor.json num).

Definition seenPath : str :=
  path_join [JobProcessor.dataDir cwd path_join; lit "seen_jobs.json"].

Definition currentPath : str :=
  path_join [JobProcessor.dataDir cwd path_join; lit "current_jobs.json"].

(** Reading the file at [path] and parsing its text. *)
Definition parsed (path : str) : result (JobProcessor.json num) :=
  text <- readFileSync path ;; JSON_parse text.

End StorePaths.

Arguments parsed {num} readFileSync JSON_parse path.


(** A legacy seen-ids file, already parsed: an object keyed by id. *)
Definition legacySeen : JobProcessor.json unit :=
  JobProcessor.JObj
    [ (lit "acme-com-jobs-42", JobProcessor.JBool true);
      (lit "acme-com-jobs-43", JobProcessor.JBool true) ].

(** ** Vocabulary of the fingerprint *)

(** A text without hyphen. *)
Definition hyphen_free (s : str) : Prop :=
  forallb (fun c => negb (is_hyphen c)) s = true.

(** A text of white space only. *)
Definition blank_text (s : str) : Prop := forallb is_space s = true.

(** Two jobs that agree on every property the fingerprint reads for the
    company and for the location. *)
Definition same_company_and_location (j1 j2 : Utils.Job) : Prop :=
  Utils.company_name j1 = Utils.company_name j2
  /\ Utils.employer_name j1 = Utils.employer_name j2
  /\ Utils.company j1 = Utils.company j2
  /\ Utils.locations j1 = Utils.locations j2
  /\ Utils.job_city j1 = Utils.job_city j2
  /\ Utils.location j1 = Utils.location j2.

(** The jobs of the fingerprint tests. *)
Definition googleJob (title : string) : Utils.Job :=
  Utils.mkJob (Some (lit title)) None (Some (lit "Google")) None None None None
    (Some (lit "SF")) None None None.

Definition googleJSearchJob (title : string) : JobProcessor.Job :=
  JobProcessor.mkJob None (Some (lit "Google")) (Some (lit title))
    (Some (lit "SF")) None None None None None.

(** A pattern text without white space. *)
Definition space_free (w : str) : Prop :=
  forallb (fun p => negb (is_space p)) w = true.

(** The title of the fingerprint without the step that removes a trailing
    " - suffix" clause. *)
Definition titleCore (s : str) : str :=
  trim (squeeze is_space " "
          (replace_words false Utils.levelWords []
             (replace_words true Utils.seniorityWords [] s))).

(** ** Vocabulary of the URL identity *)

(** Two paths that are equal or differ by one trailing slash. *)
Definition same_path_modulo_slash (p q : str) : Prop :=
  p = q \/ p = q ++ lit "/" \/ q = p ++ lit "/".

(** A reader of plain [https://host/path?query] addresses, which stands
    for the URL constructor in the examples. *)
Definition plainURL (s : str) : option URL :=
  if starts_with (lit "https://") s then
    let rest := skipn 8 s in
    let host := before (fun c => is_slash c || is_char 63 c) rest in
    let tail := skipn (length host) rest in
    let path := before (is_char 63) tail in
    let query := skipn (length path) tail in
    match host with
    | [] => None
    | _ :: _ =>
        Some (mkURL host (match path with [] => lit "/" | _ :: _ => path end) query)
    end
  else None.

Definition linkedJSearchJob (link : string) : JobProcessor.Job :=
  JobProcessor.mkJob (Some (lit link)) (Some (lit "Acme Inc.")) None None None
    None None None None.

Definition linkedJob (link : string) : Utils.Job :=
  Utils.mkJob None None None None None None None None (Some (lit link)) None None.

(** The location configuration of the filter tests. *)
Definition testLocations : Utils.LocConfig :=
  {| Utils.isNonUS := fun loc => includes loc (lit "london") || includes loc (lit "canada");
     Utils.isUS := fun loc => includes loc (lit "usa") || includes loc (lit "california") |}.

Definition testLocationConfig : Utils.Config :=
  {| Utils.config_locations := Some testLocations;
     Utils.config_categories := None |}.

(** A job located by city and state. *)
Definition locatedJob (city state : string) : Utils.Job :=
  Utils.mkJob None None None None None None (Some (lit city)) None None None
    (Some (lit state)).

(** A job with a title, a company under [company_name] and a city. *)
Definition titledJob (company title city : string) : Utils.Job :=
  Utils.mkJob (Some (lit title)) None (Some (lit company)) None None None
    (Some (lit city)) None None None None.

(** ** Vocabulary of the template renderer *)

(** Two texts without a common character. *)
Definition apart (repl p : str) : Prop := forall c, In c repl -> ~ In c p.

(** The placeholder of a variable. *)
Definition placeholder (name : str) : str := lit "{" ++ name ++ lit "}".

(** A template in which every placeholder can be filled. *)
Definition bothCounts (n m : Z) : TemplateRenderer.Vars :=
  TemplateRenderer.mkVars (Some n) (Some m).
(** ** Vocabulary of the sanitised ids *)

(** The characters of a generated id: lower-case letters, digits, the
    underscore and the hyphen. *)
Definition id_char (c : ascii) : bool :=
  is_lower c || is_digit c || is_char 95 c || is_hyphen c.

(** What the sanitising chain returns: word characters and hyphens, no
    two hyphens in a row, no hyphen at either end. *)
Record Sanitised (s : str) : Prop := {
  sanitised_chars : Forall (fun c => is_word c = true \/ is_hyphen c = true) s;
  sanitised_single : ~ Contains (lit "--") s;
  sanitised_first : forall s', s <> lit "-" ++ s';
  sanitised_last : forall s', s <> s' ++ lit "-"
}.

(** Hyphens that stand alone; [prev] tells that a hyphen comes before. *)
Fixpoint single_hyphens (prev : bool) (s : str) : bool :=
  match s with
  | [] => true
  | c :: s' =>
      if is_hyphen c then negb prev && single_hyphens true s'
      else is_word c && single_hyphens false s'
  end.

(** Runs of word characters with one hyphen between two runs. *)
Fixpoint word_runs (s : str) : bool :=
  match s with
  | [] => true
  | c :: s' =>
      if is_hyphen c then
        match s' with
        | d :: _ => is_word d && word_runs s'
        | [] => false
        end
      else is_word c && word_runs s'
  end.

Definition sanitised (s : str) : bool :=
  match s with
  | [] => true
  | c :: _ => is_word c && word_runs s
  end.

(** ** Example dates *)

(** A reader of the one date of the examples, midnight of the first of
    January 2026 (UTC), which stands for [Date] there; and a time of call
    twenty days and five hours later. *)
Definition newYear : str := lit "2026-01-01T00:00:00.000Z".

Definition readNewYear (s : str) : option Z :=
  if eqb s newYear then Some 1767225600000%Z else None.

Definition twentyDaysLater : Z := 1768971600000%Z.

(** A job of the feed that has only a posting date. *)
Definition postedAt (date : str) : JobProcessor.Posting :=
  JobProcessor.mkPosting emptyJSearchJob (Some date).

(** ** Example jobs of the duplicate check *)

(** A job of the feed, without keys. *)
Definition acmeEngineer : Dedup.Job :=
  Dedup.mkJob (Some (lit "Acme")) (Some (lit "Engineer")) (Some (lit "Austin"))
    None None None None.



(** ** Vocabulary of the merge order *)

Section FirstSeen.

Variable J : Type.
Variable job_id : J -> option str.

(** The ids the merge writes, in the order of the writes. *)
Definition written_ids (writes : list J) : list str :=
  flat_map (fun job => if truthy (job_id job) then [orEmpty (job_id job)] else [])
    writes.

(** A list of ids without the repetitions: each id where it comes
    first.  [seen] holds the ids met before. *)
Fixpoint first_seen (seen : list str) (ids : list str) : list str :=
  match ids with
  | [] => []
  | k :: rest =>
      if mem k seen then first_seen seen rest
      else k :: first_seen (k :: seen) rest
  end.

(** The job a map holds under an id. *)
Fixpoint assoc (k : str) (m : JobProcessor.JobMap J) : option J :=
  match m with
  | [] => None
  | (k', v) :: m' => if eqb k' k then Some v else assoc k m'
  end.

End FirstSeen.

Arguments written_ids {J} job_id writes.
Arguments assoc {J} k m.

(** ** Vocabulary of the location filter *)

(** The countries and the cities that config/locations.js lists as not
    in the United States. *)
Definition nonUSNames : list str :=
  concat Locations.nonUSCountries ++ concat Locations.nonUSCities.

(** A name that the cleaning of a location leaves as it is: lower-case
    words with one space between two words.  [prev] tells that a space,
    or nothing, comes before. *)
Fixpoint plain_words (prev : bool) (name : str) : bool :=
  match name with
  | [] => negb prev
  | c :: rest =>
      if is_comma c || is_space c
      then negb prev && Ascii.eqb c " " && plain_words true rest
      else Ascii.eqb (lower_char c) c && plain_words false rest
  end.

(** The job of the examples that is located in Paris, Texas. *)
Definition parisTexas : Utils.Job := locatedJob "Paris" "Texas".

(** A job of the feed located by country, state and city. *)
Definition placedJSearchJob (country state city : string) : JobProcessor.Job :=
  JobProcessor.mkJob None None None (Some (lit city)) (Some (lit state))
    (Some (lit country)) None None None.

(** ** Vocabulary of the normalised keys *)

(** Two properties with the same text, letter case and white space at the
    ends apart; an absent property counts as the empty text. *)
Definition same_text (a b : option str) : Prop :=
  trim (toLowerCase (orEmpty a)) = trim (toLowerCase (orEmpty b)).

(** The words of seniority that the fingerprint removes as a whole (the
    abbreviations with a period are not among them). *)
Definition wholeSeniorityWords : list str :=
  map lit ["senior"; "sr"; "junior"; "jr"; "staff"; "principal"; "lead";
           "associate"]%string.

(** ** Vocabulary of the split by age *)

(** [l] is [l1] and [l2] shuffled together, each of them in its order. *)
Inductive Interleaved {A : Type} : list A -> list A -> list A -> Prop :=
| Interleaved_nil : Interleaved [] [] []
| Interleaved_left : forall x l1 l2 l,
    Interleaved l1 l2 l -> Interleaved (x :: l1) l2 (x :: l)
| Interleaved_right : forall x l1 l2 l,
    Interleaved l1 l2 l -> Interleaved l1 (x :: l2) (x :: l).

(** ** Vocabulary of the pipeline *)

(** A clock that does not run backwards. *)
Definition monotone (clock : nat -> Z) : Prop :=
  forall n m, n <= m -> (clock n <= clock m)%Z.

(** A clock of the examples: a millisecond goes by between two readings. *)
Definition tickingFrom (start : Z) (n : nat) : Z := (start + Z.of_nat n)%Z.

(** A store element that is a job object: every property that the
    functions read is absent, [null] or a string.  [as_posting] reads such
    an element as a record, and [view] is the record of a job of the
    pipeline. *)
Definition text_field {num : Type} (name : string)
    (props : list (str * JobProcessor.json num)) : option (option str) :=
  match JobProcessor.Dyn.lookup (lit name) props with
  | None | Some JobProcessor.JNull => Some None
  | Some (JobProcessor.JStr s) => Some (Some s)
  | Some _ => None
  end.

Definition and_then {A B : Type} (o : option A) (k : A -> option B) : option B :=
  match o with
  | Some a => k a
  | None => None
  end.

Definition as_posting {num : Type} (v : JobProcessor.json num)
  : option JobProcessor.Posting :=
  match v with
  | JobProcessor.JObj props =>
      and_then (text_field "job_apply_link" props) (fun link =>
      and_then (text_field "employer_name" props) (fun employer =>
      and_then (text_field "job_title" props) (fun title =>
      and_then (text_field "job_city" props) (fun city =>
      and_then (text_field "job_state" props) (fun state =>
      and_then (text_field "job_country" props) (fun country =>
      and_then (text_field "job_description" props) (fun description =>
      and_then (text_field "job_source" props) (fun source =>
      and_then (text_field "id" props) (fun i =>
      and_then (text_field "job_posted_at_datetime_utc" props) (fun date =>
      Some (JobProcessor.mkPosting
              (JobProcessor.mkJob link employer title city state country
                 description source i)
              date)))))))))))
  | _ => None
  end.

Definition view {num : Type} (job : JobProcessor.Entry num)
  : option JobProcessor.Posting :=
  match job with
  | JobProcessor.Fresh job => Some job
  | JobProcessor.Stored v => as_posting v
  end.

(** A list of jobs of the pipeline seen as records. *)
Definition viewed {num : Type} (jobs : list (JobProcessor.Entry num))
    (records : list JobProcessor.Posting) : Prop :=
  map view jobs = map Some records.

(** The age filter on records: the jobs kept from the [tick]-th reading
    of the clock on, and the number of the next reading. *)
Fixpoint postingsByAge (Date_parse : str -> option Z) (clock : nat -> Z)
    (wanted : bool) (tick : nat) (jobs : list JobProcessor.Posting)
  : list JobProcessor.Posting * nat :=
  match jobs with
  | [] => ([], tick)
  | job :: rest =>
      let older := JobProcessor.isJobOlderThan14Days Date_parse (clock tick) job in
      let tick' :=
        if truthy (JobProcessor.job_posted_at_datetime_utc job) then S tick
        else tick in
      let (kept, t) := postingsByAge Date_parse clock wanted tick' rest in
      (if Bool.eqb older wanted then job :: kept else kept, t)
  end.

(** A job object of the store of the examples, with its title, its id
    and its date, in Texas. *)
Definition storedJob (title i : string) (date : str) : JobProcessor.json unit :=
  JobProcessor.JObj
    [ (lit "id", JobProcessor.JStr (lit i));
      (lit "job_title", JobProcessor.JStr (lit title));
      (lit "job_city", JobProcessor.JNull);
      (lit "job_state", JobProcessor.JStr (lit "TX"));
      (lit "job_posted_at_datetime_utc", JobProcessor.JStr date) ].

(** Jobs of the examples for the pipeline: a posting in Austin, Texas,
    with a title, a link and a date. *)
Definition austinPosting (title link : string) (date : option str)
  : JobProcessor.Posting :=
  JobProcessor.mkPosting
    (JobProcessor.mkJob (Some (lit link)) (Some (lit "Acme")) (Some (lit title))
       (Some (lit "Austin")) (Some (lit "TX")) (Some (lit "US")) None None None)
    date.

(** ** Vocabulary of the saved stores *)

(** A file system of the examples: the text at each path, if any. *)
Definition Disk := str -> option str.

Definition emptyDisk : Disk := fun _ => None.

Definition disk_exists (d : Disk) (p : str) : bool :=
  match d p with Some _ => true | None => false end.

Definition disk_read (d : Disk) (p : str) : result str :=
  match d p with Some text => Ok text | None => Throw (lit "ENOENT") end.

Definition disk_write (d : Disk) (p text : str) : result Disk :=
  Ok (fun x => if eqb x p then Some text else d x).

Definition disk_mkdir (d : Disk) (p : str) : result Disk := disk_write d p [].

Definition disk_rename (d : Disk) (p q : str) : result Disk :=
  match d p with
  | Some text =>
      Ok (fun x => if eqb x q then Some text
                   else if eqb x p then None else d x)
  | None => Throw (lit "ENOENT")
  end.

(** What the stores need of the file system: a text written to a path
    that is then renamed is the text of the file of the new name. *)
Definition renamed_file_reads {FS : Type}
    (existsSync : FS -> str -> bool) (readFileSync : FS -> str -> result str)
    (writeFileSync : FS -> str -> str -> result FS)
    (renameSync : FS -> str -> str -> result FS) : Prop :=
  forall fs fs1 fs2 p q text,
    writeFileSync fs p text = Ok fs1 ->
    renameSync fs1 p q = Ok fs2 ->
    existsSync fs2 q = true /\ readFileSync fs2 q = Ok text.

(** The ids of the examples of the stores. *)
Definition twoIds : list str :=
  [lit "acme-com-jobs-42"; lit "acme-com-jobs-43"].

(** ** Vocabulary of the other id and fingerprint *)

(** The job with another [title]. *)
Definition withTitle (job : Utils.Job) (t : str) : Utils.Job :=
  Utils.mkJob (Some t) (Utils.job_title job) (Utils.company_name job)
    (Utils.employer_name job) (Utils.company job) (Utils.locations job)
    (Utils.job_city job) (Utils.location job) (Utils.url job)
    (Utils.job_apply_link job) (Utils.job_state job).

(** The title and the location that the hashed id reads. *)
Definition titleOf (job : Utils.Job) : option str :=
  orElse (Utils.title job) (Utils.job_title job).

Definition hashLocationOf (job : Utils.Job) : option str :=
  orElse (Utils.location job) (Utils.job_city job).

(* ================================================================== *)
(** * Part II: properties *)
(* ================================================================== *)

(** Case analysis on the eight bits of a character. *)
Ltac each_char c :=
  destruct c as [[] [] [] [] [] [] [] []].

(** ** Strings *)

Lemma eqb_refl (a : str) : eqb a a = true.
Proof.
  induction a as [|x a IH]; simpl; [reflexivity|].
  now rewrite Ascii.eqb_refl, IH.
Qed.

Lemma eqb_eq (a b : str) : eqb a b = true <-> a = b.
Proof.
  split.
  - revert b. induction a as [|x a IH]; intros [|y b] H; simpl in H;
      try discriminate; [reflexivity|].
    apply andb_true_iff in H. destruct H as [Hxy Hab].
    apply Ascii.eqb_eq in Hxy. apply IH in Hab. now subst.
  - intros ->. apply eqb_refl.
Qed.

Lemma eqb_neq (a b : str) : eqb a b = false <-> a <> b.
Proof.
  split.
  - intros H E. apply eqb_eq in E. congruence.
  - intros H. destruct (eqb a b) eqn:E; [|reflexivity].
    apply eqb_eq in E. contradiction.
Qed.

Lemma starts_with_spec (p s : str) :
  starts_with p s = true <-> exists post, s = p ++ post.
Proof.
  revert s. induction p as [|x p IH]; intros s; simpl.
  - split; [intros _; now exists s | reflexivity].
  - destruct s as [|y s].
    + split; [discriminate | intros [post H]; discriminate].
    + rewrite andb_true_iff, Ascii.eqb_eq, IH. split.
      * intros [-> [post ->]]. now exists post.
      * intros [post H]. injection H as -> ->. split; [reflexivity|now exists post].
Qed.

(** [includes] decides occurrence. *)
Lemma includes_spec (s kw : str) : includes s kw = true <-> Contains kw s.
Proof.
  unfold Contains. induction s as [|c s IH].
  - simpl. rewrite orb_false_r, starts_with_spec. split.
    + intros [post H]. exists [], post. exact H.
    + intros [pre [post H]]. symmetry in H.
      apply app_eq_nil in H. destruct H as [-> H].
      apply app_eq_nil in H. destruct H as [-> ->]. now exists [].
  - cbn [includes]. rewrite orb_true_iff, starts_with_spec, IH. split.
    + intros [[post H] | [pre [post H]]].
      * exists [], post. exact H.
      * exists (c :: pre), post. simpl. now rewrite H.
    + intros [[|c' pre] [post H]].
      * left. now exists post.
      * right. injection H as -> H. now exists pre, post.
Qed.

Lemma includes_any_spec (s : str) (kws : list str) :
  includes_any s kws = true <-> exists kw, In kw kws /\ Contains kw s.
Proof.
  unfold includes_any. rewrite existsb_exists. split.
  - intros [kw [Hin H]]. exists kw. split; [exact Hin|]. now apply includes_spec.
  - intros [kw [Hin H]]. exists kw. split; [exact Hin|]. now apply includes_spec.
Qed.

Lemma includes_any_none (s : str) (kws : list str) :
  includes_any s kws = false <-> forall kw, In kw kws -> ~ Contains kw s.
Proof.
  split.
  - intros H kw Hin Hc.
    assert (includes_any s kws = true) by (apply includes_any_spec; eauto).
    congruence.
  - intros H. destruct (includes_any s kws) eqn:E; [|reflexivity].
    apply includes_any_spec in E. destruct E as [kw [Hin Hc]].
    exfalso. exact (H kw Hin Hc).
Qed.

Lemma includes_any_app (s : str) (l1 l2 : list str) :
  includes_any s (l1 ++ l2) = includes_any s l1 || includes_any s l2.
Proof. unfold includes_any. apply existsb_app. Qed.

(** ** Seniority filter (lib/job-processor.js) *)

(** C10.  A job whose [job_source] is ["jsearch"] is never senior, whatever
    its title and description say.  For any other job, [isSeniorJob] is
    true exactly when the lower-cased text "title description" contains a
    senior keyword and contains no entry-level keyword. *)
Theorem isSeniorJob_rule (job : JobProcessor.Job) :
  (JobProcessor.job_source job = Some (lit "jsearch") ->
   JobProcessor.isSeniorJob job = false)
  /\
  (JobProcessor.job_source job <> Some (lit "jsearch") ->
   (JobProcessor.isSeniorJob job = true <->
    (exists kw, In kw JobProcessor.seniorKeywords
                /\ Contains kw (JobProcessor.seniorText job))
    /\ ~ (exists kw, In kw JobProcessor.entryLevelKeywords
                     /\ Contains kw (JobProcessor.seniorText job)))).
Proof.
  unfold JobProcessor.isSeniorJob. split.
  - intros ->. now rewrite eqb_refl.
  - intros Hsrc.
    assert (Hq : match JobProcessor.job_source job with
                 | Some s => eqb s (lit "jsearch")
                 | None => false
                 end = false).
    { destruct (JobProcessor.job_source job) as [s|]; [|reflexivity].
      apply eqb_neq. congruence. }
    rewrite Hq. cbv zeta.
    rewrite andb_true_iff, negb_true_iff, includes_any_spec.
    split.
    + intros [Hs He]. split; [exact Hs|].
      intros Hex. apply includes_any_spec in Hex. congruence.
    + intros [Hs He]. split; [exact Hs|].
      destruct (includes_any _ JobProcessor.entryLevelKeywords) eqn:E;
        [|reflexivity].
      apply includes_any_spec in E. contradiction.
Qed.

(** The rule at three jobs: a JSearch job with a senior title, the same
    title from another source, and a senior title that also says "new
    grad". *)
Lemma isSeniorJob_rule_witness :
  JobProcessor.isSeniorJob
    (JobProcessor.mkJob None None (Some (lit "Senior Engineer")) None None None
       None (Some (lit "jsearch")) None) = false
  /\ JobProcessor.isSeniorJob
       (JobProcessor.mkJob None None (Some (lit "Senior Engineer")) None None
          None None (Some (lit "ats")) None) = true
  /\ JobProcessor.isSeniorJob
       (JobProcessor.mkJob None None (Some (lit "Senior Engineer")) None None
          None (Some (lit "new grad welcome")) None None) = false.
Proof.
  split; [|split].
  - apply (proj1 (isSeniorJob_rule _)). reflexivity.
  - apply (proj2 (isSeniorJob_rule _)); [discriminate|].
    split.
    + exists (lit "senior"). split; [now left|].
      exists [], (lit " engineer "). reflexivity.
    + intros [kw [Hin Hc]]. apply includes_spec in Hc.
      simpl in Hin.
      repeat (destruct Hin as [<- | Hin]; [vm_compute in Hc; discriminate|]).
      exact Hin.
  - destruct (JobProcessor.isSeniorJob _) eqn:E; [|reflexivity].
    apply (proj2 (isSeniorJob_rule _)) in E; [|discriminate].
    destruct E as [_ E]. exfalso. apply E.
    exists (lit "new grad"). split; [simpl; tauto|].
    exists (lit "senior engineer "), (lit " welcome"). reflexivity.
Defined.

(** ** Classification (lib/utils.js) *)

Lemma defaultCategory_unmatched (text : str) :
  includes_any text builtinCategoryKeywords = false ->
  Utils.defaultCategory text = lit "Software Engineering".
Proof.
  unfold includes_any, builtinCategoryKeywords. cbn [map existsb].
  intros H. repeat (apply orb_false_iff in H; destruct H as [? H]).
  unfold Utils.defaultCategory.
  repeat match goal with
         | E : includes text ?k = false |- _ => rewrite E; clear E
         end.
  reflexivity.
Qed.

Lemma defaultLevel_unmatched (text : str) :
  includes_any text Utils.seniorDefaults = false ->
  Utils.defaultLevel text = lit "Entry-Level".
Proof.
  unfold includes_any, Utils.seniorDefaults. cbn [map existsb].
  intros H. repeat (apply orb_false_iff in H; destruct H as [? H]).
  unfold Utils.defaultLevel.
  repeat match goal with
         | E : includes text ?k = false |- _ => rewrite E; clear E
         end.
  cbn [orb]. now destruct (_ || _).
Qed.

Lemma level_matches_none (kws : option (list str)) (text : str) :
  (forall kw, In kw (arrayOf kws) -> ~ Contains kw text) ->
  Utils.level_matches kws text = false.
Proof.
  destruct kws as [l|]; [|reflexivity]. simpl.
  intros H. now apply includes_any_none.
Qed.

Lemma firstCategory_none (entries : list (str * option (list str))) (text : str) :
  (forall kw, In kw (concat (map (fun e => arrayOf (snd e)) entries)) ->
              ~ Contains kw text) ->
  Utils.firstCategory entries text = None.
Proof.
  induction entries as [|[category kws] rest IH]; intros H; [reflexivity|].
  simpl in *. rewrite level_matches_none.
  - apply IH. intros kw Hin. apply H. apply in_or_app. now right.
  - intros kw Hin. apply H. apply in_or_app. now left.
Qed.

(** C8.  When no keyword of the category table (built-in or configured)
    occurs in the text, the category is "Software Engineering"; when no
    keyword of the experience-level table (built-in or configured) occurs
    in it, the level is "Entry-Level". *)
Theorem classifier_defaults (title : str) (description : option str)
  (config : option Utils.Config) :
  let text := Utils.classifierText title description in
  (forall kw, In kw (builtinCategoryKeywords ++ configCategoryKeywords config) ->
              ~ Contains kw text) ->
  (forall kw, In kw (Utils.seniorDefaults ++ Utils.entryDefaults
                     ++ configLevelKeywords config) ->
              ~ Contains kw text) ->
  Utils.getJobCategory title description config = lit "Software Engineering"
  /\ Utils.getExperienceLevel title description config = lit "Entry-Level".
Proof.
  intros text Hcat Hlev. split.
  - unfold Utils.getJobCategory. fold text.
    assert (Hd : Utils.defaultCategory text = lit "Software Engineering").
    { apply defaultCategory_unmatched, includes_any_none.
      intros kw Hin. apply Hcat, in_or_app. now left. }
    unfold configCategoryKeywords in Hcat.
    destruct (Utils.configuredKeywords config) as [entries|]; [|exact Hd].
    rewrite firstCategory_none; [exact Hd|].
    intros kw Hin. apply Hcat, in_or_app. now right.
  - unfold Utils.getExperienceLevel. fold text.
    assert (Hd : Utils.defaultLevel text = lit "Entry-Level").
    { apply defaultLevel_unmatched, includes_any_none.
      intros kw Hin. apply Hlev, in_or_app. now left. }
    unfold configLevelKeywords in Hlev.
    destruct (Utils.configuredLevels config) as [levels|]; [|exact Hd].
    assert (Hc : forall kw,
               In kw (arrayOf (Utils.Senior levels)
                      ++ arrayOf (Utils.EntryLevel levels)
                      ++ arrayOf (Utils.MidLevel levels)) ->
               ~ Contains kw text).
    { intros kw Hin. apply Hlev. apply in_or_app. right.
      apply in_or_app. now right. }
    rewrite !level_matches_none; [exact Hd| | |];
      intros kw Hin; apply Hc; repeat (apply in_or_app; auto).
    + right. apply in_or_app. now right.
    + right. apply in_or_app. now left.
Qed.

Lemma not_contained (text : str) (kws : list str) :
  forallb (fun kw => negb (includes text kw)) kws = true ->
  forall kw, In kw kws -> ~ Contains kw text.
Proof.
  intros H kw Hin Hc. rewrite forallb_forall in H.
  specialize (H kw Hin). apply includes_spec in Hc.
  rewrite Hc in H. discriminate.
Qed.

(** The defaults at the title "Engineer", under the configuration of the
    classifier tests. *)
Lemma classifier_defaults_witness :
  Utils.getJobCategory (lit "Engineer") None (Some testConfig)
    = lit "Software Engineering"
  /\ Utils.getExperienceLevel (lit "Engineer") None (Some testConfig)
    = lit "Entry-Level".
Proof.
  apply (classifier_defaults (lit "Engineer") None (Some testConfig));
    apply not_contained; vm_compute; reflexivity.
Defined.

(** ** Location filter *)

(** For a job whose state and city are empty or missing, [isUSOnlyJob] of
    lib/utils.js includes the job when it is called without a location
    configuration; with one, the configuration decides on the empty
    location.  (The function does not read the country.) *)
Lemma isUSOnlyJob_blank (job : Utils.Job) (config : option Utils.Config) :
  blank (Utils.job_state job) ->
  blank (Utils.job_city job) ->
  Utils.isUSOnlyJob job config =
    match locationConfig config with
    | None => true
    | Some lc => negb (Utils.isNonUS lc []) && Utils.isUS lc []
    end.
Proof.
  unfold blank, Utils.isUSOnlyJob, locationConfig. intros -> ->.
  cbn [toLowerCase map trim trimStart trimEnd squeeze squeeze_from].
  destruct (match config with Some c => _ | None => None end) as [lc|];
    [|reflexivity].
  now destruct (Utils.isNonUS lc []), (Utils.isUS lc []).
Qed.

(** The filter of lib/job-processor.js has no default-to-include rule: a
    job without country, state and city is rejected. *)
Lemma jsearch_isUSOnlyJob_blank (job : JobProcessor.Job) :
  blank (JobProcessor.job_country job) ->
  blank (JobProcessor.job_state job) ->
  blank (JobProcessor.job_city job) ->
  JobProcessor.isUSOnlyJob job = false.
Proof.
  unfold blank, JobProcessor.isUSOnlyJob. now intros -> -> ->.
Qed.

(** C1.  The default-to-include policy does not hold for the job without
    a location.  [isUSOnlyJob] of lib/job-processor.js rejects every job
    whose country, state and city are empty or missing.  [isUSOnlyJob] of
    lib/utils.js rejects every job whose state and city are empty or
    missing when it is called with the location configuration of the
    package, although it includes the same job when it is called without
    a configuration. *)
Theorem isUSOnlyJob_blank_rejected :
  (forall job : JobProcessor.Job,
     blank (JobProcessor.job_country job) ->
     blank (JobProcessor.job_state job) ->
     blank (JobProcessor.job_city job) ->
     JobProcessor.isUSOnlyJob job = false)
  /\ (forall job : Utils.Job,
        blank (Utils.job_state job) ->
        blank (Utils.job_city job) ->
        Utils.isUSOnlyJob job (Some packageConfig) = false
        /\ Utils.isUSOnlyJob job None = true).
Proof.
  split.
  - exact jsearch_isUSOnlyJob_blank.
  - intros job Hs Hc. split.
    + now rewrite (isUSOnlyJob_blank job (Some packageConfig) Hs Hc).
    + now rewrite (isUSOnlyJob_blank job None Hs Hc).
Qed.

(** The job without properties, at both filters. *)
Lemma isUSOnlyJob_blank_rejected_witness :
  JobProcessor.isUSOnlyJob emptyJSearchJob = false
  /\ Utils.isUSOnlyJob emptyJob (Some packageConfig) = false
  /\ Utils.isUSOnlyJob emptyJob None = true.
Proof.
  destruct isUSOnlyJob_blank_rejected as [H1 H2].
  split; [apply H1; reflexivity|].
  apply H2; reflexivity.
Defined.

(** ** Age filter *)

Lemma span_digits_then (ds rest : str) :
  all_digits ds ->
  match rest with c :: _ => is_digit c = false | [] => True end ->
  span is_digit (ds ++ rest) = (ds, rest).
Proof.
  unfold all_digits. induction ds as [|d ds IH]; simpl; intros Hd Hr.
  - destruct rest as [|c rest]; [reflexivity|]. simpl. now rewrite Hr.
  - apply andb_true_iff in Hd. destruct Hd as [Hd Hds].
    rewrite Hd, IH; auto.
Qed.

Lemma span_app_long (s : str) (a b : ascii) :
  is_digit a = false ->
  match snd (span is_digit (s ++ [a; b])) with
  | _ :: _ :: _ => True
  | _ => False
  end.
Proof.
  intros Ha. induction s as [|c s IH]; simpl.
  - rewrite Ha. exact I.
  - destruct (is_digit c); simpl.
    + destruct (span is_digit (s ++ [a; b])) as [x y]. exact IH.
    + destruct s; exact I.
Qed.

(** The pattern admits one unit character only: no text ending in "mo"
    matches it. *)
Lemma month_unit_never_matches (s : str) :
  Utils.match_relative (s ++ lit "mo") = None.
Proof.
  unfold Utils.match_relative. cbn [lit list_ascii_of_string].
  pose proof (span_app_long s "m" "o" eq_refl) as H.
  destruct (span is_digit (s ++ ["m"; "o"]%char)) as [x y]. simpl in H.
  destruct x as [|x0 x]; [reflexivity|].
  destruct y as [|y0 [|y1 y]]; try contradiction. reflexivity.
Qed.

(** C2, where the code departs from it.  A month-unit value such as "1mo"
    does not reach the relative-date rules: it is handed to [Date], and
    when [Date] cannot read it the job is reported as not stale. *)
Theorem isJobOlderThanWeek_months (Date_parse : str -> option Z) (now : Z)
  (digits : str) :
  Date_parse (digits ++ lit "mo") = None ->
  Utils.isJobOlderThanWeek Date_parse now (Some (digits ++ lit "mo")) = false.
Proof.
  intros Hd. unfold Utils.isJobOlderThanWeek.
  destruct (negb (truthy (Some (digits ++ lit "mo")))); [reflexivity|].
  cbn [orEmpty]. now rewrite month_unit_never_matches, Hd.
Qed.

Lemma isJobOlderThanWeek_months_witness :
  (fun _ : str => @None Z) (lit "1" ++ lit "mo") = None
  /\ Utils.isJobOlderThanWeek (fun _ => None) 0%Z (Some (lit "1mo")) = false.
Proof.
  split; [reflexivity|].
  exact (isJobOlderThanWeek_months (fun _ => None) 0%Z (lit "1") eq_refl).
Defined.

(** The unit "m" of the repository's own test is matched by the pattern
    and then falls to the [default] case of the [switch]. *)
Lemma isJobOlderThanWeek_1m (Date_parse : str -> option Z) (now : Z) :
  Utils.isJobOlderThanWeek Date_parse now (Some (lit "1m")) = false.
Proof. reflexivity. Qed.

(** The three other units follow the thresholds: 336 hours, 14 days,
    2 weeks. *)
Lemma isJobOlderThanWeek_units (Date_parse : str -> option Z) (now : Z)
  (digits : str) :
  digits <> [] -> all_digits digits ->
  Utils.isJobOlderThanWeek Date_parse now (Some (digits ++ lit "h"))
    = (336 <=? Utils.parseInt digits)%N
  /\ Utils.isJobOlderThanWeek Date_parse now (Some (digits ++ lit "d"))
    = (14 <=? Utils.parseInt digits)%N
  /\ Utils.isJobOlderThanWeek Date_parse now (Some (digits ++ lit "w"))
    = (2 <=? Utils.parseInt digits)%N.
Proof.
  intros Hne Hd. unfold Utils.isJobOlderThanWeek, Utils.match_relative.
  destruct digits as [|d ds]; [contradiction|].
  cbn [lit list_ascii_of_string app truthy negb orEmpty].
  change (d :: ds ++ ["h"%char]) with ((d :: ds) ++ ["h"%char]).
  change (d :: ds ++ ["d"%char]) with ((d :: ds) ++ ["d"%char]).
  change (d :: ds ++ ["w"%char]) with ((d :: ds) ++ ["w"%char]).
  rewrite !span_digits_then by (auto; reflexivity).
  repeat split; reflexivity.
Qed.

Lemma isJobOlderThanWeek_spec_examples (Date_parse : str -> option Z) (now : Z) :
  Utils.isJobOlderThanWeek Date_parse now (Some (lit "15d")) = true
  /\ Utils.isJobOlderThanWeek Date_parse now (Some (lit "13d")) = false
  /\ Utils.isJobOlderThanWeek Date_parse now (Some (lit "336h")) = true
  /\ Utils.isJobOlderThanWeek Date_parse now (Some (lit "200h")) = false.
Proof. repeat split; reflexivity. Qed.

(** ** Merge (lib/job-processor.js) *)

Lemma truthy_Some (o : option str) :
  truthy o = true -> o = Some (orEmpty o) /\ orEmpty o <> [].
Proof. destruct o as [[|c s]|]; simpl; try discriminate. now split. Qed.

Lemma NoDup_map_Some (l : list str) : NoDup l -> NoDup (map Some l).
Proof.
  induction 1 as [|k l Hk Hl IH]; simpl; constructor; [|exact IH].
  rewrite in_map_iff. intros [k' [E Hin]]. injection E as ->. contradiction.
Qed.

Section MergeFacts.

Variable J : Type.
Variable job_id : J -> option str.

#[local] Abbreviation JobMap := (JobProcessor.JobMap J).
#[local] Abbreviation map_set := (@JobProcessor.map_set J).
#[local] Abbreviation insert_job := (JobProcessor.insert_job job_id).

Lemma keys_map_set (k : str) (v : J) (m : JobMap) :
  keys (map_set k v m) = if mem k (keys m) then keys m else keys m ++ [k].
Proof.
  induction m as [|[k0 v0] m IH]; simpl; [reflexivity|].
  destruct (eqb k0 k) eqn:E.
  - apply eqb_eq in E. subst k0. simpl. now rewrite eqb_refl.
  - simpl. rewrite IH.
    assert (E' : eqb k k0 = false).
    { apply eqb_neq. apply eqb_neq in E. congruence. }
    rewrite E'. simpl. now destruct (mem k (keys m)).
Qed.

Lemma mem_In (k : str) (l : list str) : mem k l = true <-> In k l.
Proof.
  unfold mem. rewrite existsb_exists. split.
  - intros [x [Hin E]]. apply eqb_eq in E. now subst.
  - intros Hin. exists k. split; [exact Hin | apply eqb_refl].
Qed.

Lemma In_keys_map_set (k k' : str) (v : J) (m : JobMap) :
  In k' (keys (map_set k v m)) <-> k' = k \/ In k' (keys m).
Proof.
  rewrite keys_map_set. destruct (mem k (keys m)) eqn:E.
  - apply mem_In in E. split; [tauto|]. intros [->|H]; assumption.
  - rewrite in_app_iff. simpl. split; [intros [H|[H|[]]]|intros [H|H]]; auto.
Qed.

Lemma NoDup_keys_map_set (k : str) (v : J) (m : JobMap) :
  NoDup (keys m) -> NoDup (keys (map_set k v m)).
Proof.
  intros H. rewrite keys_map_set. destruct (mem k (keys m)) eqn:E; [exact H|].
  assert (Hk : ~ In k (keys m)).
  { intros Hin. apply mem_In in Hin. congruence. }
  clear E. induction (keys m) as [|a l IH]; simpl.
  - constructor; [tauto | constructor].
  - inversion H as [|? ? Ha Hl]; subst. constructor.
    + rewrite in_app_iff. simpl. intros [Hin|[Hin|[]]]; [tauto|].
      subst. apply Hk. now left.
    + apply IH; [exact Hl|]. intros Hin. apply Hk. now right.
Qed.

(** After [set(k, v)] on a map without repeated keys, the entry of [k]
    is [v] and every other entry is as before. *)
Lemma In_map_set (k k' : str) (v v' : J) (m : JobMap) :
  NoDup (keys m) ->
  In (k', v') (map_set k v m) ->
  (k' = k /\ v' = v) \/ (k' <> k /\ In (k', v') m).
Proof.
  induction m as [|[k0 v0] m IH]; simpl; intros Hnd Hin.
  - destruct Hin as [E|[]]. injection E as <- <-. now left.
  - inversion Hnd as [|? ? Hk0 Hm]; subst.
    destruct (eqb k0 k) eqn:E.
    + apply eqb_eq in E. subst k0. destruct Hin as [E|Hin].
      * injection E as <- <-. now left.
      * right. split; [|now right]. intros ->. apply Hk0.
        change k with (fst (k, v')). now apply in_map.
    + apply eqb_neq in E. destruct Hin as [E'|Hin].
      * injection E' as <- <-. right. split; [exact E|now left].
      * destruct (IH Hm Hin) as [H|[H1 H2]]; [now left|].
        right. split; [exact H1|now right].
Qed.

Lemma last_with_id_snoc (k : str) (l : list J) (x : J) :
  last_with_id job_id k (l ++ [x]) =
    if has_id job_id k x then Some x else last_with_id job_id k l.
Proof. unfold last_with_id. now rewrite rev_app_distr. Qed.

Lemma Written_fold (l : list J) : Written job_id l (fold_left insert_job l []).
Proof.
  induction l as [|x l IH] using rev_ind.
  - split; simpl; [constructor | tauto | tauto].
  - rewrite fold_left_app. simpl.
    set (m := fold_left insert_job l []) in *.
    destruct IH as [Hnd Hlast Hall].
    unfold JobProcessor.insert_job.
    destruct (truthy (job_id x)) eqn:Ht.
    + destruct (truthy_Some _ Ht) as [Hid Hne].
      set (kx := orEmpty (job_id x)) in *.
      split.
      * now apply NoDup_keys_map_set.
      * intros k v Hin. rewrite last_with_id_snoc. unfold has_id.
        rewrite Ht. fold kx. simpl.
        destruct (In_map_set _ _ _ _ _ Hnd Hin) as [[-> ->]|[Hk Hin']].
        -- rewrite eqb_refl. auto.
        -- assert (E : eqb kx k = false) by (apply eqb_neq; congruence).
           rewrite E. now apply Hlast.
      * intros job Hin Htj. apply In_keys_map_set.
        apply in_app_or in Hin. destruct Hin as [Hin|[<-|[]]].
        -- right. now apply Hall.
        -- now left.
    + split; [exact Hnd | |].
      * intros k v Hin. rewrite last_with_id_snoc. unfold has_id.
        rewrite Ht. simpl. now apply Hlast.
      * intros job Hin Htj. apply in_app_or in Hin.
        destruct Hin as [Hin|[<-|[]]]; [now apply Hall | congruence].
Qed.

Lemma ids_of_values (m : JobMap) :
  (forall k v, In (k, v) m -> job_id v = Some k) ->
  map job_id (JobProcessor.map_values m) = map Some (keys m).
Proof.
  induction m as [|[k v] m IH]; simpl; intros H; [reflexivity|].
  rewrite (H k v) by now left. f_equal. apply IH.
  intros k' v' Hin. apply H. now right.
Qed.

Lemma In_values (m : JobMap) (job : J) :
  In job (JobProcessor.map_values m) <-> exists k, In (k, job) m.
Proof.
  unfold JobProcessor.map_values. rewrite in_map_iff. split.
  - intros [[k v] [E Hin]]. simpl in E. subst. now exists k.
  - intros [k Hin]. now exists (k, job).
Qed.

Lemma find_app (p : J -> bool) (a b : list J) :
  find p (a ++ b) = match find p a with Some x => Some x | None => find p b end.
Proof.
  induction a as [|x a IH]; simpl; [reflexivity|]. now destruct (p x).
Qed.

Lemma find_none_iff (p : J -> bool) (a : list J) :
  find p a = None <-> forall x, In x a -> p x = false.
Proof.
  split; [apply find_none|].
  induction a as [|x a IH]; simpl; intros H; [reflexivity|].
  rewrite (H x) by now left. apply IH. intros y Hy. apply H. now right.
Qed.

(** C3.  [mergeJobs] returns one record per distinct id: the ids of the
    result are pairwise different, and every id carried by an input
    record is there.  The record kept for an id is the one written last,
    persisted records first and fresh ones after them, so a fresh record
    replaces a persisted one with the same id.  A record without an id
    (absent or empty) is in no result. *)
Theorem mergeJobs_last_write_wins (persisted fresh : list J) :
  let merged := JobProcessor.mergeJobs job_id persisted fresh in
  NoDup (map job_id merged)
  /\ (forall job, In job (persisted ++ fresh) -> truthy (job_id job) = true ->
        exists kept, In kept merged /\ job_id kept = job_id job)
  /\ (forall kept, In kept merged ->
        last_with_id job_id (orEmpty (job_id kept)) (persisted ++ fresh)
          = Some kept)
  /\ (forall kept f, In kept merged -> In f fresh ->
        job_id f = job_id kept -> In kept fresh)
  /\ (forall job, In job merged -> truthy (job_id job) = true).
Proof.
  intros merged.
  assert (Hm : merged = JobProcessor.map_values
                          (fold_left insert_job (persisted ++ fresh) [])).
  { unfold merged, JobProcessor.mergeJobs. now rewrite fold_left_app. }
  destruct (Written_fold (persisted ++ fresh)) as [Hnd Hlast Hall].
  set (m := fold_left insert_job (persisted ++ fresh) []) in *.
  assert (Hkept : forall kept, In kept merged ->
            truthy (job_id kept) = true
            /\ last_with_id job_id (orEmpty (job_id kept)) (persisted ++ fresh)
               = Some kept).
  { intros kept Hin. rewrite Hm in Hin. apply In_values in Hin.
    destruct Hin as [k Hin]. destruct (Hlast k kept Hin) as [Hid [Hne Hl]].
    rewrite Hid. simpl. split; [now destruct k | exact Hl]. }
  split; [|split; [|split; [|split]]].
  - rewrite Hm, ids_of_values by (intros k v Hin; now apply Hlast).
    now apply NoDup_map_Some.
  - intros job Hin Ht. specialize (Hall job Hin Ht).
    unfold keys in Hall. apply in_map_iff in Hall.
    destruct Hall as [[k v] [E Hkv]]. simpl in E. subst k.
    exists v. split.
    + rewrite Hm. apply In_values. eauto.
    + destruct (Hlast _ _ Hkv) as [Hid _]. rewrite Hid.
      now destruct (truthy_Some _ Ht) as [-> _].
  - intros kept Hin. now apply Hkept.
  - intros kept f Hin Hf Eid. destruct (Hkept kept Hin) as [Ht Hl].
    unfold last_with_id in Hl. rewrite rev_app_distr, find_app in Hl.
    destruct (find _ (rev fresh)) as [x|] eqn:E.
    + injection Hl as ->. apply find_some in E. apply in_rev. tauto.
    + exfalso. rewrite find_none_iff in E.
      specialize (E f (proj1 (in_rev _ _) Hf)). unfold has_id in E.
      rewrite Eid, Ht, eqb_refl in E. discriminate.
  - intros job Hin. now apply Hkept.
Qed.

End MergeFacts.

(** The merge at a small store: the fresh record with id "a" replaces the
    persisted one, and the two records without an id are gone. *)
Lemma mergeJobs_last_write_wins_witness :
  JobProcessor.mergeJobs fst
    [tagged "a" 1; tagged "b" 2; untagged 3; tagged "" 4]
    [tagged "c" 5; tagged "a" 6]
  = [tagged "a" 6; tagged "b" 2; tagged "c" 5]
  /\ In (tagged "a" 6) [tagged "c" 5; tagged "a" 6].
Proof.
  split; [reflexivity|].
  apply (proj1 (proj2 (proj2 (proj2
           (mergeJobs_last_write_wins _ fst
              [tagged "a" 1; tagged "b" 2; untagged 3; tagged "" 4]
              [tagged "c" 5; tagged "a" 6]))))
         (tagged "a" 6) (tagged "a" 6)).
  - simpl. tauto.
  - simpl. tauto.
  - reflexivity.
Defined.

(** ** Identity functions of the shared package (jobId.js, deduplication.js) *)

Section IdentityFacts.

Variable sha256_hex : str -> str.

Lemma hashedId_filled (job : Dedup.Job) :
  Dedup.hashedId sha256_hex (filled job) = Dedup.hashedId sha256_hex job.
Proof.
  unfold Dedup.hashedId, Dedup.normalizeCompanyName, Dedup.normalizeTitle,
    Dedup.normalizeLocation, filled. simpl.
  destruct (Dedup.company job) as [[|c0 c]|],
           (Dedup.title job) as [[|t0 t]|],
           (Dedup.location job) as [[|l0 l]|]; reflexivity.
Qed.

Lemma hashedFingerprint_filled (job : Dedup.Job) :
  Dedup.hashedFingerprint sha256_hex (filled job)
  = Dedup.hashedFingerprint sha256_hex job.
Proof. reflexivity. Qed.

(** C7.  [generateJobId] and [generateFingerprint] throw, with the
    message "Job object is required", exactly when the argument is [null]
    or [undefined].  On a job object they return a string, and a missing
    property counts as the empty string. *)
Theorem identity_functions_throw (job : option Dedup.Job) :
  (forall e, Dedup.generateJobId sha256_hex job = Throw e
             <-> job = None /\ e = Dedup.required)
  /\ (forall e, Dedup.generateFingerprint sha256_hex job = Throw e
                <-> job = None /\ e = Dedup.required)
  /\ (forall j, job = Some j ->
        Dedup.generateJobId sha256_hex job
          = Ok (Dedup.hashedId sha256_hex (filled j))
        /\ Dedup.generateFingerprint sha256_hex job
          = Ok (Dedup.hashedFingerprint sha256_hex (filled j))).
Proof.
  destruct job as [j|]; simpl.
  - split; [|split].
    + intros e. split; [discriminate | intros [H _]; discriminate].
    + intros e. split; [discriminate | intros [H _]; discriminate].
    + intros j' E. injection E as <-.
      now rewrite hashedId_filled, hashedFingerprint_filled.
  - split; [|split].
    + intros e. split; [intros E; injection E as <-; auto | intros [_ ->]; auto].
    + intros e. split; [intros E; injection E as <-; auto | intros [_ ->]; auto].
    + discriminate.
Qed.

End IdentityFacts.

(** The two functions at [null] and at the object without properties,
    with the identity in the place of the digest. *)
Lemma identity_functions_throw_witness :
  Dedup.generateJobId (fun s => s) None = Throw (lit "Job object is required")
  /\ Dedup.generateFingerprint (fun s => s) None
     = Throw (lit "Job object is required")
  /\ Dedup.generateJobId (fun s => s) (Some emptyRecord) = Ok (lit "||")
  /\ Dedup.generateFingerprint (fun s => s) (Some emptyRecord) = Ok (lit "||||").
Proof.
  pose proof (identity_functions_throw (fun s => s) None) as [H1 [H2 _]].
  pose proof (identity_functions_throw (fun s => s) (Some emptyRecord))
    as [_ [_ H3]].
  split; [|split; [|split]].
  - destruct (Dedup.generateJobId (fun s => s) None) as [a|e] eqn:E.
    + discriminate E.
    + now destruct (proj1 (H1 e) eq_refl) as [_ ->].
  - destruct (Dedup.generateFingerprint (fun s => s) None) as [a|e] eqn:E.
    + discriminate E.
    + now destruct (proj1 (H2 e) eq_refl) as [_ ->].
  - exact (proj1 (H3 emptyRecord eq_refl)).
  - exact (proj2 (H3 emptyRecord eq_refl)).
Defined.

(** ** The deduplication pass (lib/deduplication.js) *)

Lemma Subseq_incl {A : Type} (out l : list A) :
  Subseq out l -> forall x, In x out -> In x l.
Proof.
  induction 1 as [|x out l H IH|x out l H IH]; simpl; intros y Hy.
  - exact Hy.
  - right. now apply IH.
  - destruct Hy as [->|Hy]; [now left | right; now apply IH].
Qed.

Lemma mem_rev_map {A : Type} (f : A -> str) (x : str) (l : list A) :
  mem x (rev (map f l)) = existsb (fun k => eqb x (f k)) l.
Proof.
  unfold mem. induction l as [|a l IH]; simpl; [reflexivity|].
  rewrite existsb_app, IH. simpl. rewrite orb_false_r. apply orb_comm.
Qed.

Lemma existsb_eqb_nat (x : nat) (l : list nat) :
  existsb (Nat.eqb x) l = true <-> In x l.
Proof.
  rewrite existsb_exists. split.
  - intros [y [Hin E]]. apply Nat.eqb_eq in E. now subst.
  - intros Hin. exists x. split; [exact Hin | apply Nat.eqb_refl].
Qed.

Section PassFacts.

Variable sha256_hex : str -> str.

#[local] Abbreviation kid := (idOf sha256_hex).
#[local] Abbreviation kfp := (fingerprintOf sha256_hex).
#[local] Abbreviation enrich := (enriched sha256_hex).
#[local] Abbreviation keep := (keep_first sha256_hex).

Lemma idOrGenerated_Ok (job : Dedup.Job) :
  Dedup.idOrGenerated sha256_hex job = Ok (kid job).
Proof.
  unfold Dedup.idOrGenerated, idOf. now destruct (truthy (Dedup.id job)).
Qed.

Lemma fingerprintOrGenerated_Ok (job : Dedup.Job) :
  Dedup.fingerprintOrGenerated sha256_hex job = Ok (kfp job).
Proof.
  unfold Dedup.fingerprintOrGenerated, fingerprintOf.
  now destruct (truthy (Dedup.fingerprint job)).
Qed.

Lemma fingerprintOf_set_id (job : Dedup.Job) (i : str) :
  kfp (Dedup.set_id job i) = kfp job.
Proof. reflexivity. Qed.

(** Assigning the keys does not change them. *)
Lemma idOf_enriched (job : Dedup.Job) : kid (enrich job) = kid job.
Proof.
  unfold idOf at 1. simpl.
  destruct (kid job) as [|c s] eqn:E; [|reflexivity].
  simpl. unfold idOf in E.
  destruct (truthy (Dedup.id job)) eqn:Ht; [|now rewrite <- E].
  apply truthy_Some in Ht. destruct Ht as [_ Hne]. contradiction.
Qed.

Lemma fingerprintOf_enriched (job : Dedup.Job) : kfp (enrich job) = kfp job.
Proof.
  unfold fingerprintOf at 1. simpl.
  destruct (kfp job) as [|c s] eqn:E; [|reflexivity].
  simpl. unfold fingerprintOf in E.
  destruct (truthy (Dedup.fingerprint job)) eqn:Ht; [|now rewrite <- E].
  apply truthy_Some in Ht. destruct Ht as [_ Hne]. contradiction.
Qed.

Lemma enriched_idem (job : Dedup.Job) : enrich (enrich job) = enrich job.
Proof.
  unfold enriched at 1. rewrite idOf_enriched, fingerprintOf_enriched.
  reflexivity.
Qed.


#[local] Abbreviation After := (StoreAfter sha256_hex).

(** One turn of the loop: the job visited gets both keys, and is kept
    unless one of them is recorded already. *)
Lemma visit_spec (h0 : Dedup.store) (done : list Dedup.ref)
  (st : Dedup.Pass) (r : Dedup.ref) :
  After h0 done (Dedup.objects st) ->
  exists h,
    After h0 (done ++ [r]) h
    /\ Dedup.visit sha256_hex st r =
       Ok (if mem (kid (h0 r)) (Dedup.seen st)
              || mem (kfp (h0 r)) (Dedup.seenFingerprints st)
           then Dedup.mkPass h (Dedup.seen st) (Dedup.seenFingerprints st)
                  (Dedup.uniqueJobs st)
           else Dedup.mkPass h (kid (h0 r) :: Dedup.seen st)
                  (kfp (h0 r) :: Dedup.seenFingerprints st)
                  (Dedup.uniqueJobs st ++ [r])).
Proof.
  intros Hst. unfold Dedup.visit.
  rewrite idOrGenerated_Ok. cbn [bind].
  rewrite fingerprintOrGenerated_Ok. cbn [bind].
  set (h := Dedup.objects st) in *.
  assert (Hk : kid (h r) = kid (h0 r) /\ kfp (h r) = kfp (h0 r)
               /\ enrich (h r) = enrich (h0 r)).
  { rewrite (Hst r). destruct (existsb (Nat.eqb r) done).
    - now rewrite idOf_enriched, fingerprintOf_enriched, enriched_idem.
    - auto. }
  destruct Hk as [Hi [Hf He]].
  set (h1 := Dedup.write h r (Dedup.set_id (h r) (kid (h r)))).
  assert (H1 : h1 r = Dedup.set_id (h r) (kid (h r))).
  { unfold h1, Dedup.write. now rewrite Nat.eqb_refl. }
  rewrite H1, fingerprintOf_set_id, Hi, Hf.
  set (h2 := Dedup.write h1 r _).
  exists h2. split.
  - intros x. rewrite existsb_app. simpl. rewrite orb_false_r.
    unfold h2, h1, Dedup.write.
    destruct (Nat.eqb x r) eqn:E.
    + apply Nat.eqb_eq in E. subst x. rewrite orb_true_r.
      rewrite <- He. unfold enriched. now rewrite Hi, Hf.
    + rewrite orb_false_r. apply Hst.
  - now destruct (mem _ _ || mem _ _).
Qed.

(** The loop never throws; it enriches the jobs it visits and keeps what
    [keep_first] keeps. *)
Lemma visit_all_spec (h0 : Dedup.store) (jobs : list Dedup.ref) :
  forall (done : list Dedup.ref) (st : Dedup.Pass),
    After h0 done (Dedup.objects st) ->
    exists st',
      Dedup.visit_all sha256_hex st jobs = Ok st'
      /\ After h0 (done ++ jobs) (Dedup.objects st')
      /\ Dedup.uniqueJobs st' =
         Dedup.uniqueJobs st
         ++ keep h0 (Dedup.seen st) (Dedup.seenFingerprints st) jobs.
Proof.
  induction jobs as [|r rest IH]; intros done st Hst.
  - exists st. simpl. rewrite !app_nil_r. auto.
  - destruct (visit_spec h0 done st r Hst) as [h [Hh Hv]].
    cbn [Dedup.visit_all keep_first]. rewrite Hv. cbn [bind].
    destruct (mem _ _ || mem _ _).
    + destruct (IH (done ++ [r]) (Dedup.mkPass h (Dedup.seen st)
                   (Dedup.seenFingerprints st) (Dedup.uniqueJobs st)) Hh)
        as [st' [E [Hs Hu]]].
      exists st'. rewrite <- app_assoc in Hs. auto.
    + destruct (IH (done ++ [r]) (Dedup.mkPass h (kid (h0 r) :: Dedup.seen st)
                   (kfp (h0 r) :: Dedup.seenFingerprints st)
                   (Dedup.uniqueJobs st ++ [r])) Hh)
        as [st' [E [Hs Hu]]].
      exists st'. rewrite <- app_assoc in Hs. simpl in Hu.
      rewrite <- app_assoc in Hu. auto.
Qed.

Lemma filterDuplicates_keep_first (h : Dedup.store) (jobs : list Dedup.ref) :
  exists h',
    Dedup.filterDuplicates sha256_hex h jobs = Ok (h', keep h [] [] jobs)
    /\ After h jobs h'.
Proof.
  unfold Dedup.filterDuplicates.
  destruct (visit_all_spec h jobs [] (Dedup.mkPass h [] [] []))
    as [st' [E [Hs Hu]]]; [intros x; reflexivity|].
  rewrite E. cbn [bind]. exists (Dedup.objects st').
  simpl in Hu, Hs. now rewrite Hu.
Qed.

End PassFacts.

Section KeepFacts.

Variable sha256_hex : str -> str.
Variable h : Dedup.store.

#[local] Abbreviation kid := (fun r => idOf sha256_hex (h r)).
#[local] Abbreviation kfp := (fun r => fingerprintOf sha256_hex (h r)).
#[local] Abbreviation keep := (keep_first sha256_hex h).

Lemma keep_first_Subseq (jobs : list Dedup.ref) :
  forall ids fps, Subseq (keep ids fps jobs) jobs.
Proof.
  induction jobs as [|r rest IH]; intros ids fps; simpl.
  - constructor.
  - destruct (mem _ ids || mem _ fps); constructor; apply IH.
Qed.

(** A job that is kept has neither key among those recorded before. *)
Lemma keep_first_fresh (jobs : list Dedup.ref) :
  forall ids fps r, In r (keep ids fps jobs) ->
    mem (kid r) ids = false /\ mem (kfp r) fps = false.
Proof.
  induction jobs as [|x rest IH]; intros ids fps r Hin; simpl in Hin.
  - contradiction.
  - destruct (mem (kid x) ids || mem (kfp x) fps) eqn:E.
    + now apply IH.
    + apply orb_false_iff in E. destruct Hin as [<-|Hin]; [exact E|].
      apply IH in Hin. simpl in Hin. destruct Hin as [Hi Hf].
      apply orb_false_iff in Hi, Hf. tauto.
Qed.

Lemma keep_first_NoDup (jobs : list Dedup.ref) :
  forall ids fps,
    NoDup (map kid (keep ids fps jobs)) /\ NoDup (map kfp (keep ids fps jobs)).
Proof.
  induction jobs as [|x rest IH]; intros ids fps; simpl.
  - split; constructor.
  - destruct (mem (kid x) ids || mem (kfp x) fps); [apply IH|].
    simpl. destruct (IH (kid x :: ids) (kfp x :: fps)) as [Hi Hf].
    split; constructor; auto; rewrite in_map_iff; intros [y [E Hy]];
      apply keep_first_fresh in Hy; simpl in Hy; destruct Hy as [Hyi Hyf];
      apply orb_false_iff in Hyi, Hyf.
    + rewrite E, eqb_refl in Hyi. now destruct Hyi.
    + rewrite E, eqb_refl in Hyf. now destruct Hyf.
Qed.

(** The pass over a list continues the pass over its first part. *)
Lemma keep_first_app (l1 l2 : list Dedup.ref) :
  forall ids fps,
    keep ids fps (l1 ++ l2) =
      keep ids fps l1
      ++ keep (rev (map kid (keep ids fps l1)) ++ ids)
              (rev (map kfp (keep ids fps l1)) ++ fps) l2.
Proof.
  induction l1 as [|x l1 IH]; intros ids fps; simpl; [reflexivity|].
  destruct (mem (kid x) ids || mem (kfp x) fps); [apply IH|].
  simpl. rewrite IH, <- !app_assoc. reflexivity.
Qed.

Lemma keep_first_at (before after : list Dedup.ref) (r : Dedup.ref) :
  exists rest,
    keep [] [] (before ++ r :: after) =
      keep [] [] before
      ++ (if seenAmong sha256_hex h (keep [] [] before) r then [] else [r])
      ++ rest.
Proof.
  rewrite keep_first_app, !app_nil_r. cbn [keep_first].
  rewrite !mem_rev_map. unfold seenAmong.
  destruct (existsb _ _ || existsb _ _); eexists; reflexivity.
Qed.

Lemma seenAmong_false (kept : list Dedup.ref) (r : Dedup.ref) :
  (forall b, In b kept -> kid b <> kid r /\ kfp b <> kfp r) ->
  seenAmong sha256_hex h kept r = false.
Proof.
  intros H. unfold seenAmong. apply orb_false_iff.
  split; apply not_true_is_false; intros E; apply existsb_exists in E;
    destruct E as [b [Hb E]]; apply eqb_eq in E; destruct (H b Hb); congruence.
Qed.

(** C4, as the code has it.  [filterDuplicates] goes through the jobs
    once, in order, and never throws.  The result is a subsequence of the
    input.  A job is dropped exactly when its id or its fingerprint is
    that of a job kept before it: the two sets of the pass record the
    keys of the jobs that are kept, not those of the jobs that are
    dropped.  So a job that is the first with its id and the first with
    its fingerprint survives, and the survivors have pairwise different
    ids and pairwise different fingerprints.  Every job of the input is
    assigned, in the store, the id and the fingerprint it lacked; its own
    are kept. *)
Theorem filterDuplicates_first_seen_wins (jobs : list Dedup.ref) :
  exists h' out,
    Dedup.filterDuplicates sha256_hex h jobs = Ok (h', out)
    /\ Subseq out jobs
    /\ (forall before r after, jobs = before ++ r :: after ->
          exists hb kept rest,
            Dedup.filterDuplicates sha256_hex h before = Ok (hb, kept)
            /\ out = kept
                     ++ (if seenAmong sha256_hex h kept r then [] else [r])
                     ++ rest)
    /\ (forall before r after, jobs = before ++ r :: after ->
          (forall b, In b before -> kid b <> kid r /\ kfp b <> kfp r) ->
          In r out)
    /\ NoDup (map kid out)
    /\ NoDup (map kfp out)
    /\ (forall x, In x jobs ->
          h' x = enriched sha256_hex (h x)
          /\ Dedup.id (h' x) = Some (kid x)
          /\ Dedup.fingerprint (h' x) = Some (kfp x))
    /\ (forall x, ~ In x jobs -> h' x = h x).
Proof.
  destruct (filterDuplicates_keep_first sha256_hex h jobs) as [h' [E Hs]].
  exists h', (keep [] [] jobs).
  split; [exact E|]. split; [apply keep_first_Subseq|].
  split; [|split; [|split; [|split; [|split]]]].
  - intros before r after ->.
    destruct (filterDuplicates_keep_first sha256_hex h before) as [hb [Eb _]].
    destruct (keep_first_at before after r) as [rest Hr].
    exists hb, (keep [] [] before), rest. auto.
  - intros before r after -> Hfirst.
    destruct (keep_first_at before after r) as [rest Hr].
    rewrite Hr, seenAmong_false.
    + apply in_or_app. right. now left.
    + intros b Hb. apply Hfirst.
      exact (Subseq_incl _ _ (keep_first_Subseq before [] []) b Hb).
  - apply keep_first_NoDup.
  - apply keep_first_NoDup.
  - intros x Hx. rewrite (Hs x).
    rewrite (proj2 (existsb_eqb_nat x jobs) Hx). auto.
  - intros x Hx. rewrite (Hs x).
    destruct (existsb (Nat.eqb x) jobs) eqn:Ex; [|reflexivity].
    apply existsb_eqb_nat in Ex. contradiction.
Qed.

End KeepFacts.

(** The pass at three jobs: the second shares the fingerprint of the
    first and is dropped, the third has the id of the second and another
    fingerprint, and is kept. *)
Lemma filterDuplicates_first_seen_wins_witness :
  exists h', Dedup.filterDuplicates (fun s => s) threeJobs [0; 1; 2]
             = Ok (h', [0; 2]).
Proof.
  destruct (filterDuplicates_first_seen_wins (fun s => s) threeJobs [0; 1; 2])
    as [h' [out [E _]]].
  exists h'. rewrite E. pose proof E as E'. vm_compute in E'.
  injection E' as _ Hout. now rewrite <- Hout.
Defined.

(** A job whose id has been seen earlier in the pass is not always
    dropped: the id of the third job below is the id of the second, which
    comes before it, and the third job is in the result.  (The second was
    dropped for its fingerprint, so its id was not recorded.) *)
Lemma filterDuplicates_seen_id_survives :
  exists h' out,
    Dedup.filterDuplicates (fun s => s) threeJobs [0; 1; 2] = Ok (h', out)
    /\ Dedup.id (threeJobs 2) = Dedup.id (threeJobs 1)
    /\ In 2 out.
Proof.
  eexists. eexists. split; [vm_compute; reflexivity|].
  split; [reflexivity|]. right. now left.
Qed.

(** ** The stores (lib/job-processor.js) *)

Section StoreFacts.

Variable num : Type.
Variable num_same : num -> num -> bool.
Variable num_falsy : num -> bool.
Variable cwd : str.
Variable path_join : list str -> str.
Variable existsSync : str -> bool.
Variable readFileSync : str -> result str.
Variable JSON_parse : str -> result (JobProcessor.json num).

#[local] Abbreviation loadSeen :=
  (JobProcessor.loadSeenJobsStore num_same cwd path_join existsSync
     readFileSync JSON_parse).
#[local] Abbreviation loadCurrent :=
  (JobProcessor.loadCurrentJobsStore num_falsy cwd path_join existsSync
     readFileSync JSON_parse).
#[local] Abbreviation set_add := (JobProcessor.set_add num_same).
#[local] Abbreviation set_has := (JobProcessor.set_has num_same).
#[local] Abbreviation seenFile := (seenPath cwd path_join).
#[local] Abbreviation currentFile := (currentPath cwd path_join).
#[local] Abbreviation parse := (parsed readFileSync JSON_parse).

Lemma set_has_string (s : list (JobProcessor.json num)) (k : str) :
  set_has s (JobProcessor.JStr k) = true <-> In (JobProcessor.JStr k) s.
Proof.
  unfold JobProcessor.set_has. rewrite existsb_exists. split.
  - intros [x [Hin E]]. destruct x; simpl in E; try discriminate.
    apply eqb_eq in E. now subst.
  - intros Hin. exists (JobProcessor.JStr k). split; [exact Hin|].
    simpl. apply eqb_refl.
Qed.

(** Adding strings to a set: the members are the old ones and the
    strings, and no member is repeated. *)
Lemma set_add_strings (ks : list str) :
  forall s : list (JobProcessor.json num),
    NoDup s ->
    NoDup (fold_left set_add (map JobProcessor.JStr ks) s)
    /\ forall v, In v (fold_left set_add (map JobProcessor.JStr ks) s)
                 <-> In v s \/ exists k, In k ks /\ v = JobProcessor.JStr k.
Proof.
  induction ks as [|k ks IH]; intros s Hs; simpl.
  - split; [exact Hs|]. intros v. split; [auto|].
    intros [H|[k [[] _]]]. exact H.
  - unfold JobProcessor.set_add at 2 4.
    destruct (set_has s (JobProcessor.JStr k)) eqn:E.
    + destruct (IH s Hs) as [Hnd Hin]. split; [exact Hnd|].
      intros v. rewrite Hin. apply set_has_string in E. split.
      * intros [H|[k' [Hk' ->]]]; [now left | right; eauto].
      * intros [H|[k' [[<-|Hk'] ->]]]; [now left | now left | right; eauto].
    + assert (Hk : ~ In (JobProcessor.JStr k) s).
      { intros Hin. apply set_has_string in Hin. congruence. }
      assert (Hs' : NoDup (s ++ [JobProcessor.JStr k])).
      { clear E IH. induction Hs as [|a l Ha Hl IHl]; simpl.
        - constructor; [tauto | constructor].
        - constructor.
          + rewrite in_app_iff. simpl. intros [H|[H|[]]]; [tauto|].
            subst a. apply Hk. now left.
          + apply IHl. intros H. apply Hk. now right. }
      destruct (IH _ Hs') as [Hnd Hin]. split; [exact Hnd|].
      intros v. rewrite Hin, in_app_iff. simpl. split.
      * intros [[H|[<-|[]]]|[k' [Hk' ->]]]; eauto.
      * intros [H|[k' [[<-|Hk'] ->]]]; eauto.
Qed.

(** C9.  The two load functions never throw.  When the file does not
    exist, or cannot be read, or its text does not parse, they return
    the empty collection.  A seen-ids file that holds an object (the
    legacy format) is loaded as the set of the object's keys. *)
Theorem stores_load (props : list (str * JobProcessor.json num)) :
  ((exists s, loadSeen = Ok s) /\ (exists v, loadCurrent = Ok v))
  /\ (existsSync seenFile = false -> loadSeen = Ok [])
  /\ (existsSync currentFile = false -> loadCurrent = Ok (JobProcessor.JArr []))
  /\ (forall e, parse seenFile = Throw e -> loadSeen = Ok [])
  /\ (forall e, parse currentFile = Throw e ->
                loadCurrent = Ok (JobProcessor.JArr []))
  /\ (existsSync seenFile = true ->
      parse seenFile = Ok (JobProcessor.JObj props) ->
      exists s, loadSeen = Ok s /\ NoDup s
                /\ forall v, In v s
                     <-> exists k, In k (map fst props)
                                   /\ v = JobProcessor.JStr k).
Proof.
  unfold JobProcessor.loadSeenJobsStore, JobProcessor.loadCurrentJobsStore,
    parsed, seenPath, currentPath.
  set (sp := path_join [JobProcessor.dataDir cwd path_join; lit "seen_jobs.json"]).
  set (cp := path_join [JobProcessor.dataDir cwd path_join; lit "current_jobs.json"]).
  split; [split|split; [|split; [|split; [|split]]]].
  - destruct (negb (existsSync sp)); simpl; [eauto|].
    destruct (readFileSync sp) as [text|e]; simpl; [|eauto].
    destruct (JSON_parse text) as [data|e]; simpl; [|eauto].
    destruct data; simpl; eauto.
  - destruct (negb (existsSync cp)); simpl; [eauto|].
    destruct (readFileSync cp) as [text|e]; simpl; [|eauto].
    destruct (JSON_parse text) as [data|e]; simpl; eauto.
  - now intros ->.
  - now intros ->.
  - intros e He. destruct (negb (existsSync sp)); [reflexivity|].
    destruct (readFileSync sp) as [text|e']; simpl in *; [|reflexivity].
    now rewrite He.
  - intros e He. destruct (negb (existsSync cp)); [reflexivity|].
    destruct (readFileSync cp) as [text|e']; simpl in *; [|reflexivity].
    now rewrite He.
  - intros -> Hp. simpl.
    destruct (readFileSync sp) as [text|e]; simpl in *; [|discriminate].
    rewrite Hp. simpl.
    destruct (set_add_strings (map fst props) [] (NoDup_nil _)) as [Hnd Hin].
    eexists. split; [reflexivity|]. split; [exact Hnd|].
    intros v. rewrite Hin. simpl. tauto.
Qed.

End StoreFacts.

(** The loaders on three working directories: one without the files, one
    whose files do not parse, and one with a legacy seen-ids file. *)
Lemma stores_load_witness :
  JobProcessor.loadSeenJobsStore (fun _ _ : unit => true) (lit "/repo")
    (join (lit "/")) (fun _ => false) (fun _ => Throw (lit "ENOENT"))
    (fun _ => Throw (lit "Unexpected end of JSON input")) = Ok []
  /\ JobProcessor.loadCurrentJobsStore (fun _ : unit => false) (lit "/repo")
       (join (lit "/")) (fun _ => true) (fun _ => Ok (lit "[{"))
       (fun _ => Throw (lit "Unexpected end of JSON input"))
     = Ok (JobProcessor.JArr [])
  /\ JobProcessor.loadSeenJobsStore (fun _ _ : unit => true) (lit "/repo")
       (join (lit "/")) (fun _ => true) (fun _ => Ok (lit "legacy"))
       (fun _ => Ok legacySeen)
     = Ok [JobProcessor.JStr (lit "acme-com-jobs-42");
           JobProcessor.JStr (lit "acme-com-jobs-43")].
Proof.
  split; [|split].
  - apply (stores_load unit (fun _ _ => true) (fun _ => false) (lit "/repo")
             (join (lit "/")) (fun _ => false) (fun _ => Throw (lit "ENOENT"))
             (fun _ => Throw (lit "Unexpected end of JSON input")) []).
    reflexivity.
  - apply (stores_load unit (fun _ _ => true) (fun _ => false) (lit "/repo")
             (join (lit "/")) (fun _ => true) (fun _ => Ok (lit "[{"))
             (fun _ => Throw (lit "Unexpected end of JSON input")) [])
      with (e := lit "Unexpected end of JSON input").
    reflexivity.
  - destruct (stores_load unit (fun _ _ => true) (fun _ => false) (lit "/repo")
                (join (lit "/")) (fun _ => true) (fun _ => Ok (lit "legacy"))
                (fun _ => Ok legacySeen)
                [ (lit "acme-com-jobs-42", JobProcessor.JBool true);
                  (lit "acme-com-jobs-43", JobProcessor.JBool true) ])
      as [_ [_ [_ [_ [_ H]]]]].
    destruct (H eq_refl eq_refl) as [s [E _]].
    rewrite E. vm_compute in E. injection E as <-. reflexivity.
Defined.


(** ** Character classes *)

Lemma space_not_word (c : ascii) : is_space c = true -> is_word c = false.
Proof. each_char c; vm_compute; intros H; try discriminate H; reflexivity. Qed.

Lemma space_not_hyphen (c : ascii) : is_space c = true -> is_hyphen c = false.
Proof. each_char c; vm_compute; intros H; try discriminate H; reflexivity. Qed.

Lemma lower_char_hyphen (c : ascii) : is_hyphen (lower_char c) = is_hyphen c.
Proof. each_char c; reflexivity. Qed.

(** A pattern character that matches a white-space character is that
    character. *)
Lemma char_match_space (ci : bool) (p c : ascii) :
  is_space c = true -> char_match ci p c = true -> is_space p = true.
Proof.
  intros Hc Hm.
  assert (E : p = c \/ is_upper p = true).
  { unfold char_match in Hm. destruct ci.
    - apply Ascii.eqb_eq in Hm. unfold fold_char in Hm.
      destruct (is_upper p); [now right|]. left.
      destruct (is_upper c) eqn:Eu; [|exact Hm].
      each_char c; vm_compute in Hc, Eu; discriminate.
    - apply Ascii.eqb_eq in Hm. now left. }
  destruct E as [->|Hu]; [exact Hc|].
  exfalso. unfold char_match in Hm. destruct ci.
  - apply Ascii.eqb_eq in Hm. unfold fold_char in Hm. rewrite Hu in Hm.
    assert (Hl : is_lower (ascii_of_N (code p + 32)) = true).
    { clear Hm. each_char p; vm_compute in Hu; try discriminate Hu; reflexivity. }
    rewrite Hm in Hl. unfold fold_char in Hl.
    destruct (is_upper c) eqn:Eu.
    + each_char c; vm_compute in Hc, Eu; discriminate.
    + each_char c; vm_compute in Hc, Hl; discriminate.
  - apply Ascii.eqb_eq in Hm. subst p.
    each_char c; vm_compute in Hc, Hu; discriminate.
Qed.

(** ** White space at the ends of a text *)

Lemma Forall_forallb {A : Type} (p : A -> bool) (l : list A) :
  forallb p l = true <-> Forall (fun x => p x = true) l.
Proof.
  rewrite forallb_forall, Forall_forall. tauto.
Qed.

Lemma blank_text_cons (c : ascii) (s : str) :
  blank_text (c :: s) <-> is_space c = true /\ blank_text s.
Proof. unfold blank_text. simpl. apply andb_true_iff. Qed.

Lemma trimStart_blank (l s : str) :
  blank_text l -> trimStart (l ++ s) = trimStart s.
Proof.
  induction l as [|c l IH]; intros H; [reflexivity|].
  apply blank_text_cons in H. destruct H as [Hc Hl]. simpl. rewrite Hc. auto.
Qed.

Lemma trimEnd_blank (r : str) : blank_text r -> trimEnd r = [].
Proof.
  induction r as [|c r IH]; intros H; [reflexivity|].
  apply blank_text_cons in H. destruct H as [Hc Hr]. simpl.
  now rewrite (IH Hr), Hc.
Qed.

Lemma trimEnd_app_blank (s r : str) :
  blank_text r -> trimEnd (s ++ r) = trimEnd s.
Proof.
  intros Hr. induction s as [|c s IH]; simpl.
  - now apply trimEnd_blank.
  - now rewrite IH.
Qed.

Lemma trimStart_split (s : str) :
  exists l, blank_text l /\ s = l ++ trimStart s.
Proof.
  induction s as [|c s [l [Hl E]]]; simpl.
  - now exists [].
  - destruct (is_space c) eqn:Hc.
    + exists (c :: l). split; [now apply blank_text_cons|].
      simpl. now rewrite <- E.
    + now exists [].
Qed.

Lemma trimEnd_split (s : str) :
  exists r, blank_text r /\ s = trimEnd s ++ r.
Proof.
  induction s as [|c s [r [Hr E]]]; simpl.
  - now exists [].
  - destruct (trimEnd s) as [|x xs] eqn:Et.
    + simpl in E. subst s. destruct (is_space c) eqn:Hc.
      * exists (c :: r). split; [now apply blank_text_cons | reflexivity].
      * exists r. split; [exact Hr | reflexivity].
    + exists r. split; [exact Hr|]. simpl in *. now f_equal.
Qed.

Lemma trim_split (s : str) :
  exists l r, blank_text l /\ blank_text r /\ s = l ++ trim s ++ r.
Proof.
  destruct (trimStart_split s) as [l [Hl El]].
  destruct (trimEnd_split (trimStart s)) as [r [Hr Er]].
  exists l, r. split; [exact Hl|]. split; [exact Hr|].
  unfold trim. now rewrite <- Er.
Qed.

Lemma trim_comm (s : str) : trimEnd (trimStart s) = trimStart (trimEnd s).
Proof.
  induction s as [|c s IH]; [reflexivity|]. simpl.
  destruct (is_space c) eqn:Hc.
  - rewrite IH. destruct (trimEnd s) as [|x xs]; simpl; [reflexivity|].
    now rewrite Hc.
  - simpl. destruct (trimEnd s) as [|x xs]; rewrite ?Hc; simpl; now rewrite ?Hc.
Qed.

(** ** Runs of white space *)

Lemma squeeze_from_blank (b : bool) (r : ascii) (s : str) :
  is_space r = true -> blank_text s -> blank_text (squeeze_from is_space r b s).
Proof.
  intros Hr. revert b. induction s as [|c s IH]; intros b H; [reflexivity|].
  apply blank_text_cons in H. destruct H as [Hc Hs]. simpl. rewrite Hc.
  destruct b; [now apply IH|]. apply blank_text_cons. auto.
Qed.

Lemma trimStart_squeeze_flag (r : ascii) (s : str) :
  is_space r = true ->
  trimStart (squeeze_from is_space r true s)
  = trimStart (squeeze_from is_space r false s).
Proof.
  intros Hr. destruct s as [|c s]; [reflexivity|]. simpl.
  destruct (is_space c); [|reflexivity]. simpl. now rewrite Hr.
Qed.

Lemma trimStart_squeeze_blank (r : ascii) (l s : str) :
  is_space r = true -> blank_text l ->
  forall b, trimStart (squeeze_from is_space r b (l ++ s))
            = trimStart (squeeze_from is_space r false s).
Proof.
  intros Hr. induction l as [|c l IH]; intros H b.
  - simpl. destruct b; [now apply trimStart_squeeze_flag | reflexivity].
  - apply blank_text_cons in H. destruct H as [Hc Hl]. simpl. rewrite Hc.
    destruct b; simpl; [|rewrite Hr]; now apply IH.
Qed.

Lemma trimEnd_squeeze_blank (r : ascii) (s t : str) :
  is_space r = true -> blank_text t ->
  forall b, trimEnd (squeeze_from is_space r b (s ++ t))
            = trimEnd (squeeze_from is_space r b s).
Proof.
  intros Hr Ht. induction s as [|c s IH]; intros b.
  - simpl. apply trimEnd_blank. now apply squeeze_from_blank.
  - simpl. destruct (is_space c).
    + destruct b; [apply IH|]. simpl. now rewrite IH.
    + simpl. now rewrite IH.
Qed.

(** [trim] after [replace(/\s+/g, ' ')] does not see white space at the
    ends of the text. *)
Lemma trim_squeeze_blank (l s r : str) :
  blank_text l -> blank_text r ->
  trim (squeeze is_space " " (l ++ s ++ r)) = trim (squeeze is_space " " s).
Proof.
  intros Hl Hr. unfold trim, squeeze.
  rewrite trimStart_squeeze_blank by (auto; reflexivity).
  rewrite !trim_comm. f_equal. now apply trimEnd_squeeze_blank.
Qed.

Lemma trim_squeeze_blank_l (l s : str) :
  blank_text l ->
  trim (squeeze is_space " " (l ++ s)) = trim (squeeze is_space " " s).
Proof.
  intros Hl. rewrite <- (app_nil_r s) at 1.
  now apply trim_squeeze_blank.
Qed.

Lemma trim_squeeze_blank_r (s r : str) :
  blank_text r ->
  trim (squeeze is_space " " (s ++ r)) = trim (squeeze is_space " " s).
Proof.
  intros Hr. rewrite <- (app_nil_l (s ++ r)).
  now apply trim_squeeze_blank.
Qed.

(** ** Word patterns and white space

    A white-space character separates the matches of a pattern
    [\b(w1|w2|...)\b]: no match spans it, and on either side of it the
    text is scanned as if it stood alone. *)

Lemma next_is_word_sep (s t : str) (c : ascii) :
  is_space c = true -> next_is_word (s ++ c :: t) = next_is_word s.
Proof.
  intros Hc. destruct s as [|a s]; simpl; [|reflexivity].
  now apply space_not_word.
Qed.

Lemma after_literal_sep (ci : bool) (w : str) :
  space_free w ->
  forall (pw : bool) (s t : str) (c : ascii),
    is_space c = true ->
    after_literal ci w pw (s ++ c :: t) =
      match after_literal ci w pw s with
      | Some (pw', rest) => Some (pw', rest ++ c :: t)
      | None => None
      end.
Proof.
  unfold space_free. induction w as [|p w IH]; intros Hw pw s t c Hc.
  - reflexivity.
  - simpl in Hw. apply andb_true_iff in Hw. destruct Hw as [Hp Hw].
    destruct s as [|a s]; simpl.
    + destruct (char_match ci p c) eqn:E; [|reflexivity].
      apply (char_match_space ci p c Hc) in E. rewrite E in Hp. discriminate.
    + destruct (char_match ci p a); [|reflexivity]. now apply IH.
Qed.

Lemma after_literal_length (ci : bool) (w : str) :
  forall (pw pw' : bool) (s rest : str),
    after_literal ci w pw s = Some (pw', rest) ->
    length s = length w + length rest.
Proof.
  induction w as [|p w IH]; intros pw pw' s rest H; simpl in H.
  - now injection H as _ ->.
  - destruct s as [|a s]; [discriminate|].
    destruct (char_match ci p a); [|discriminate].
    simpl. f_equal. exact (IH _ _ _ _ H).
Qed.

Lemma word_literal_sep (ci : bool) (w : str) (pw : bool) (s t : str) (c : ascii) :
  space_free w -> is_space c = true ->
  word_literal ci w pw (s ++ c :: t) = word_literal ci w pw s.
Proof.
  intros Hw Hc. unfold word_literal, boundary.
  rewrite next_is_word_sep, after_literal_sep by assumption.
  destruct (xorb pw (next_is_word s)); [|reflexivity].
  destruct (after_literal ci w pw s) as [[pw' rest]|]; [|reflexivity].
  now rewrite next_is_word_sep.
Qed.

Lemma word_literal_length (ci : bool) (w : str) (pw : bool) (s : str) (n : nat) :
  word_literal ci w pw s = Some n -> n <= length s.
Proof.
  unfold word_literal. destruct (boundary pw s); [|discriminate].
  destruct (after_literal ci w pw s) as [[pw' rest]|] eqn:E; [|discriminate].
  destruct (boundary pw' rest); [|discriminate].
  intros H. injection H as <-. apply after_literal_length in E. lia.
Qed.

Lemma word_alts_sep (ci : bool) (alts : list str) (pw : bool) (s t : str)
  (c : ascii) :
  Forall space_free alts -> is_space c = true ->
  word_alts ci alts pw (s ++ c :: t) = word_alts ci alts pw s.
Proof.
  intros Ha Hc. induction Ha as [|w alts Hw Ha IH]; simpl; [reflexivity|].
  rewrite word_literal_sep by assumption.
  destruct (word_literal ci w pw s); [reflexivity | exact IH].
Qed.

Lemma word_alts_length (ci : bool) (alts : list str) (pw : bool) (s : str)
  (n : nat) :
  word_alts ci alts pw s = Some n -> n <= length s.
Proof.
  induction alts as [|w alts IH]; simpl; [discriminate|].
  destruct (word_literal ci w pw s) as [k|] eqn:E; [|exact IH].
  intros H. injection H as <-. exact (word_literal_length _ _ _ _ _ E).
Qed.

Section Separator.

Variable m : bool -> str -> option nat.
Variable repl : str.

Hypothesis m_sep : forall pw s t c,
  is_space c = true -> m pw (s ++ c :: t) = m pw s.
Hypothesis m_length : forall pw s n, m pw s = Some n -> n <= length s.

Lemma replace_all_sep (s t : str) (c : ascii) :
  is_space c = true ->
  forall (pw : bool) (k : nat),
    k <= length s ->
    replace_all m repl pw k (s ++ c :: t)
    = replace_all m repl pw k s ++ c :: replace_all m repl false 0 t.
Proof.
  intros Hc. induction s as [|a s IH]; intros pw k Hk.
  - assert (k = 0) by (simpl in Hk; lia). subst k. cbn [app replace_all].
    pose proof (m_sep pw [] t c Hc) as E0. simpl in E0.
    rewrite E0, (space_not_word c Hc).
    destruct (m pw []) as [[|n]|] eqn:E; try reflexivity.
    apply m_length in E. simpl in E. lia.
  - cbn [app replace_all]. destruct k as [|k].
    + change (a :: s ++ c :: t) with ((a :: s) ++ c :: t).
      rewrite (m_sep pw (a :: s) t c Hc).
      destruct (m pw (a :: s)) as [[|n]|] eqn:E.
      * rewrite IH by lia. reflexivity.
      * apply m_length in E. simpl in E.
        rewrite IH by lia. now rewrite app_assoc.
      * rewrite IH by lia. reflexivity.
    + simpl in Hk. rewrite IH by lia. reflexivity.
Qed.

Lemma replace_g_blank_prefix (l s : str) :
  blank_text l -> replace_g m repl (l ++ s) = l ++ replace_g m repl s.
Proof.
  induction l as [|c l IH]; intros H; [reflexivity|].
  apply blank_text_cons in H. destruct H as [Hc Hl].
  unfold replace_g in *.
  change ((c :: l) ++ s) with ([] ++ c :: (l ++ s)).
  rewrite replace_all_sep by (auto; simpl; lia).
  simpl. now rewrite IH.
Qed.

Lemma replace_g_blank_suffix (s r : str) :
  blank_text r -> replace_g m repl (s ++ r) = replace_g m repl s ++ r.
Proof.
  intros H. destruct r as [|c r]; [now rewrite !app_nil_r|].
  apply blank_text_cons in H. destruct H as [Hc Hr].
  unfold replace_g. rewrite replace_all_sep by (auto; lia).
  f_equal. f_equal.
  pose proof (replace_g_blank_prefix r [] Hr) as E.
  unfold replace_g in E. now rewrite !app_nil_r in E.
Qed.

Lemma replace_g_sep (s t : str) (c : ascii) :
  is_space c = true ->
  replace_g m repl (s ++ c :: t)
  = replace_g m repl s ++ c :: replace_g m repl t.
Proof.
  intros Hc. unfold replace_g. apply replace_all_sep; [exact Hc | lia].
Qed.

End Separator.

Lemma replace_all_subset (m : bool -> str -> option nat) (P : ascii -> Prop)
  (s : str) :
  Forall P s -> forall pw k, Forall P (replace_all m [] pw k s).
Proof.
  induction 1 as [|c s Hc Hs IH]; intros pw k; simpl; [constructor|].
  destruct k as [|k]; [|apply IH].
  destruct (m pw (c :: s)) as [[|n]|]; simpl; auto.
Qed.

Lemma replace_words_sep (ci : bool) (alts : list str) (repl s t : str)
  (c : ascii) :
  Forall space_free alts -> is_space c = true ->
  replace_words ci alts repl (s ++ c :: t)
  = replace_words ci alts repl s ++ c :: replace_words ci alts repl t.
Proof.
  intros Ha Hc. unfold replace_words. apply replace_g_sep; [| |exact Hc].
  - intros pw s' t' c' Hc'. now apply word_alts_sep.
  - apply word_alts_length.
Qed.

Lemma replace_words_blank_ends (ci : bool) (alts : list str) (repl l s r : str) :
  Forall space_free alts -> blank_text l -> blank_text r ->
  replace_words ci alts repl (l ++ s ++ r)
  = l ++ replace_words ci alts repl s ++ r.
Proof.
  intros Ha Hl Hr. unfold replace_words.
  rewrite replace_g_blank_prefix, replace_g_blank_suffix; auto;
    try apply word_alts_length;
    intros pw s' t' c' Hc'; now apply word_alts_sep.
Qed.

(** ** Fingerprint (lib/utils.js) *)

Lemma seniorityWords_space_free : Forall space_free Utils.seniorityWords.
Proof. repeat constructor. Qed.

Lemma levelWords_space_free : Forall space_free Utils.levelWords.
Proof. repeat constructor. Qed.

Lemma hyphen_free_Forall (s : str) :
  hyphen_free s <-> Forall (fun c => is_hyphen c = false) s.
Proof.
  unfold hyphen_free. rewrite Forall_forallb. split; intros H;
    (eapply Forall_impl; [|exact H]); intros c Hc; simpl in *;
    now destruct (is_hyphen c).
Qed.

Lemma hyphen_free_app (a b : str) :
  hyphen_free (a ++ b) <-> hyphen_free a /\ hyphen_free b.
Proof. unfold hyphen_free. rewrite forallb_app. apply andb_true_iff. Qed.

Lemma hyphen_free_lower (s : str) : hyphen_free s -> hyphen_free (toLowerCase s).
Proof.
  unfold hyphen_free, toLowerCase.
  induction s as [|c s IH]; simpl; [reflexivity|].
  rewrite lower_char_hyphen, !andb_true_iff. intros [Hc Hs]. auto.
Qed.

Lemma hyphen_free_trim (s : str) : hyphen_free s -> hyphen_free (trim s).
Proof.
  destruct (trim_split s) as [l [r [_ [_ E]]]]. intros H. rewrite E in H.
  apply hyphen_free_app in H. destruct H as [_ H].
  now apply hyphen_free_app in H.
Qed.

Lemma trimStart_head (s rest : str) (d : ascii) :
  trimStart s = d :: rest -> In d s.
Proof.
  induction s as [|c s IH]; simpl; [discriminate|].
  destruct (is_space c).
  - intros H. right. now apply IH.
  - intros H. injection H as -> _. now left.
Qed.

(** Without a hyphen there is no " - suffix" clause to remove. *)
Lemma strip_dash_clause_hyphen_free (s : str) :
  hyphen_free s -> strip_dash_clause s = s.
Proof.
  intros H. apply hyphen_free_Forall in H.
  induction H as [|c s Hc Hs IH]; [reflexivity|].
  cbn [strip_dash_clause]. rewrite IH.
  assert (E : dash_clause_here (c :: s) = false).
  { unfold dash_clause_here. destruct (is_space c); [|reflexivity].
    destruct (trimStart (c :: s)) as [|d rest] eqn:Et; [reflexivity|].
    apply trimStart_head in Et.
    assert (Hd : is_hyphen d = false).
    { destruct Et as [<-|Hin]; [exact Hc|].
      rewrite Forall_forall in Hs. now apply Hs. }
    now rewrite Hd. }
  now rewrite E.
Qed.

Lemma titleCore_blank_ends (l s r : str) :
  blank_text l -> blank_text r -> titleCore (l ++ s ++ r) = titleCore s.
Proof.
  intros Hl Hr. unfold titleCore.
  rewrite !replace_words_blank_ends
    by auto using seniorityWords_space_free, levelWords_space_free.
  now apply trim_squeeze_blank.
Qed.

Lemma titleCore_trim (s : str) : titleCore (trim s) = titleCore s.
Proof.
  destruct (trim_split s) as [l [r [Hl [Hr E]]]].
  rewrite E at 2. symmetry. now apply titleCore_blank_ends.
Qed.

(** On a title without hyphen the fingerprint title is [titleCore] of the
    lower-cased title. *)
Lemma fingerprintTitle_hyphen_free (raw : str) :
  hyphen_free raw -> Utils.fingerprintTitle raw = titleCore (toLowerCase raw).
Proof.
  intros H. unfold Utils.fingerprintTitle.
  rewrite strip_dash_clause_hyphen_free.
  - apply titleCore_trim.
  - apply hyphen_free_Forall. unfold replace_words, replace_g.
    apply replace_all_subset, replace_all_subset.
    apply hyphen_free_Forall. now apply hyphen_free_trim, hyphen_free_lower.
Qed.

(** A leading "senior" and a trailing "ii" leave no trace. *)
Lemma titleCore_senior (x : str) : titleCore (lit "senior " ++ x) = titleCore x.
Proof.
  unfold titleCore.
  change (lit "senior " ++ x) with (lit "senior" ++ " "%char :: x).
  rewrite replace_words_sep by (auto using seniorityWords_space_free).
  change (replace_words true Utils.seniorityWords [] (lit "senior")) with (@nil ascii).
  set (y := replace_words true Utils.seniorityWords [] x).
  rewrite (replace_words_sep false Utils.levelWords [] [] y " ")
    by (auto using levelWords_space_free).
  change (replace_words false Utils.levelWords [] []) with (@nil ascii).
  apply (trim_squeeze_blank_l [" "%char]). reflexivity.
Qed.

Lemma titleCore_level_two (x : str) : titleCore (x ++ lit " ii") = titleCore x.
Proof.
  unfold titleCore.
  change (x ++ lit " ii") with (x ++ " "%char :: lit "ii").
  rewrite replace_words_sep by (auto using seniorityWords_space_free).
  change (replace_words true Utils.seniorityWords [] (lit "ii")) with (lit "ii").
  rewrite replace_words_sep by (auto using levelWords_space_free).
  change (replace_words false Utils.levelWords [] (lit "ii")) with (@nil ascii).
  apply trim_squeeze_blank_r. reflexivity.
Qed.

Lemma truthy_app_r (a b : str) : b <> [] -> truthy (Some (a ++ b)) = true.
Proof. destruct a, b; simpl; congruence. Qed.

(** C5, as the code has it.  Two jobs with the same company and location,
    one titled "Senior X" and the other "X II", get the same fingerprint
    from [generateJobFingerprint] of lib/utils.js whenever X contains no
    hyphen. *)
Theorem fingerprint_seniority_invariant (X : str) (j1 j2 : Utils.Job) :
  hyphen_free X ->
  Utils.title j1 = Some (lit "Senior " ++ X) ->
  Utils.title j2 = Some (X ++ lit " II") ->
  same_company_and_location j1 j2 ->
  Utils.generateJobFingerprint j1 = Utils.generateJobFingerprint j2.
Proof.
  intros HX H1 H2 [Hc1 [Hc2 [Hc3 [Hl1 [Hl2 Hl3]]]]].
  unfold Utils.generateJobFingerprint, Utils.fingerprintLocation,
    Utils.companyWords, Utils.firstLocation.
  rewrite Hc1, Hc2, Hc3, Hl1, Hl2, Hl3. f_equal. f_equal. f_equal.
  rewrite H1, H2. unfold orElse.
  rewrite (truthy_app_r X (lit " II")) by discriminate.
  cbn [truthy lit list_ascii_of_string app orEmpty].
  change ("S"%char :: "e"%char :: "n"%char :: "i"%char :: "o"%char
          :: "r"%char :: " "%char :: X) with (lit "Senior " ++ X).
  change (X ++ [" "%char; "I"%char; "I"%char]) with (X ++ lit " II").
  rewrite !fingerprintTitle_hyphen_free.
  - unfold toLowerCase. rewrite !map_app.
    change (map lower_char (lit "Senior ")) with (lit "senior ").
    change (map lower_char (lit " II")) with (lit " ii").
    now rewrite titleCore_senior, titleCore_level_two.
  - apply hyphen_free_app. split; [exact HX | reflexivity].
  - apply hyphen_free_app. split; [reflexivity | exact HX].
Qed.

(** The invariance at the titles of the fingerprint test. *)
Lemma fingerprint_seniority_invariant_witness :
  hyphen_free (lit "Software Engineer")
  /\ Utils.generateJobFingerprint (googleJob "Senior Software Engineer")
     = Utils.generateJobFingerprint (googleJob "Software Engineer II").
Proof.
  split; [reflexivity|].
  apply (fingerprint_seniority_invariant (lit "Software Engineer")
           (googleJob "Senior Software Engineer")
           (googleJob "Software Engineer II")); try reflexivity.
  repeat split.
Defined.

(** The invariance fails for a base title with a " - suffix" clause: the
    clause is cut after the words are removed, and on the two sides the
    blanks they leave are not the same. *)
Lemma fingerprint_seniority_variants_differ :
  Utils.title (googleJob "Senior Analyst - Lead")
    = Some (lit "Senior " ++ lit "Analyst - Lead")
  /\ Utils.title (googleJob "Analyst - Lead II")
    = Some (lit "Analyst - Lead" ++ lit " II")
  /\ same_company_and_location (googleJob "Senior Analyst - Lead")
       (googleJob "Analyst - Lead II")
  /\ Utils.generateJobFingerprint (googleJob "Senior Analyst - Lead")
    <> Utils.generateJobFingerprint (googleJob "Analyst - Lead II").
Proof.
  split; [reflexivity|]. split; [reflexivity|]. split; [repeat split|].
  vm_compute. discriminate.
Qed.

(** [generateJobFingerprint] of lib/job-processor.js removes the seniority
    words and keeps the level numeral. *)
Lemma jsearch_fingerprint_keeps_level :
  JobProcessor.generateJobFingerprint (googleJSearchJob "Senior Software Engineer")
    <> JobProcessor.generateJobFingerprint (googleJSearchJob "Software Engineer II").
Proof. vm_compute. discriminate. Qed.

(** The two sides of the first pair, and of the second. *)
Lemma fingerprint_seniority_variants_values :
  Utils.generateJobFingerprint (googleJob "Senior Analyst - Lead")
    = lit "google::analyst -::sf"
  /\ Utils.generateJobFingerprint (googleJob "Analyst - Lead II")
    = lit "google::analyst::sf"
  /\ JobProcessor.generateJobFingerprint (googleJSearchJob "Senior Software Engineer")
    = lit "google::software engineer::sf"
  /\ JobProcessor.generateJobFingerprint (googleJSearchJob "Software Engineer II")
    = lit "google::software engineer ii::sf".
Proof. repeat split; reflexivity. Qed.

(** ** Identity from the apply URL *)

Lemma drop_final_cons (p : ascii -> bool) (c : ascii) (s : str) :
  drop_final p (c :: s) =
    match s with
    | [] => if p c then [] else [c]
    | _ :: _ => c :: drop_final p s
    end.
Proof. reflexivity. Qed.

Lemma drop_final_keep (p : ascii -> bool) (c : ascii) (s : str) :
  p c = false -> drop_final p (c :: s) = c :: drop_final p s.
Proof.
  intros Hc. rewrite drop_final_cons. destruct s; [now rewrite Hc | reflexivity].
Qed.

(** [replace(/c$/, '')] returns the text, or the text without its last
    character when that is a [c]. *)
Lemma drop_final_cases (p : ascii -> bool) (s : str) :
  drop_final p s = s \/ exists c, p c = true /\ s = drop_final p s ++ [c].
Proof.
  induction s as [|a s IH]; [now left|].
  rewrite drop_final_cons. destruct s as [|b s].
  - destruct (p a) eqn:E; [right; now exists a | now left].
  - destruct IH as [IH|[c [Hc IH]]].
    + left. now rewrite IH.
    + right. exists c. split; [exact Hc|].
      change ((a :: drop_final p (b :: s)) ++ [c])
        with (a :: (drop_final p (b :: s) ++ [c])).
      now rewrite <- IH.
Qed.

Lemma squeeze_hyphen_empty (y : str) :
  squeeze_from is_hyphen "-" true (y ++ lit "-") = []
  <-> squeeze_from is_hyphen "-" true y = [].
Proof.
  induction y as [|c y IH]; simpl; [tauto|].
  destruct (is_hyphen c); [exact IH|]. split; discriminate.
Qed.

Lemma drop_final_squeeze_hyphen (y : str) :
  forall b,
    drop_final is_hyphen (squeeze_from is_hyphen "-" b (y ++ lit "-"))
    = drop_final is_hyphen (squeeze_from is_hyphen "-" b y).
Proof.
  induction y as [|c y IH]; intros b.
  - destruct b; reflexivity.
  - cbn [app squeeze_from]. destruct (is_hyphen c) eqn:Hc.
    + destruct b; [apply IH|].
      rewrite !drop_final_cons.
      pose proof (squeeze_hyphen_empty y) as E.
      destruct (squeeze_from is_hyphen "-" true (y ++ lit "-")) as [|a l] eqn:E1;
        destruct (squeeze_from is_hyphen "-" true y) as [|a' l'] eqn:E2.
      * reflexivity.
      * exfalso. destruct E as [E _]. specialize (E eq_refl). discriminate.
      * exfalso. destruct E as [_ E]. specialize (E eq_refl). discriminate.
      * rewrite <- E1, <- E2, IH. reflexivity.
    + rewrite !drop_final_keep by exact Hc. now rewrite IH.
Qed.

(** A hyphen appended to a text does not show in its slug. *)
Lemma strip_edge_squeeze_hyphen (y : str) :
  strip_edge_hyphens (squeeze is_hyphen "-" (y ++ lit "-"))
  = strip_edge_hyphens (squeeze is_hyphen "-" y).
Proof.
  unfold squeeze. destruct y as [|c y]; [reflexivity|].
  cbn [app squeeze_from]. destruct (is_hyphen c) eqn:Hc.
  - unfold strip_edge_hyphens. change (is_hyphen "-") with true. cbv iota.
    apply drop_final_squeeze_hyphen.
  - unfold strip_edge_hyphens. rewrite Hc.
    rewrite !drop_final_keep by exact Hc. now rewrite drop_final_squeeze_hyphen.
Qed.

Lemma slug_strict_slash (s : str) :
  slug_strict (toLowerCase (s ++ lit "/")) = slug_strict (toLowerCase s).
Proof.
  unfold slug_strict, toLowerCase, replace_class. rewrite !map_app.
  apply strip_edge_squeeze_hyphen.
Qed.

(** The slash that [replace(/\/$/, '')] removes would not show in the id
    anyway. *)
Lemma slug_strict_drop_final (h p : str) :
  slug_strict (toLowerCase (h ++ drop_final is_slash p))
  = slug_strict (toLowerCase (h ++ p)).
Proof.
  destruct (drop_final_cases is_slash p) as [E|[c [Hc E]]]; [now rewrite E|].
  assert (c = "/"%char) as ->.
  { clear E. each_char c; vm_compute in Hc; try discriminate Hc; reflexivity. }
  rewrite E at 2. rewrite app_assoc. symmetry. apply slug_strict_slash.
Qed.

Lemma urlId_host_path (u : URL) :
  JobProcessor.urlId u = slug_strict (toLowerCase (hostname u ++ pathname u))
  /\ Utils.urlId u = slug_strict (toLowerCase (hostname u ++ pathname u)).
Proof.
  unfold JobProcessor.urlId, Utils.urlId. split; apply slug_strict_drop_final.
Qed.

Lemma urlId_invariant (u1 u2 : URL) :
  hostname u1 = hostname u2 ->
  same_path_modulo_slash (pathname u1) (pathname u2) ->
  JobProcessor.urlId u1 = JobProcessor.urlId u2
  /\ Utils.urlId u1 = Utils.urlId u2.
Proof.
  intros Hh Hp.
  destruct (urlId_host_path u1) as [E1 E1'].
  destruct (urlId_host_path u2) as [E2 E2'].
  rewrite E1, E1', E2, E2', Hh.
  destruct Hp as [ -> | [ -> | -> ] ]; rewrite ?app_assoc, ?slug_strict_slash; auto.
Qed.

Section UrlIdentity.

Variable URL_parse : str -> option URL.

(** C6.  Two jobs whose apply URLs parse, with the same host and with
    paths that are equal or differ by a trailing slash, get the same id,
    whatever their query strings are: from [generateJobId] of
    lib/job-processor.js, and from [generateJobIdFromUrl] of lib/utils.js. *)
Theorem generateJobId_url_invariant (link1 link2 : str) (u1 u2 : URL) :
  link1 <> [] -> link2 <> [] ->
  URL_parse link1 = Some u1 ->
  URL_parse link2 = Some u2 ->
  hostname u1 = hostname u2 ->
  same_path_modulo_slash (pathname u1) (pathname u2) ->
  (forall j1 j2 : JobProcessor.Job,
     JobProcessor.job_apply_link j1 = Some link1 ->
     JobProcessor.job_apply_link j2 = Some link2 ->
     JobProcessor.generateJobId URL_parse j1
     = JobProcessor.generateJobId URL_parse j2)
  /\ (forall k1 k2 : Utils.Job,
        orElse (Utils.url k1) (Utils.job_apply_link k1) = Some link1 ->
        orElse (Utils.url k2) (Utils.job_apply_link k2) = Some link2 ->
        Utils.generateJobIdFromUrl URL_parse k1
        = Utils.generateJobIdFromUrl URL_parse k2).
Proof.
  intros Hn1 Hn2 Hp1 Hp2 Hh Hp.
  destruct (urlId_invariant u1 u2 Hh Hp) as [Ej Eu].
  assert (Ht : forall l : str, l <> [] -> truthy (Some l) = true).
  { intros [|c l] H; [contradiction | reflexivity]. }
  split.
  - intros j1 j2 H1 H2. unfold JobProcessor.generateJobId.
    rewrite H1, H2, !Ht by assumption. simpl. now rewrite Hp1, Hp2.
  - intros k1 k2 H1 H2. unfold Utils.generateJobIdFromUrl.
    rewrite H1, H2, !Ht by assumption. simpl. now rewrite Hp1, Hp2.
Qed.

End UrlIdentity.

(** The id of the job at acme.com/jobs/42, with a query string and with a
    trailing slash. *)
Lemma generateJobId_url_invariant_witness :
  JobProcessor.generateJobId plainURL
    (linkedJSearchJob "https://acme.com/jobs/42?utm=feed")
  = JobProcessor.generateJobId plainURL
      (linkedJSearchJob "https://acme.com/jobs/42/")
  /\ Utils.generateJobIdFromUrl plainURL
       (linkedJob "https://acme.com/jobs/42?utm=feed")
     = Utils.generateJobIdFromUrl plainURL
         (linkedJob "https://acme.com/jobs/42/")
  /\ JobProcessor.generateJobId plainURL
       (linkedJSearchJob "https://acme.com/jobs/42?utm=feed")
     = lit "acme-com-jobs-42".
Proof.
  destruct (generateJobId_url_invariant plainURL
              (lit "https://acme.com/jobs/42?utm=feed")
              (lit "https://acme.com/jobs/42/")
              (mkURL (lit "acme.com") (lit "/jobs/42") (lit "?utm=feed"))
              (mkURL (lit "acme.com") (lit "/jobs/42/") []))
    as [Hj Hu]; try discriminate; try reflexivity.
  - right. right. reflexivity.
  - split; [|split].
    + now apply Hj.
    + now apply Hu.
    + reflexivity.
Defined.

(** ** The repository's unit tests, on the model

    The expectations of lib/__tests__/utils.test.js that do not depend on
    the clock, and the scenario of the specification. *)

Example test_normalizeCompanyNameStr :
  Utils.normalizeCompanyNameStr (Some (lit "Google Inc.")) = lit "google"
  /\ Utils.normalizeCompanyNameStr (Some (lit "Meta LLC")) = lit "meta"
  /\ Utils.normalizeCompanyNameStr (Some (lit "Apple Corp.")) = lit "apple"
  /\ Utils.normalizeCompanyNameStr (Some (lit "Amazon Limited")) = lit "amazon"
  /\ Utils.normalizeCompanyNameStr (Some []) = []
  /\ Utils.normalizeCompanyNameStr None = [].
Proof. repeat split; reflexivity. Qed.

Example test_generateEnhancedId :
  Utils.generateEnhancedId (titledJob "Example Corp" "Software Engineer I" "Seattle")
    = lit "example-software-engineer-1-seattle"
  /\ Utils.generateEnhancedId (titledJob "Example Corp" "Sr. Software Engineer" "Austin")
    = lit "example-senior-software-engineer-austin"
  /\ Utils.generateEnhancedId (titledJob "Example Inc." "Engineer" "NYC")
    = lit "example-engineer-nyc"
  /\ Utils.generateEnhancedId (titledJob "Google" "Software Engineer" "Mountain View")
    = lit "google-software-engineer-mountain-view".
Proof. repeat split; reflexivity. Qed.

Example test_generateJobIdFromUrl :
  Utils.generateJobIdFromUrl plainURL
    (linkedJob "https://jobs.lever.co/example/abc-123-software-engineer")
    = lit "jobs-lever-co-example-abc-123-software-engineer"
  /\ Utils.generateJobIdFromUrl plainURL
       (Utils.mkJob (Some (lit "Software Engineer")) None (Some (lit "Google"))
          None None None (Some (lit "San Francisco")) None
          (Some (lit "invalid-url")) None None)
     = lit "google-software-engineer-san-francisco".
Proof. split; reflexivity. Qed.

Example test_generateJobFingerprint :
  Utils.generateJobFingerprint
    (Utils.mkJob (Some (lit "Senior Software Engineer")) None
       (Some (lit "Google")) None None None None
       (Some (lit "San Francisco, CA")) None None None)
  = lit "google::software engineer::san francisco".
Proof. reflexivity. Qed.

Example test_isJobOlderThanWeek_relative (Date_parse : str -> option Z) (now : Z) :
  Utils.isJobOlderThanWeek Date_parse now (Some (lit "1d")) = false
  /\ Utils.isJobOlderThanWeek Date_parse now (Some (lit "15d")) = true
  /\ Utils.isJobOlderThanWeek Date_parse now (Some (lit "1w")) = false
  /\ Utils.isJobOlderThanWeek Date_parse now (Some (lit "2w")) = true
  /\ Utils.isJobOlderThanWeek Date_parse now (Some (lit "336h")) = true
  /\ Utils.isJobOlderThanWeek Date_parse now (Some (lit "200h")) = false
  /\ Utils.isJobOlderThanWeek Date_parse now None = false.
Proof. repeat split; reflexivity. Qed.

Example test_isUSOnlyJob :
  Utils.isUSOnlyJob (locatedJob "San Francisco" "California") None = true
  /\ Utils.isUSOnlyJob (locatedJob "Remote" "") None = true
  /\ Utils.isUSOnlyJob (locatedJob "" "") None = true
  /\ Utils.isUSOnlyJob (locatedJob "San Jose" "California")
       (Some testLocationConfig) = true
  /\ Utils.isUSOnlyJob (locatedJob "London" "") (Some testLocationConfig) = false.
Proof. repeat split; reflexivity. Qed.

Example test_getExperienceLevel :
  map (fun t => Utils.getExperienceLevel (lit t) None None)
    ["Senior Software Engineer"; "Sr. Engineer"; "Lead Developer";
     "Principal Engineer"; "Staff Engineer"]%string
  = map lit ["Senior"; "Senior"; "Senior"; "Senior"; "Senior"]%string
  /\ map (fun t => Utils.getExperienceLevel (lit t) None None)
       ["Junior Engineer"; "Entry Level Developer"; "New Grad Software Engineer";
        "Associate Engineer"; "Intern Software Engineer"; "Software Engineer"]%string
     = map lit ["Entry-Level"; "Entry-Level"; "Entry-Level"; "Entry-Level";
                "Entry-Level"; "Entry-Level"]%string
  /\ Utils.getExperienceLevel (lit "Software Engineer")
       (Some (lit "We are looking for a senior developer with 10 years experience"))
       None = lit "Senior"
  /\ Utils.getExperienceLevel (lit "Expert Engineer") (Some []) (Some testConfig)
     = lit "Senior"
  /\ Utils.getExperienceLevel (lit "Beginner Engineer") (Some []) (Some testConfig)
     = lit "Entry-Level".
Proof. repeat split; reflexivity. Qed.

Example test_getJobCategory :
  map (fun t => Utils.getJobCategory (lit t) None None)
    ["iOS Developer"; "Frontend Engineer"; "Vue.js Engineer"; "API Developer";
     "Machine Learning Engineer"; "ML Engineer"; "Data Scientist";
     "Cloud Engineer"; "Security Engineer"; "Product Manager"; "PM Lead";
     "UX Designer"; "Full Stack Developer"; "Engineer"; "Developer"]%string
  = map lit
      ["Mobile Development"; "Frontend Development"; "Frontend Development";
       "Backend Development"; "Machine Learning & AI"; "Machine Learning & AI";
       "Data Science & Analytics"; "DevOps & Infrastructure";
       "Security Engineering"; "Product Management"; "Product Management";
       "Design"; "Full Stack Development"; "Software Engineering";
       "Software Engineering"]%string
  /\ Utils.getJobCategory (lit "Blockchain Engineer") (Some []) (Some testConfig)
     = lit "Blockchain"
  /\ Utils.getJobCategory (lit "Unity Developer") (Some []) (Some testConfig)
     = lit "Gaming".
Proof. repeat split; reflexivity. Qed.

(** The scenario of the specification: the id of the Acme job contains
    "acme-com" and "jobs-42", and the built-in tables classify it as
    "Software Engineering" and "Senior". *)
Example scenario_acme :
  JobProcessor.generateJobId plainURL (linkedJSearchJob "https://acme.com/jobs/42")
    = lit "acme-com-jobs-42"
  /\ Utils.getJobCategory (lit "Senior Engineer") None None
     = lit "Software Engineering"
  /\ Utils.getExperienceLevel (lit "Senior Engineer") None None = lit "Senior".
Proof. repeat split; reflexivity. Qed.

(** ** Decimal numerals *)

Lemma string_of_uint_digits (d : Decimal.uint) :
  Forall (fun c => is_digit c = true) (lit (NilEmpty.string_of_uint d)).
Proof.
  induction d; simpl; constructor; try reflexivity; assumption.
Qed.

Lemma string_of_uint_to_uint (p : positive) :
  NilEmpty.string_of_uint (Pos.to_uint p) <> EmptyString.
Proof.
  intros E.
  assert (H : NilEmpty.uint_of_string (NilEmpty.string_of_uint (Pos.to_uint p))
              = Some (Pos.to_uint p)) by apply NilEmpty.usu.
  rewrite E in H. simpl in H. injection H as H.
  pose proof (DecimalPos.Unsigned.of_to p) as Hp.
  rewrite <- H in Hp. discriminate.
Qed.

(** A numeral is not empty, and is made of digits and the minus sign. *)
Lemma decimal_nonempty (n : Z) : decimal n <> [].
Proof.
  unfold decimal. destruct n as [|p|p]; simpl; try discriminate.
  - intros E. apply (string_of_uint_to_uint p).
    destruct (NilEmpty.string_of_uint (Pos.to_uint p)); [reflexivity|discriminate].
Qed.

Lemma decimal_chars (n : Z) :
  Forall (fun c => is_digit c = true \/ is_hyphen c = true) (decimal n).
Proof.
  unfold decimal. destruct n as [|p|p]; simpl.
  - constructor; [now left | constructor].
  - eapply Forall_impl; [|apply string_of_uint_digits]. intros c H. now left.
  - constructor; [now right|].
    eapply Forall_impl; [|apply string_of_uint_digits]. intros c H. now left.
Qed.

Lemma decimal_apart (n : Z) (p : str) :
  Forall (fun c => is_digit c = false /\ is_hyphen c = false) p ->
  apart (decimal n) p.
Proof.
  intros Hp c Hc Hin.
  pose proof (decimal_chars n) as Hd. rewrite Forall_forall in Hd, Hp.
  destruct (Hp c Hin) as [H1 H2]. destruct (Hd c Hc); congruence.
Qed.

(** ** Replacement of a pattern, and the occurrences of another *)

Lemma Contains_cons (p : str) (c : ascii) (s : str) :
  Contains p (c :: s) <-> starts_with p (c :: s) = true \/ Contains p s.
Proof.
  rewrite <- !includes_spec. cbn [includes]. now rewrite orb_true_iff.
Qed.

Lemma includes_cons (p : str) (c : ascii) (s : str) :
  includes (c :: s) p = starts_with p (c :: s) || includes s p.
Proof. reflexivity. Qed.

Lemma includes_nil (p : str) : p <> [] -> includes [] p = false.
Proof. destruct p; [congruence|reflexivity]. Qed.

(** Where the replaced text begins with [p], the original text does, and
    no match of the pattern begins there. *)
Lemma starts_with_replace_all (m : bool -> str -> option nat) (repl p : str) :
  repl <> [] -> apart repl p ->
  forall (s : str) (pw : bool),
    starts_with p (replace_all m repl pw 0 s) = true ->
    starts_with p s = true /\ (p <> [] -> forall k, m pw s <> Some (S k)).
Proof.
  intros Hr. induction p as [|c p IH]; intros Hap s pw H.
  - split; [reflexivity | congruence].
  - assert (Hap' : apart repl p).
    { intros x Hx Hin. apply (Hap x Hx). now right. }
    destruct s as [|x s]; [discriminate|].
    cbn [replace_all] in H.
    destruct (m pw (x :: s)) as [[|k]|] eqn:Em.
    + cbn [starts_with] in H. apply andb_true_iff in H. destruct H as [H1 H2].
      destruct (IH Hap' _ _ H2) as [H3 _]. split.
      * cbn [starts_with]. now rewrite H1, H3.
      * intros _ k. congruence.
    + exfalso. destruct repl as [|r repl]; [congruence|].
      cbn [app starts_with] in H. apply andb_true_iff in H. destruct H as [H1 _].
      apply Ascii.eqb_eq in H1. subst r. apply (Hap c); now left.
    + cbn [starts_with] in H. apply andb_true_iff in H. destruct H as [H1 H2].
      destruct (IH Hap' _ _ H2) as [H3 _]. split.
      * cbn [starts_with]. now rewrite H1, H3.
      * intros _ k. congruence.
Qed.

Lemma includes_app_apart (repl p r : str) :
  apart repl p -> p <> [] -> includes r p = false -> includes (repl ++ r) p = false.
Proof.
  intros Hap Hp Hr. induction repl as [|c repl IH]; [exact Hr|].
  cbn [app]. rewrite includes_cons. rewrite IH.
  - rewrite orb_false_r. destruct p as [|x p]; [congruence|].
    cbn [starts_with]. destruct (Ascii.eqb x c) eqn:E; [|reflexivity].
    apply Ascii.eqb_eq in E. subst x. exfalso. apply (Hap c); now left.
  - intros x Hx. apply Hap. now right.
Qed.

(** After the replacement no occurrence of [p] is left, when the pattern
    matches wherever [p] begins and the replacement text shares no
    character with [p]. *)
Lemma includes_replace_all (m : bool -> str -> option nat) (repl p : str) :
  repl <> [] -> apart repl p -> p <> [] ->
  forall (s : str) (pw : bool) (skip : nat),
    (forall pre t, s = pre ++ t -> starts_with p t = true ->
       forall pw', exists k, m pw' t = Some (S k)) ->
    includes (replace_all m repl pw skip s) p = false.
Proof.
  intros Hr Hap Hp. induction s as [|x s IH]; intros pw skip Hcov.
  - now apply includes_nil.
  - assert (Hcov' : forall pre t, s = pre ++ t -> starts_with p t = true ->
              forall pw', exists k, m pw' t = Some (S k)).
    { intros pre t E. apply (Hcov (x :: pre)). now rewrite E. }
    cbn [replace_all]. destruct skip as [|k]; [|now apply IH].
    destruct (m pw (x :: s)) as [[|k]|] eqn:Em.
    + rewrite includes_cons, (IH _ _ Hcov'), orb_false_r.
      destruct (starts_with p (x :: replace_all m repl (is_word x) 0 s)) eqn:E;
        [|reflexivity].
      assert (E' : starts_with p (replace_all m repl pw 0 (x :: s)) = true).
      { cbn [replace_all]. now rewrite Em. }
      destruct (starts_with_replace_all m repl p Hr Hap _ _ E') as [H1 _].
      destruct (Hcov [] (x :: s) eq_refl H1 pw) as [k Hk]. congruence.
    + apply includes_app_apart; [exact Hap | exact Hp | now apply IH].
    + rewrite includes_cons, (IH _ _ Hcov'), orb_false_r.
      destruct (starts_with p (x :: replace_all m repl (is_word x) 0 s)) eqn:E;
        [|reflexivity].
      assert (E' : starts_with p (replace_all m repl pw 0 (x :: s)) = true).
      { cbn [replace_all]. now rewrite Em. }
      destruct (starts_with_replace_all m repl p Hr Hap _ _ E') as [H1 _].
      destruct (Hcov [] (x :: s) eq_refl H1 pw) as [k Hk]. congruence.
Qed.

Lemma includes_suffix_false (s pre t p : str) :
  includes s p = false -> s = pre ++ t -> starts_with p t = false.
Proof.
  intros H ->. destruct (starts_with p t) eqn:E; [|reflexivity].
  assert (includes (pre ++ t) p = true); [|congruence].
  apply includes_spec. apply starts_with_spec in E. destruct E as [post ->].
  now exists pre, post.
Qed.

(** A pattern that matches nowhere leaves the text as it is. *)
Lemma replace_all_nowhere (m : bool -> str -> option nat) (repl : str) :
  forall (s : str) (pw : bool),
    (forall pre t pw', s = pre ++ t -> m pw' t = None) ->
    replace_all m repl pw 0 s = s.
Proof.
  induction s as [|x s IH]; intros pw H; [reflexivity|].
  cbn [replace_all]. rewrite (H [] (x :: s) pw eq_refl). f_equal.
  apply IH. intros pre t pw' E. apply (H (x :: pre)). now rewrite E.
Qed.

(** ** Template renderer (lib/template-renderer.js) *)

Lemma literal_here_covers (p : str) (t : str) (pw : bool) :
  p <> [] -> starts_with p t = true ->
  exists k, TemplateRenderer.literal_here p pw t = Some (S k).
Proof.
  intros Hp H. unfold TemplateRenderer.literal_here. rewrite H.
  destruct p as [|c p]; [congruence|]. now exists (length p).
Qed.

Lemma braced_Some (alts : list str) (s name : str) (n : nat) :
  TemplateRenderer.braced alts s = Some (name, n) ->
  In name alts /\ starts_with (placeholder name) s = true /\ n = length name + 2.
Proof.
  induction alts as [|w alts IH]; cbn [TemplateRenderer.braced]; [discriminate|].
  change (lit "{" ++ w ++ lit "}") with (placeholder w).
  destruct (starts_with (placeholder w) s) eqn:E.
  - intros H. injection H as <- <-. cbn [In]. auto.
  - intros H. destruct (IH H) as [H1 H2]. cbn [In]. auto.
Qed.

Lemma braced_None (alts : list str) (s : str) :
  TemplateRenderer.braced alts s = None <->
  forall name, In name alts -> starts_with (placeholder name) s = false.
Proof.
  induction alts as [|w alts IH]; cbn [TemplateRenderer.braced In].
  - split; [intros _ name [] | reflexivity].
  - change (lit "{" ++ w ++ lit "}") with (placeholder w).
    destruct (starts_with (placeholder w) s) eqn:E.
    + split; [discriminate|]. intros H. rewrite (H w) in E by now left. discriminate.
    + rewrite IH. split.
      * intros H name [<-|Hin]; [exact E | now apply H].
      * intros H name Hin. apply H. now right.
Qed.

(** The test of the regular expression is the search for one of the
    placeholders. *)
Lemma test_from_includes (alts : list str) (s : str) :
  TemplateRenderer.test_from alts s
  = existsb (fun name => includes s (placeholder name)) alts.
Proof.
  induction s as [|c s IH].
  - cbn [TemplateRenderer.test_from].
    destruct (TemplateRenderer.braced alts []) as [[name n]|] eqn:E.
    + apply braced_Some in E. destruct E as [Hin [H _]]. symmetry.
      apply existsb_exists. exists name. split; [exact Hin|].
      cbn [includes]. now rewrite H.
    + symmetry. apply not_true_is_false. intros H. apply existsb_exists in H.
      destruct H as [name [Hin H]]. rewrite braced_None in E.
      cbn [includes] in H. rewrite (E name Hin) in H. discriminate.
  - cbn [TemplateRenderer.test_from].
    destruct (TemplateRenderer.braced alts (c :: s)) as [[name n]|] eqn:E.
    + apply braced_Some in E. destruct E as [Hin [H _]]. symmetry.
      apply existsb_exists. exists name. split; [exact Hin|].
      rewrite includes_cons. now rewrite H.
    + rewrite IH. rewrite braced_None in E.
      apply eq_true_iff_eq. rewrite !existsb_exists.
      split; intros [name [Hin H]]; exists name; (split; [exact Hin|]).
      * rewrite includes_cons, H. apply orb_true_r.
      * rewrite includes_cons, (E name Hin) in H. exact H.
Qed.

Lemma placeholder_chars (name : str) :
  In name TemplateRenderer.variableNames ->
  Forall (fun c => is_digit c = false /\ is_hyphen c = false) (placeholder name).
Proof.
  intros [<-|[<-|[]]]; repeat constructor.
Qed.

Lemma placeholder_nonempty (name : str) : placeholder name <> [].
Proof. discriminate. Qed.

(** Filling one variable leaves no placeholder of it, and adds no
    placeholder of another one. *)
Lemma fill_removes (name : str) (n : Z) (s : str) :
  In name TemplateRenderer.variableNames ->
  includes
    (replace_g (TemplateRenderer.literal_here (placeholder name)) (decimal n) s)
    (placeholder name) = false.
Proof.
  intros Hin. apply includes_replace_all.
  - apply decimal_nonempty.
  - apply decimal_apart. now apply placeholder_chars.
  - apply placeholder_nonempty.
  - intros pre t _ H pw'.
    apply literal_here_covers; [apply placeholder_nonempty | exact H].
Qed.

Lemma fill_adds_none (name other : str) (n : Z) (s : str) :
  In other TemplateRenderer.variableNames ->
  includes s (placeholder other) = false ->
  includes
    (replace_g (TemplateRenderer.literal_here (placeholder name)) (decimal n) s)
    (placeholder other) = false.
Proof.
  intros Hin Hs. apply includes_replace_all.
  - apply decimal_nonempty.
  - apply decimal_apart. now apply placeholder_chars.
  - apply placeholder_nonempty.
  - intros pre t E H pw'.
    rewrite (includes_suffix_false _ _ _ _ Hs E) in H. discriminate.
Qed.

Lemma fill_nothing (name : str) (repl s : str) :
  includes s (placeholder name) = false ->
  replace_g (TemplateRenderer.literal_here (placeholder name)) repl s = s.
Proof.
  intros Hs. apply replace_all_nowhere. intros pre t pw' E.
  unfold TemplateRenderer.literal_here.
  now rewrite (includes_suffix_false _ _ _ _ Hs E).
Qed.

Lemma hasTemplateVariables_includes (t : str) :
  TemplateRenderer.hasTemplateVariables (Some t)
  = includes t (placeholder (lit "totalCompanies"))
    || includes t (placeholder (lit "currentJobs")).
Proof.
  unfold TemplateRenderer.hasTemplateVariables. destruct t as [|c t]; [reflexivity|].
  cbn [truthy negb orEmpty]. rewrite test_from_includes.
  cbn [existsb TemplateRenderer.variableNames]. now rewrite orb_false_r.
Qed.

Lemma renderTemplate_steps (t : str) (vars : TemplateRenderer.Vars) :
  TemplateRenderer.renderTemplate t vars
  = let r :=
      match TemplateRenderer.totalCompanies vars with
      | Some n =>
          replace_g (TemplateRenderer.literal_here (placeholder (lit "totalCompanies")))
            (decimal n) t
      | None => t
      end in
    match TemplateRenderer.currentJobs vars with
    | Some n =>
        replace_g (TemplateRenderer.literal_here (placeholder (lit "currentJobs")))
          (decimal n) r
    | None => r
    end.
Proof.
  unfold TemplateRenderer.renderTemplate. destruct t as [|c t]; [|reflexivity].
  now destruct vars as [[a|] [b|]].
Qed.

(** X1.  Once both counts are given, [renderTemplate] leaves no
    placeholder in a template: [hasTemplateVariables] is false on the
    result and [renderConfigTemplates] returns description lines without
    placeholders, whatever the counts and the texts are. *)
Theorem renderTemplate_fills_all (t : str) (n m : Z) :
  TemplateRenderer.hasTemplateVariables
    (Some (TemplateRenderer.renderTemplate t (bothCounts n m))) = false
  /\ forall (R : Type) (config : TemplateRenderer.Config R),
       let rendered := TemplateRenderer.renderConfigTemplates config (bothCounts n m) in
       TemplateRenderer.hasTemplateVariables
         (TemplateRenderer.descriptionLine1 rendered) = false
       /\ TemplateRenderer.hasTemplateVariables
            (TemplateRenderer.descriptionLine2 rendered) = false
       /\ TemplateRenderer.rest rendered = TemplateRenderer.rest config.
Proof.
  assert (H : forall t, TemplateRenderer.hasTemplateVariables
            (Some (TemplateRenderer.renderTemplate t (bothCounts n m))) = false).
  { clear t. intros t. rewrite hasTemplateVariables_includes, renderTemplate_steps.
    cbn [bothCounts TemplateRenderer.totalCompanies TemplateRenderer.currentJobs].
    apply orb_false_iff. split.
    - apply fill_adds_none; [now left|]. apply fill_removes. now left.
    - apply fill_removes. right. now left. }
  split; [apply H|]. intros R [[l1|] [l2|] r]; cbv zeta;
    unfold TemplateRenderer.renderConfigTemplates;
    cbn [TemplateRenderer.descriptionLine1 TemplateRenderer.descriptionLine2
         TemplateRenderer.rest].
  - destruct l1 as [|c1 l1], l2 as [|c2 l2];
      cbn [truthy orEmpty TemplateRenderer.descriptionLine1
           TemplateRenderer.descriptionLine2 TemplateRenderer.rest];
      repeat split; try reflexivity; apply H.
  - destruct l1 as [|c1 l1];
      cbn [truthy orEmpty TemplateRenderer.descriptionLine1
           TemplateRenderer.descriptionLine2 TemplateRenderer.rest];
      repeat split; try reflexivity; apply H.
  - destruct l2 as [|c2 l2];
      cbn [truthy orEmpty TemplateRenderer.descriptionLine1
           TemplateRenderer.descriptionLine2 TemplateRenderer.rest];
      repeat split; try reflexivity; apply H.
  - repeat split; reflexivity.
Qed.

(** X2.  A template without placeholder is returned as it is, whatever
    the counts. *)
Theorem renderTemplate_static (t : str) (vars : TemplateRenderer.Vars) :
  TemplateRenderer.hasTemplateVariables (Some t) = false ->
  TemplateRenderer.renderTemplate t vars = t.
Proof.
  rewrite hasTemplateVariables_includes, renderTemplate_steps.
  intros H. apply orb_false_iff in H. destruct H as [H1 H2]. cbv zeta.
  destruct (TemplateRenderer.totalCompanies vars) as [a|],
           (TemplateRenderer.currentJobs vars) as [b|];
    rewrite ?(fill_nothing _ _ _ H1), ?(fill_nothing _ _ _ H2); reflexivity.
Qed.

Lemma renderTemplate_static_witness :
  TemplateRenderer.renderTemplate (lit "Static text, {braces} kept")
    (bothCounts 80 250) = lit "Static text, {braces} kept".
Proof.
  apply (renderTemplate_static (lit "Static text, {braces} kept") (bothCounts 80 250)).
  reflexivity.
Defined.

(** A placeholder begins with a brace and has no other opening brace. *)
Lemma placeholder_needs_brace (name : str) (c : ascii) (s : str) :
  is_char 123 c = false -> starts_with (placeholder name) (c :: s) = false.
Proof.
  intros H. cbn [placeholder lit list_ascii_of_string app starts_with].
  destruct (Ascii.eqb "{" c) eqn:E; [|reflexivity].
  apply Ascii.eqb_eq in E. subst c. discriminate.
Qed.

Lemma placeholders_differ (name other : str) (s : str) :
  In name TemplateRenderer.variableNames ->
  In other TemplateRenderer.variableNames ->
  starts_with (placeholder name) s = true ->
  starts_with (placeholder other) s = true -> name = other.
Proof.
  intros [<-|[<-|[]]] [<-|[<-|[]]] H1 H2; try reflexivity; exfalso;
    apply starts_with_spec in H1, H2; destruct H1 as [p1 ->], H2 as [p2 H2];
    discriminate.
Qed.

Lemma placeholder_tail (name : str) (s : str) :
  In name TemplateRenderer.variableNames ->
  starts_with (placeholder name) s = true ->
  exists c s', s = c :: s'
    /\ Forall (fun x => is_char 123 x = false) (firstn (length name + 2 - 1) s').
Proof.
  intros Hin H. apply starts_with_spec in H. destruct H as [post ->].
  exists "{"%char, ((name ++ lit "}") ++ post). split; [reflexivity|].
  replace (length name + 2 - 1) with (length (name ++ lit "}"))
    by (rewrite length_app; simpl; lia).
  rewrite firstn_app, firstn_all, Nat.sub_diag. cbn [firstn].
  rewrite app_nil_r.
  destruct Hin as [<-|[<-|[]]]; repeat constructor.
Qed.

Lemma Contains_skip (name : str) (c : ascii) (s : str) :
  starts_with (placeholder name) (c :: s) = false ->
  (Contains (placeholder name) (c :: s) <-> Contains (placeholder name) s).
Proof.
  intros H. rewrite Contains_cons, H. split; [intros [E|E]|]; auto. discriminate.
Qed.

Lemma NoDup_add (name : str) (l : list str) :
  NoDup l -> NoDup (if mem name l then l else l ++ [name]).
Proof.
  intros H. destruct (mem name l) eqn:E; [exact H|].
  assert (Hn : ~ In name l).
  { intros Hin. apply mem_In in Hin. congruence. }
  clear E. induction H as [|x l Hx Hl IH]; simpl.
  - constructor; [tauto|constructor].
  - constructor.
    + rewrite in_app_iff. simpl. intros [Hin|[->|[]]]; [tauto|].
      apply Hn. now left.
    + apply IH. intros Hin. apply Hn. now right.
Qed.

Lemma In_add (name x : str) (l : list str) :
  In x (if mem name l then l else l ++ [name]) <-> In x l \/ x = name.
Proof.
  destruct (mem name l) eqn:E.
  - apply mem_In in E. split; [tauto|]. intros [H| ->]; assumption.
  - rewrite in_app_iff. simpl. split; [intros [H|[H|[]]]|intros [H|H]]; auto.
Qed.

(** The names the loop collects: those it had, and those whose
    placeholder occurs in the text still to scan. *)
Lemma exec_loop_spec (s : str) :
  forall (skip : nat) (matches : list str),
    NoDup matches ->
    Forall (fun x => is_char 123 x = false) (firstn skip s) ->
    NoDup (TemplateRenderer.exec_loop skip s matches)
    /\ forall name,
         In name (TemplateRenderer.exec_loop skip s matches) <->
         In name matches
         \/ (In name TemplateRenderer.variableNames /\ Contains (placeholder name) s).
Proof.
  induction s as [|c s IH]; intros skip matches Hnd Hsk.
  - cbn [TemplateRenderer.exec_loop]. split; [exact Hnd|]. intros name. split; [auto|].
    intros [H|[_ H]]; [exact H|]. apply includes_spec in H.
    rewrite includes_nil in H by apply placeholder_nonempty. discriminate.
  - cbn [TemplateRenderer.exec_loop]. destruct skip as [|k].
    + destruct (TemplateRenderer.braced TemplateRenderer.variableNames (c :: s))
        as [[name0 n]|] eqn:E.
      * apply braced_Some in E. destruct E as [Hin0 [Hst ->]].
        destruct (placeholder_tail _ _ Hin0 Hst) as [c' [s' [Es Hfree]]].
        injection Es as <- <-.
        destruct (IH (length name0 + 2 - 1) _ (NoDup_add name0 _ Hnd) Hfree)
          as [H1 H2].
        split; [exact H1|]. intros name. rewrite H2, In_add, Contains_cons.
        split.
        -- intros [[H| ->]|[Hin H]]; auto.
        -- intros [H|[Hin [H|H]]]; auto.
           left. right. exact (placeholders_differ _ _ _ Hin Hin0 H Hst).
      * rewrite braced_None in E.
        destruct (IH 0 matches Hnd (Forall_nil _)) as [H1 H2].
        split; [exact H1|]. intros name. rewrite H2. split.
        -- intros [H|[Hin H]]; auto. right. split; [exact Hin|].
           apply Contains_cons. now right.
        -- intros [H|[Hin H]]; auto. right. split; [exact Hin|].
           now apply (Contains_skip _ _ _ (E name Hin)).
    + cbn [firstn] in Hsk. inversion Hsk as [|? ? Hc Hk]; subst.
      destruct (IH k matches Hnd Hk) as [H1 H2].
      split; [exact H1|]. intros name. rewrite H2.
      pose proof (Contains_skip name c s (placeholder_needs_brace name c s Hc)).
      tauto.
Qed.

(** X3.  [extractTemplateVariables] lists exactly the variables whose
    placeholder occurs in the text, each once, and it is empty exactly
    where [hasTemplateVariables] is false. *)
Theorem extractTemplateVariables_exact (t : str) :
  let found := TemplateRenderer.extractTemplateVariables (Some t) in
  NoDup found
  /\ (forall name,
        In name found <->
        In name TemplateRenderer.variableNames /\ Contains (placeholder name) t)
  /\ (TemplateRenderer.hasTemplateVariables (Some t) = false <-> found = []).
Proof.
  cbv zeta.
  assert (H : NoDup (TemplateRenderer.extractTemplateVariables (Some t))
    /\ forall name,
        In name (TemplateRenderer.extractTemplateVariables (Some t)) <->
        In name TemplateRenderer.variableNames /\ Contains (placeholder name) t).
  { unfold TemplateRenderer.extractTemplateVariables. destruct t as [|c t].
    - cbn [truthy negb]. split; [constructor|]. intros name. split; [intros []|].
      intros [_ H]. apply includes_spec in H.
      rewrite includes_nil in H by apply placeholder_nonempty. discriminate.
    - cbn [truthy negb orEmpty].
      destruct (exec_loop_spec (c :: t) 0 [] (NoDup_nil _) (Forall_nil _)) as [H1 H2].
      split; [exact H1|]. intros name. rewrite H2. cbn [In]. tauto. }
  destruct H as [H1 H2]. split; [exact H1|]. split; [exact H2|].
  rewrite hasTemplateVariables_includes, orb_false_iff. split.
  - intros [Ha Hb].
    destruct (TemplateRenderer.extractTemplateVariables (Some t)) as [|x l];
      [reflexivity|]. exfalso.
    destruct (proj1 (H2 x) (or_introl eq_refl)) as [Hin Hc].
    apply includes_spec in Hc. destruct Hin as [<-|[<-|[]]]; congruence.
  - intros E. rewrite E in H2. split; apply not_true_is_false; intros Hc;
      apply includes_spec in Hc.
    + apply (proj2 (H2 (lit "totalCompanies"))). split; [now left | exact Hc].
    + apply (proj2 (H2 (lit "currentJobs"))). split; [right; now left | exact Hc].
Qed.

(** ** The sanitising chain *)

Lemma word_not_hyphen (c : ascii) : is_word c = true -> is_hyphen c = false.
Proof. each_char c; vm_compute; intros H; try discriminate H; reflexivity. Qed.

Lemma squeeze_single_hyphens (s : str) :
  Forall (fun c => is_word c = true \/ is_hyphen c = true) s ->
  forall b, single_hyphens b (squeeze_from is_hyphen "-" b s) = true.
Proof.
  induction 1 as [|c s Hc Hs IH]; intros b; [reflexivity|].
  cbn [squeeze_from]. destruct (is_hyphen c) eqn:E.
  - destruct b; [apply IH|]. cbn [single_hyphens].
    change (is_hyphen "-") with true. cbn [negb andb]. apply IH.
  - cbn [single_hyphens]. rewrite E. destruct Hc as [Hc|Hc]; [|congruence].
    rewrite Hc. apply IH.
Qed.

Lemma word_runs_cons (c : ascii) (s : str) :
  word_runs (c :: s) =
    if is_hyphen c then
      match s with
      | d :: _ => is_word d && word_runs s
      | [] => false
      end
    else is_word c && word_runs s.
Proof. reflexivity. Qed.

Lemma single_hyphens_word_runs (s : str) :
  forall b, single_hyphens b s = true -> word_runs (drop_final is_hyphen s) = true.
Proof.
  induction s as [|c s IH]; intros b H; [reflexivity|].
  rewrite drop_final_cons. cbn [single_hyphens] in H. destruct s as [|d s].
  - destruct (is_hyphen c) eqn:E; [reflexivity|].
    cbn [word_runs]. rewrite E. apply andb_true_iff in H. destruct H as [H _].
    now rewrite H.
  - destruct (is_hyphen c) eqn:E.
    + apply andb_true_iff in H. destruct H as [_ H].
      pose proof (IH _ H) as Hr. cbn [single_hyphens] in H.
      destruct (is_hyphen d) eqn:Ed; [discriminate|].
      apply andb_true_iff in H. destruct H as [Hd _].
      rewrite drop_final_keep in * by exact Ed.
      rewrite word_runs_cons, E. now rewrite Hd, Hr.
    + apply andb_true_iff in H. destruct H as [Hc H].
      rewrite word_runs_cons, E, Hc. cbn [andb]. exact (IH _ H).
Qed.

Lemma single_hyphens_sanitised (s : str) :
  single_hyphens true s = true -> sanitised (drop_final is_hyphen s) = true.
Proof.
  intros H. pose proof (single_hyphens_word_runs s true H) as Hr.
  destruct s as [|c s]; [reflexivity|].
  cbn [single_hyphens] in H. destruct (is_hyphen c) eqn:E; [discriminate|].
  apply andb_true_iff in H. destruct H as [Hc _].
  rewrite drop_final_keep in * by exact E.
  unfold sanitised. now rewrite Hc, Hr.
Qed.

Lemma strip_edge_sanitised (s : str) :
  single_hyphens false s = true -> sanitised (strip_edge_hyphens s) = true.
Proof.
  intros H. unfold strip_edge_hyphens. destruct s as [|c s]; [reflexivity|].
  cbn [single_hyphens] in H. destruct (is_hyphen c) eqn:E.
  - apply single_hyphens_sanitised. exact H.
  - apply single_hyphens_sanitised. cbn [single_hyphens]. now rewrite E.
Qed.

Lemma replace_class_chars (p : ascii -> bool) (r : ascii) (P : ascii -> Prop)
  (s : str) :
  P r -> (forall c, p c = false -> P c) -> Forall P (replace_class p r s).
Proof.
  intros Hr Hp. unfold replace_class. induction s as [|c s IH]; simpl; constructor;
    [|exact IH].
  destruct (p c) eqn:E; [exact Hr | now apply Hp].
Qed.

(** The chain returns a sanitised text. *)
Lemma slug_sanitised (s : str) : sanitised (slug s) = true.
Proof.
  unfold slug. apply strip_edge_sanitised. apply squeeze_single_hyphens.
  apply replace_class_chars; [now right|].
  intros c H. apply negb_false_iff, orb_true_iff in H. exact H.
Qed.

Lemma slug_strict_sanitised (s : str) : sanitised (slug_strict s) = true.
Proof.
  unfold slug_strict. apply strip_edge_sanitised. apply squeeze_single_hyphens.
  apply replace_class_chars; [now right|].
  intros c H. apply negb_false_iff in H. now left.
Qed.

Lemma word_runs_chars (s : str) :
  word_runs s = true ->
  Forall (fun c => is_word c = true \/ is_hyphen c = true) s.
Proof.
  induction s as [|c s IH]; intros H; constructor.
  - rewrite word_runs_cons in H. destruct (is_hyphen c); [now right|].
    apply andb_true_iff in H. now left.
  - apply IH. rewrite word_runs_cons in H. destruct (is_hyphen c).
    + destruct s as [|d s]; [discriminate|]. now apply andb_true_iff in H.
    + now apply andb_true_iff in H.
Qed.

Lemma word_runs_single (s : str) : word_runs s = true -> ~ Contains (lit "--") s.
Proof.
  induction s as [|c s IH]; intros H Hc.
  - apply includes_spec in Hc. discriminate.
  - apply Contains_cons in Hc. rewrite word_runs_cons in H. destruct Hc as [Hc|Hc].
    + apply starts_with_spec in Hc. destruct Hc as [post Hc].
      injection Hc as -> ->. discriminate.
    + apply IH; [|exact Hc]. destruct (is_hyphen c).
      * destruct s as [|d s]; [discriminate|]. now apply andb_true_iff in H.
      * now apply andb_true_iff in H.
Qed.

Lemma word_runs_last (s s' : str) : word_runs s = true -> s <> s' ++ lit "-".
Proof.
  revert s'. induction s as [|c s IH]; intros s' H E.
  - destruct s'; discriminate.
  - rewrite word_runs_cons in H. destruct s' as [|c' s'].
    + injection E as -> ->. discriminate.
    + injection E as -> E. apply (IH s'); [|exact E].
      destruct (is_hyphen c').
      * destruct s as [|d s]; [discriminate|]. now apply andb_true_iff in H.
      * now apply andb_true_iff in H.
Qed.

(** The executable test implies the four properties, and back. *)
Lemma sanitised_Sanitised (s : str) : sanitised s = true <-> Sanitised s.
Proof.
  split.
  - intros H. assert (Hr : word_runs s = true).
    { destruct s; [reflexivity|]. now apply andb_true_iff in H. }
    split.
    + now apply word_runs_chars.
    + now apply word_runs_single.
    + intros s' E. subst s. cbn in H. discriminate.
    + intros s'. now apply word_runs_last.
  - intros [Hc Hs Hf Hl].
    assert (Hr : word_runs s = true).
    { clear Hf. induction s as [|c s IH]; [reflexivity|].
      inversion Hc as [|? ? Hc0 Hc']; subst.
      assert (IH' : word_runs s = true).
      { apply IH; [exact Hc'| |].
        - intros Hx. apply Hs. apply Contains_cons. now right.
        - intros s' E. apply (Hl (c :: s')). now rewrite E. }
      cbn [word_runs]. destruct (is_hyphen c) eqn:E.
      - destruct s as [|d s].
        + exfalso. apply (Hl []). f_equal.
          clear - E. each_char c; vm_compute in E; try discriminate E; reflexivity.
        + rewrite IH', andb_true_r. inversion Hc' as [|? ? Hd _]; subst.
          destruct Hd as [Hd|Hd]; [exact Hd|]. exfalso. apply Hs.
          assert (c = "-"%char) as ->
            by (clear - E; each_char c; vm_compute in E; try discriminate E; reflexivity).
          assert (d = "-"%char) as ->
            by (clear - Hd; each_char d; vm_compute in Hd; try discriminate Hd; reflexivity).
          exists [], s. reflexivity.
      - destruct Hc0 as [Hc0|Hc0]; [|congruence]. now rewrite Hc0, IH'. }
    destruct s as [|c s]; [reflexivity|]. unfold sanitised. rewrite Hr, andb_true_r.
    inversion Hc as [|? ? Hc0 _]; subst. destruct Hc0 as [Hc0|Hc0]; [exact Hc0|].
    exfalso. apply (Hf s). f_equal.
    clear - Hc0. each_char c; vm_compute in Hc0; try discriminate Hc0; reflexivity.
Qed.

(** On a sanitised text the chain changes nothing. *)
Lemma squeeze_word_runs (s : str) :
  word_runs s = true ->
  forall b,
    b && match s with c :: _ => is_hyphen c | [] => false end = false ->
    squeeze_from is_hyphen "-" b s = s.
Proof.
  induction s as [|c s IH]; intros H b Hb; [reflexivity|].
  rewrite word_runs_cons in H. cbn [squeeze_from]. destruct (is_hyphen c) eqn:E.
  - rewrite andb_true_r in Hb. subst b.
    destruct s as [|d s]; [discriminate|].
    apply andb_true_iff in H. destruct H as [Hd H].
    assert (c = "-"%char) as ->
      by (clear - E; each_char c; vm_compute in E; try discriminate E; reflexivity).
    f_equal. apply (IH H). now rewrite (word_not_hyphen _ Hd).
  - apply andb_true_iff in H. destruct H as [_ H].
    f_equal. now apply (IH H).
Qed.

Lemma drop_final_word_runs (s : str) :
  word_runs s = true -> drop_final is_hyphen s = s.
Proof.
  intros H. destruct (drop_final_cases is_hyphen s) as [E|[c [Hc E]]]; [exact E|].
  exfalso. apply (word_runs_last s (drop_final is_hyphen s) H).
  rewrite E at 1. f_equal. f_equal.
  clear - Hc. each_char c; vm_compute in Hc; try discriminate Hc; reflexivity.
Qed.

Lemma replace_class_fixed (p : ascii -> bool) (r : ascii) (s : str) :
  Forall (fun c => p c = false) s -> replace_class p r s = s.
Proof.
  unfold replace_class. induction 1 as [|c s Hc Hs IH]; [reflexivity|].
  simpl. now rewrite Hc, IH.
Qed.

Lemma slug_fixed (s : str) : sanitised s = true -> slug s = s.
Proof.
  intros H. assert (Hr : word_runs s = true).
  { destruct s; [reflexivity|]. now apply andb_true_iff in H. }
  unfold slug.
  assert (E1 : replace_class (fun c => negb (is_word c || is_hyphen c)) "-" s = s).
  { apply replace_class_fixed.
    eapply Forall_impl; [|apply (word_runs_chars s Hr)].
    intros c [Hc|Hc]; rewrite Hc, ?orb_true_r; reflexivity. }
  rewrite E1. unfold squeeze. rewrite (squeeze_word_runs s Hr false eq_refl).
  destruct s as [|c s]; [reflexivity|].
  unfold strip_edge_hyphens. unfold sanitised in H.
  apply andb_true_iff in H. destruct H as [Hc _].
  rewrite (word_not_hyphen _ Hc). now apply drop_final_word_runs.
Qed.

(** X4.  [migrateOldJobId] returns a sanitised id (word characters and
    single hyphens, no hyphen at either end) and is idempotent: an id that
    is migrated already is left as it is. *)
Theorem migrateOldJobId_idempotent (oldId : str) :
  Sanitised (Utils.migrateOldJobId oldId)
  /\ Utils.migrateOldJobId (Utils.migrateOldJobId oldId)
     = Utils.migrateOldJobId oldId.
Proof.
  unfold Utils.migrateOldJobId. split.
  - apply sanitised_Sanitised, slug_sanitised.
  - apply slug_fixed, slug_sanitised.
Qed.

(** ** The characters of the generated ids *)

Lemma lower_char_not_upper (c : ascii) : is_upper (lower_char c) = false.
Proof. each_char c; reflexivity. Qed.

Lemma toLowerCase_not_upper (s : str) :
  Forall (fun c => is_upper c = false) (toLowerCase s).
Proof.
  unfold toLowerCase. induction s as [|c s IH]; simpl; constructor;
    [apply lower_char_not_upper | exact IH].
Qed.

Lemma id_char_spec (c : ascii) :
  is_upper c = false -> is_word c = true \/ is_hyphen c = true -> id_char c = true.
Proof.
  intros Hu H. each_char c; vm_compute in Hu, H |- *;
    try reflexivity; try discriminate Hu; destruct H as [H|H]; discriminate H.
Qed.

Section Keeps.

(** Steps of the normalising chains keep a property that every character
    of the text has. *)
Variable P : ascii -> Prop.

Lemma squeeze_from_keeps (p : ascii -> bool) (r : ascii) (s : str) :
  P r -> Forall P s -> forall b, Forall P (squeeze_from p r b s).
Proof.
  intros Hr. induction 1 as [|c s Hc Hs IH]; intros b; simpl; [constructor|].
  destruct (p c); [destruct b|]; auto.
Qed.

Lemma replace_class_keeps (p : ascii -> bool) (r : ascii) (s : str) :
  P r -> Forall P s -> Forall P (replace_class p r s).
Proof.
  intros Hr. unfold replace_class. induction 1 as [|c s Hc Hs IH]; simpl; constructor;
    [now destruct (p c) | exact IH].
Qed.

Lemma drop_final_keeps (p : ascii -> bool) (s : str) :
  Forall P s -> Forall P (drop_final p s).
Proof.
  induction 1 as [|c s Hc Hs IH]; [constructor|].
  rewrite drop_final_cons. destruct s as [|d s].
  - destruct (p c); auto.
  - auto.
Qed.

Lemma strip_edge_hyphens_keeps (s : str) :
  Forall P s -> Forall P (strip_edge_hyphens s).
Proof.
  intros H. unfold strip_edge_hyphens. destruct s as [|c s]; [constructor|].
  destruct (is_hyphen c).
  - inversion H; subst. now apply drop_final_keeps.
  - now apply drop_final_keeps.
Qed.

Lemma slug_keeps (s : str) : P "-"%char -> Forall P s -> Forall P (slug s).
Proof.
  intros Hh H. unfold slug. apply strip_edge_hyphens_keeps.
  apply squeeze_from_keeps; [exact Hh|]. now apply replace_class_keeps.
Qed.

Lemma slug_strict_keeps (s : str) : P "-"%char -> Forall P s -> Forall P (slug_strict s).
Proof.
  intros Hh H. unfold slug_strict. apply strip_edge_hyphens_keeps.
  apply squeeze_from_keeps; [exact Hh|]. now apply replace_class_keeps.
Qed.

Lemma trimStart_keeps (s : str) : Forall P s -> Forall P (trimStart s).
Proof.
  induction 1 as [|c s Hc Hs IH]; simpl; [constructor|].
  destruct (is_space c); auto.
Qed.

Lemma trimEnd_keeps (s : str) : Forall P s -> Forall P (trimEnd s).
Proof.
  induction 1 as [|c s Hc Hs IH]; simpl; [constructor|].
  destruct (trimEnd s) as [|d r]; [destruct (is_space c)|]; auto.
Qed.

Lemma trim_keeps (s : str) : Forall P s -> Forall P (trim s).
Proof. intros H. unfold trim. now apply trimEnd_keeps, trimStart_keeps. Qed.

Lemma strip_suffix_keeps (ci : bool) (alts : list str) (s : str) :
  Forall P s -> Forall P (strip_suffix ci alts s).
Proof.
  induction 1 as [|c s Hc Hs IH]; [constructor|].
  cbn [strip_suffix]. destruct (suffix_here ci alts (c :: s)); auto.
Qed.

Lemma replace_all_keeps (m : bool -> str -> option nat) (repl : str) (s : str) :
  Forall P repl -> Forall P s -> forall pw k, Forall P (replace_all m repl pw k s).
Proof.
  intros Hr. induction 1 as [|c s Hc Hs IH]; intros pw k; simpl; [constructor|].
  destruct k as [|k]; [|apply IH].
  destruct (m pw (c :: s)) as [[|n]|]; auto.
  apply Forall_app. split; [exact Hr | apply IH].
Qed.

End Keeps.

Lemma slug_id_chars (s : str) :
  Forall (fun c => is_upper c = false) s ->
  Forall (fun c => id_char c = true) (slug s).
Proof.
  intros H.
  pose proof (slug_keeps (fun c => is_upper c = false) s eq_refl H) as Hu.
  pose proof (word_runs_chars (slug s)) as Hw.
  assert (Hr : word_runs (slug s) = true).
  { pose proof (slug_sanitised s) as Hs. destruct (slug s); [reflexivity|].
    now apply andb_true_iff in Hs. }
  specialize (Hw Hr). rewrite Forall_forall in *. intros c Hc.
  apply id_char_spec; auto.
Qed.

Lemma slug_strict_id_chars (s : str) :
  Forall (fun c => is_upper c = false) s ->
  Forall (fun c => id_char c = true) (slug_strict s).
Proof.
  intros H.
  pose proof (slug_strict_keeps (fun c => is_upper c = false) s eq_refl H) as Hu.
  pose proof (word_runs_chars (slug_strict s)) as Hw.
  assert (Hr : word_runs (slug_strict s) = true).
  { pose proof (slug_strict_sanitised s) as Hs. destruct (slug_strict s); [reflexivity|].
    now apply andb_true_iff in Hs. }
  specialize (Hw Hr). rewrite Forall_forall in *. intros c Hc.
  apply id_char_spec; auto.
Qed.

Lemma fallbackId_lower (job : JobProcessor.Job) :
  Forall (fun c => is_upper c = false)
    (squeeze is_space "-" (toLowerCase (orEmpty (JobProcessor.employer_name job)))
     ++ lit "-"
     ++ squeeze is_space "-" (toLowerCase (orEmpty (JobProcessor.job_title job)))
     ++ lit "-"
     ++ squeeze is_space "-" (toLowerCase (orEmpty (JobProcessor.job_city job)))).
Proof.
  repeat (apply Forall_app; split);
    try (apply squeeze_from_keeps; [reflexivity | apply toLowerCase_not_upper]);
    repeat constructor.
Qed.

(** X5.  Every id [generateJobId] of lib/job-processor.js returns, from
    the apply URL or from the fallback, is made of lower-case letters,
    digits, underscores and single hyphens, with no hyphen at either end;
    [migrateOldJobId] leaves such an id as it is. *)
Theorem generateJobId_sanitised (URL_parse : str -> option URL)
  (job : JobProcessor.Job) :
  let i := JobProcessor.generateJobId URL_parse job in
  Sanitised i
  /\ Forall (fun c => id_char c = true) i
  /\ Utils.migrateOldJobId i = i.
Proof.
  cbv zeta.
  assert (H : sanitised (JobProcessor.generateJobId URL_parse job) = true
              /\ Forall (fun c => id_char c = true)
                   (JobProcessor.generateJobId URL_parse job)).
  { unfold JobProcessor.generateJobId.
    assert (Hf : sanitised (JobProcessor.fallbackId job) = true
                 /\ Forall (fun c => id_char c = true) (JobProcessor.fallbackId job)).
    { unfold JobProcessor.fallbackId. split; [apply slug_sanitised|].
      apply slug_id_chars, fallbackId_lower. }
    destruct (truthy (JobProcessor.job_apply_link job)); [|exact Hf].
    destruct (URL_parse _) as [u|]; [|exact Hf].
    unfold JobProcessor.urlId. split; [apply slug_strict_sanitised|].
    apply slug_strict_id_chars, toLowerCase_not_upper. }
  destruct H as [H1 H2]. split; [now apply sanitised_Sanitised|].
  split; [exact H2|]. now apply slug_fixed.
Qed.


Lemma lit_lower (w : string) :
  forallb (fun c => negb (is_upper c)) (lit w) = true ->
  Forall (fun c => is_upper c = false) (lit w).
Proof.
  intros H. apply Forall_forallb in H. eapply Forall_impl; [|exact H].
  intros c Hc. now apply negb_true_iff.
Qed.

Lemma replace_words_lower (ci : bool) (alts : list str) (w : string) (s : str) :
  forallb (fun c => negb (is_upper c)) (lit w) = true ->
  Forall (fun c => is_upper c = false) s ->
  Forall (fun c => is_upper c = false) (replace_words ci alts (lit w) s).
Proof.
  intros Hw Hs. unfold replace_words, replace_g.
  apply replace_all_keeps; [now apply lit_lower | exact Hs].
Qed.

(** The three parts of the enhanced id, before the sanitising chain. *)
Lemma generateEnhancedId_parts (job : Utils.Job) :
  exists company title city,
    Utils.generateEnhancedId job
    = slug company ++ lit "-" ++ slug title ++ lit "-" ++ slug city
    /\ Forall (fun c => is_upper c = false) company
    /\ Forall (fun c => is_upper c = false) title
    /\ Forall (fun c => is_upper c = false) city.
Proof.
  unfold Utils.generateEnhancedId.
  eexists _, _, _. split; [reflexivity|]. split; [|split].
  - apply squeeze_from_keeps; [reflexivity|].
    apply replace_all_keeps; [repeat constructor|].
    repeat apply strip_suffix_keeps.
    apply trim_keeps, toLowerCase_not_upper.
  - apply squeeze_from_keeps; [reflexivity|].
    repeat (apply replace_words_lower; [reflexivity|]).
    apply trim_keeps, toLowerCase_not_upper.
  - apply squeeze_from_keeps; [reflexivity|].
    destruct (Utils.firstLocation job); apply trim_keeps, toLowerCase_not_upper.
Qed.

(** X6.  [generateJobId] of lib/utils.js returns only lower-case letters,
    digits, underscores and hyphens, from the URL and from the fallback
    alike.  The fallback [generateEnhancedId] is three sanitised parts
    (company, title, city) joined by hyphens, so it holds two hyphens at
    least; a part may be empty. *)
Theorem utils_generateJobId_chars (URL_parse : str -> option URL)
  (job : Utils.Job) :
  Forall (fun c => id_char c = true) (Utils.generateJobId URL_parse job)
  /\ Forall (fun c => id_char c = true) (Utils.generateEnhancedId job)
  /\ exists company title city,
       Utils.generateEnhancedId job
       = company ++ lit "-" ++ title ++ lit "-" ++ city
       /\ Sanitised company /\ Sanitised title /\ Sanitised city.
Proof.
  destruct (generateEnhancedId_parts job) as [c [t [l [E [Hc [Ht Hl]]]]]].
  assert (He : Forall (fun c => id_char c = true) (Utils.generateEnhancedId job)).
  { rewrite E. repeat (apply Forall_app; split);
      try (now apply slug_id_chars); repeat constructor. }
  split; [|split; [exact He|]].
  - unfold Utils.generateJobId, Utils.generateJobIdFromUrl.
    destruct (truthy _); [|exact He].
    destruct (URL_parse _) as [u|]; [|exact He].
    unfold Utils.urlId. apply slug_strict_id_chars, toLowerCase_not_upper.
  - exists (slug c), (slug t), (slug l). split; [exact E|].
    repeat split; apply sanitised_Sanitised, slug_sanitised.
Qed.

(** ** Ages as text (lib/utils.js) *)

Lemma parseInt_acc (d : Decimal.uint) (acc : positive) :
  fold_left (fun a c => (10 * a + Utils.digit_value c)%N)
    (lit (NilEmpty.string_of_uint d)) (Npos acc)
  = Npos (Pos.of_uint_acc d acc).
Proof.
  revert acc. induction d; intros acc; cbn [NilEmpty.string_of_uint lit
    list_ascii_of_string fold_left Pos.of_uint_acc]; [reflexivity| ..];
    fold (lit (NilEmpty.string_of_uint d)); rewrite <- IHd; f_equal;
    set (v := Utils.digit_value _); vm_compute in v; subst v; lia.
Qed.

Lemma parseInt_of_uint (d : Decimal.uint) :
  Utils.parseInt (lit (NilEmpty.string_of_uint d)) = Pos.of_uint d.
Proof.
  unfold Utils.parseInt.
  induction d; cbn [NilEmpty.string_of_uint lit list_ascii_of_string fold_left
    Pos.of_uint]; [reflexivity| | ..];
    fold (lit (NilEmpty.string_of_uint d));
    try (rewrite <- parseInt_acc; f_equal).
  exact IHd.
Qed.

(** Printing a count and reading it back. *)
Lemma parseInt_decimal (n : Z) : (0 <= n)%Z -> Utils.parseInt (decimal n) = Z.to_N n.
Proof.
  intros Hn. unfold decimal. destruct n as [|p|p]; [reflexivity| |lia].
  cbn [Z.to_int NilEmpty.string_of_int Z.to_N].
  rewrite parseInt_of_uint. apply DecimalPos.Unsigned.of_to.
Qed.

Lemma decimal_digits (n : Z) : (0 <= n)%Z -> all_digits (decimal n).
Proof.
  intros Hn. unfold all_digits, decimal. apply Forall_forallb.
  destruct n as [|p|p]; [repeat constructor| |lia].
  apply string_of_uint_digits.
Qed.

Section AgeFacts.

Variable Date_parse : str -> option Z.
Variable now : Z.

#[local] Abbreviation older := (Utils.isJobOlderThanWeek Date_parse now).
#[local] Abbreviation ago := (Utils.formatTimeAgo Date_parse now).

Lemma older_units (n : Z) :
  (0 <= n)%Z ->
  older (Some (decimal n ++ lit "h")) = (336 <=? n)%Z
  /\ older (Some (decimal n ++ lit "d")) = (14 <=? n)%Z
  /\ older (Some (decimal n ++ lit "w")) = (2 <=? n)%Z.
Proof.
  intros Hn.
  destruct (isJobOlderThanWeek_units Date_parse now (decimal n)
              (decimal_nonempty n) (decimal_digits n Hn)) as [Hh [Hd Hw]].
  rewrite Hh, Hd, Hw, parseInt_decimal by exact Hn.
  repeat split; apply eq_true_iff_eq;
    rewrite N.leb_le, Z.leb_le; lia.
Qed.

(** X7.  The forms of [formatTimeAgo]: "Recently" without a date, "NaNmo"
    for a date that cannot be read, and for a date that is not in the
    future a count with its unit: hours below 24, days from 1 to 6, weeks
    from 1 to 4, months from 1 on. *)
Theorem formatTimeAgo_forms (dateString : option str) :
  (truthy dateString = false -> ago dateString = lit "Recently")
  /\ (truthy dateString = true -> Date_parse (orEmpty dateString) = None ->
      ago dateString = lit "NaNmo")
  /\ (forall date,
        truthy dateString = true ->
        Date_parse (orEmpty dateString) = Some date ->
        (date <= now)%Z ->
        exists n : Z,
          (ago dateString = decimal n ++ lit "h" /\ (0 <= n < 24)%Z)
          \/ (ago dateString = decimal n ++ lit "d" /\ (1 <= n < 7)%Z)
          \/ (ago dateString = decimal n ++ lit "w" /\ (1 <= n <= 4)%Z)
          \/ (ago dateString = decimal n ++ lit "mo" /\ (1 <= n)%Z)).
Proof.
  unfold Utils.formatTimeAgo. split; [|split].
  - intros ->. reflexivity.
  - intros -> ->. reflexivity.
  - intros date -> -> Hd. cbn [negb].
    set (h := ((now - date) / (1000 * 60 * 60))%Z).
    assert (Hh : (0 <= h)%Z) by (apply Z.div_pos; lia).
    destruct (h <? 24)%Z eqn:E24.
    + apply Z.ltb_lt in E24. exists h. left. split; [reflexivity | lia].
    + apply Z.ltb_ge in E24.
      assert (H1 : (1 <= h / 24)%Z) by (apply Z.div_le_lower_bound; lia).
      destruct (h / 24 =? 1)%Z eqn:E1.
      * exists 1%Z. right. left. split; [reflexivity | lia].
      * destruct (h / 24 <? 7)%Z eqn:E7.
        -- apply Z.ltb_lt in E7. exists (h / 24)%Z. right. left.
           split; [reflexivity | lia].
        -- apply Z.ltb_ge in E7. destruct (h / 24 <? 30)%Z eqn:E30.
           ++ apply Z.ltb_lt in E30. exists (h / 24 / 7)%Z. right. right. left.
              split; [reflexivity|]. split.
              ** apply Z.div_le_lower_bound; lia.
              ** apply Z.lt_succ_r. apply Z.div_lt_upper_bound; lia.
           ++ apply Z.ltb_ge in E30. exists (h / 24 / 30)%Z. right. right. right.
              split; [reflexivity|]. apply Z.div_le_lower_bound; lia.
Qed.

(** X8.  For a date that is not in the future and whose age in full days
    is below 30 (at 30 full days [formatTimeAgo] turns to months), the
    age filter gives the same answer on the text [formatTimeAgo] prints
    as on the date itself: stale exactly from 14 full days on. *)
Theorem formatTimeAgo_then_filter (dateString : str) (date : Z) :
  dateString <> [] ->
  Date_parse dateString = Some date ->
  (date <= now)%Z ->
  ((now - date) / (1000 * 60 * 60 * 24) < 30)%Z ->
  older (Some (ago (Some dateString)))
    = (14 <=? (now - date) / (1000 * 60 * 60 * 24))%Z
  /\ (Utils.match_relative dateString = None ->
      older (Some dateString) = older (Some (ago (Some dateString)))).
Proof.
  intros Hne Hp Hd H30.
  assert (Ht : truthy (Some dateString) = true) by (now destruct dateString).
  assert (E : older (Some (ago (Some dateString)))
              = (14 <=? (now - date) / (1000 * 60 * 60 * 24))%Z).
  { unfold Utils.formatTimeAgo. rewrite Ht. cbn [negb orEmpty]. rewrite Hp.
    assert (Ed : ((now - date) / (1000 * 60 * 60 * 24)
                  = (now - date) / (1000 * 60 * 60) / 24)%Z).
    { rewrite Z.div_div by lia. reflexivity. }
    rewrite Ed in *.
    assert (Hh : (0 <= (now - date) / (1000 * 60 * 60))%Z) by (apply Z.div_pos; lia).
    clear Ed. revert H30 Hh.
    generalize ((now - date) / (1000 * 60 * 60))%Z. intros h H30 Hh.
    destruct (h <? 24)%Z eqn:E24.
    - apply Z.ltb_lt in E24. destruct (older_units h Hh) as [E _].
      etransitivity; [exact E|].
      rewrite Z.div_small by lia. apply eq_true_iff_eq.
      rewrite !Z.leb_le. lia.
    - apply Z.ltb_ge in E24.
      assert (H1 : (1 <= h / 24)%Z) by (apply Z.div_le_lower_bound; lia).
      destruct (h / 24 =? 1)%Z eqn:E1.
      + apply Z.eqb_eq in E1. rewrite E1.
        assert (H0 : (0 <= 1)%Z) by lia.
        destruct (older_units 1 H0) as [_ [E _]]. exact E.
      + destruct (h / 24 <? 7)%Z eqn:E7.
        * apply Z.ltb_lt in E7.
          assert (H0 : (0 <= h / 24)%Z) by lia.
          destruct (older_units (h / 24) H0) as [_ [E _]].
          etransitivity; [exact E|]. reflexivity.
        * apply Z.ltb_ge in E7.
          assert (E30 : (h / 24 <? 30)%Z = true) by (apply Z.ltb_lt; lia).
          rewrite E30.
          assert (Hw : (0 <= h / 24 / 7)%Z) by (apply Z.div_pos; lia).
          destruct (older_units (h / 24 / 7) Hw) as [_ [_ E]].
          etransitivity; [exact E|].
          apply eq_true_iff_eq. rewrite !Z.leb_le. split; intros H.
          -- apply Z.nlt_ge. intros Hlt.
             assert (h / 24 / 7 < 2)%Z by (apply Z.div_lt_upper_bound; lia). lia.
          -- apply Z.div_le_lower_bound; lia. }
  split; [exact E|]. intros Hm. rewrite E.
  unfold Utils.isJobOlderThanWeek. rewrite Ht. cbn [negb orEmpty].
  now rewrite Hm, Hp.
Qed.

End AgeFacts.

(** Twenty days after the date, "2w" is printed and the job is stale. *)
Lemma formatTimeAgo_forms_witness :
  exists n : Z,
    (Utils.formatTimeAgo readNewYear twentyDaysLater (Some newYear)
       = decimal n ++ lit "h" /\ (0 <= n < 24)%Z)
    \/ (Utils.formatTimeAgo readNewYear twentyDaysLater (Some newYear)
          = decimal n ++ lit "d" /\ (1 <= n < 7)%Z)
    \/ (Utils.formatTimeAgo readNewYear twentyDaysLater (Some newYear)
          = decimal n ++ lit "w" /\ (1 <= n <= 4)%Z)
    \/ (Utils.formatTimeAgo readNewYear twentyDaysLater (Some newYear)
          = decimal n ++ lit "mo" /\ (1 <= n)%Z).
Proof.
  apply (proj2 (proj2 (formatTimeAgo_forms readNewYear twentyDaysLater
                         (Some newYear))) 1767225600000%Z).
  - reflexivity.
  - reflexivity.
  - vm_compute. discriminate.
Defined.

Lemma formatTimeAgo_then_filter_witness :
  Utils.isJobOlderThanWeek readNewYear twentyDaysLater
    (Some (Utils.formatTimeAgo readNewYear twentyDaysLater (Some newYear)))
  = true
  /\ Utils.formatTimeAgo readNewYear twentyDaysLater (Some newYear) = lit "2w"
  /\ Utils.isJobOlderThanWeek readNewYear twentyDaysLater (Some newYear) = true.
Proof.
  destruct (formatTimeAgo_then_filter readNewYear twentyDaysLater newYear
              1767225600000%Z) as [H1 H2].
  - discriminate.
  - reflexivity.
  - vm_compute. discriminate.
  - reflexivity.
  - split; [exact H1|]. split; [reflexivity|]. rewrite H2 by reflexivity. exact H1.
Defined.

(** ** The two age filters *)

(** X9.  On a posting date that is not written as a relative age
    ("15d", "2w"), the age filter of lib/job-processor.js and the one of
    lib/utils.js give the same answer: no date or an unreadable date is
    not stale, a date is stale from fourteen full days on. *)
Theorem age_filters_agree (Date_parse : str -> option Z) (now : Z)
  (job : JobProcessor.Posting) :
  Utils.match_relative (orEmpty (JobProcessor.job_posted_at_datetime_utc job)) = None ->
  JobProcessor.isJobOlderThan14Days Date_parse now job
  = Utils.isJobOlderThanWeek Date_parse now
      (JobProcessor.job_posted_at_datetime_utc job).
Proof.
  intros H. unfold JobProcessor.isJobOlderThan14Days, Utils.isJobOlderThanWeek.
  destruct (negb (truthy (JobProcessor.job_posted_at_datetime_utc job)));
    [reflexivity|].
  now rewrite H.
Qed.

Lemma age_filters_agree_witness :
  JobProcessor.isJobOlderThan14Days readNewYear twentyDaysLater (postedAt newYear)
  = Utils.isJobOlderThanWeek readNewYear twentyDaysLater (Some newYear)
  /\ JobProcessor.isJobOlderThan14Days readNewYear twentyDaysLater (postedAt newYear)
     = true.
Proof.
  split; [|reflexivity].
  apply (age_filters_agree readNewYear twentyDaysLater (postedAt newYear)).
  reflexivity.
Defined.

(** X10.  Staleness is permanent: a job that either age filter reports
    as stale at one time is reported as stale at every later time. *)
Theorem stale_stays_stale (Date_parse : str -> option Z) (now later : Z) :
  (now <= later)%Z ->
  (forall job,
     JobProcessor.isJobOlderThan14Days Date_parse now job = true ->
     JobProcessor.isJobOlderThan14Days Date_parse later job = true)
  /\ (forall dateString,
        Utils.isJobOlderThanWeek Date_parse now dateString = true ->
        Utils.isJobOlderThanWeek Date_parse later dateString = true).
Proof.
  intros Hl.
  assert (Hd : forall date,
            (14 <=? (now - date) / (1000 * 60 * 60 * 24))%Z = true ->
            (14 <=? (later - date) / (1000 * 60 * 60 * 24))%Z = true).
  { intros date H. apply Z.leb_le in H. apply Z.leb_le.
    etransitivity; [exact H|]. apply Z.div_le_mono; lia. }
  split.
  - intros job. unfold JobProcessor.isJobOlderThan14Days.
    destruct (negb (truthy _)); [auto|].
    destruct (Date_parse _) as [date|]; [apply Hd | auto].
  - intros dateString. unfold Utils.isJobOlderThanWeek.
    destruct (negb (truthy _)); [auto|].
    destruct (Utils.match_relative _) as [[digits u]|]; [auto|].
    destruct (Date_parse _) as [date|]; [apply Hd | auto].
Qed.

Lemma stale_stays_stale_witness :
  JobProcessor.isJobOlderThan14Days readNewYear (twentyDaysLater + 1)
    (postedAt newYear) = true.
Proof.
  apply (proj1 (stale_stays_stale readNewYear twentyDaysLater (twentyDaysLater + 1)
                  ltac:(vm_compute; discriminate))).
  reflexivity.
Defined.

(** ** The duplicate check (lib/deduplication.js) *)

Section DuplicateFacts.

Variable sha256_hex : str -> str.

#[local] Abbreviation kid := (idOf sha256_hex).
#[local] Abbreviation kfp := (fingerprintOf sha256_hex).

Lemma eqb_sym (a b : str) : eqb a b = eqb b a.
Proof.
  destruct (eqb a b) eqn:E; symmetry.
  - apply eqb_eq in E. subst. apply eqb_refl.
  - apply eqb_neq. apply eqb_neq in E. congruence.
Qed.

Lemma find_existsb {A : Type} (p : A -> bool) (l : list A) :
  match find p l with Some _ => true | None => false end = existsb p l.
Proof.
  induction l as [|x l IH]; simpl; [reflexivity|]. now destruct (p x).
Qed.

(** The verdict is the search for the generated id, then for the
    generated fingerprint. *)
Lemma isDuplicate_verdict (job : Dedup.Job) (existing : list Dedup.Job) :
  exists v,
    Dedup.isDuplicate sha256_hex (Some job) (Some existing) = Ok v
    /\ Dedup.is_duplicate v
       = existsb (Dedup.has_key Dedup.id (Dedup.hashedId sha256_hex job)) existing
         || existsb (Dedup.has_key Dedup.fingerprint
                       (Dedup.hashedFingerprint sha256_hex job)) existing
    /\ (existsb (Dedup.has_key Dedup.id (Dedup.hashedId sha256_hex job)) existing
        = true ->
        Dedup.reason v = lit "ID match (same company, title, location)"
        /\ exists m, Dedup.match_ v = Some m /\ In m existing
             /\ Dedup.id m = Some (Dedup.hashedId sha256_hex job)).
Proof.
  unfold Dedup.isDuplicate. cbn [Dedup.generateJobId Dedup.generateFingerprint bind].
  rewrite <- !find_existsb.
  destruct (find (Dedup.has_key Dedup.id _) existing) as [m|] eqn:Ei.
  - eexists. split; [reflexivity|]. split; [reflexivity|]. intros _.
    split; [reflexivity|]. exists m. split; [reflexivity|].
    apply find_some in Ei. destruct Ei as [Hin Hk]. split; [exact Hin|].
    unfold Dedup.has_key in Hk. destruct (Dedup.id m) as [k|]; [|discriminate].
    apply eqb_eq in Hk. now subst.
  - destruct (find (Dedup.has_key Dedup.fingerprint _) existing) as [m|] eqn:Ef;
      eexists; (split; [reflexivity|]); (split; [reflexivity|]); discriminate.
Qed.






(** X12.  A job without an id of its own is a duplicate of every list
    that holds its enriched copy, by the id: the match is the first job
    of the list with the generated id.  The verdict does not read the id
    and the fingerprint the job carries. *)
Theorem isDuplicate_finds_enriched (job e : Dedup.Job)
  (existing : list Dedup.Job) :
  truthy (Dedup.id job) = false ->
  Dedup.enrichJob sha256_hex (Some job) = Ok (Some e) ->
  In e existing ->
  (exists v m,
     Dedup.isDuplicate sha256_hex (Some job) (Some existing) = Ok v
     /\ Dedup.is_duplicate v = true
     /\ Dedup.reason v = lit "ID match (same company, title, location)"
     /\ Dedup.match_ v = Some m /\ In m existing /\ Dedup.id m = Dedup.id e)
  /\ (forall i f,
        Dedup.isDuplicate sha256_hex
          (Some (Dedup.set_fingerprint (Dedup.set_id job i) f)) (Some existing)
        = Dedup.isDuplicate sha256_hex (Some job) (Some existing)).
Proof.
  intros Hi He Hin. split.
  - unfold Dedup.enrichJob in He.
    rewrite idOrGenerated_Ok, fingerprintOrGenerated_Ok in He. cbn [bind] in He.
    injection He as He.
    assert (Hid : Dedup.id e = Some (Dedup.hashedId sha256_hex job)).
    { rewrite <- He. simpl. unfold idOf. now rewrite Hi. }
    destruct (isDuplicate_verdict job existing) as [v [Ev [Hv Hm]]].
    assert (Hex : existsb (Dedup.has_key Dedup.id (Dedup.hashedId sha256_hex job))
                    existing = true).
    { apply existsb_exists. exists e. split; [exact Hin|].
      unfold Dedup.has_key. rewrite Hid. apply eqb_refl. }
    destruct (Hm Hex) as [Hr [m [Em [Hmin Hmid]]]].
    exists v, m. split; [exact Ev|]. rewrite Hv, Hex.
    repeat split; auto. congruence.
  - intros i f. reflexivity.
Qed.

(** X13.  [enrichJob] never throws.  It returns [null] for no job and
    else a copy that carries both keys, the job's own where it has them;
    the five properties that describe the job are copied, and enriching
    the copy again changes nothing. *)
Theorem enrichJob_idempotent (job : Dedup.Job) :
  Dedup.enrichJob sha256_hex None = Ok None
  /\ exists e,
       Dedup.enrichJob sha256_hex (Some job) = Ok (Some e)
       /\ Dedup.enrichJob sha256_hex (Some e) = Ok (Some e)
       /\ Dedup.id e = Some (kid job)
       /\ Dedup.fingerprint e = Some (kfp job)
       /\ Dedup.company e = Dedup.company job
       /\ Dedup.title e = Dedup.title job
       /\ Dedup.location e = Dedup.location job
       /\ Dedup.experience_level e = Dedup.experience_level job
       /\ Dedup.employment_type e = Dedup.employment_type job.
Proof.
  split; [reflexivity|]. exists (enriched sha256_hex job).
  assert (H : forall j, Dedup.enrichJob sha256_hex (Some j)
                        = Ok (Some (enriched sha256_hex j))).
  { intros j. unfold Dedup.enrichJob.
    now rewrite idOrGenerated_Ok, fingerprintOrGenerated_Ok. }
  split; [apply H|]. split; [now rewrite H, enriched_idem|].
  repeat split.
Qed.

End DuplicateFacts.


Lemma isDuplicate_finds_enriched_witness :
  exists v,
    Dedup.isDuplicate (fun s => s) (Some acmeEngineer)
      (Some [enriched (fun s => s) acmeEngineer]) = Ok v
    /\ Dedup.is_duplicate v = true.
Proof.
  destruct (isDuplicate_finds_enriched (fun s => s) acmeEngineer
              (enriched (fun s => s) acmeEngineer)
              [enriched (fun s => s) acmeEngineer])
    as [[v [m [Ev [Hd _]]]] _].
  - reflexivity.
  - reflexivity.
  - simpl. tauto.
  - now exists v.
Defined.

(** ** The order of the merge, and merging again *)

Lemma first_seen_ext (s1 s2 ids : list str) :
  (forall k, mem k s1 = mem k s2) -> first_seen s1 ids = first_seen s2 ids.
Proof.
  revert s1 s2. induction ids as [|k ids IH]; intros s1 s2 H; [reflexivity|].
  cbn [first_seen]. rewrite <- (H k). destruct (mem k s1); [now apply IH|].
  f_equal. apply IH. intros x. unfold mem. cbn [existsb]. f_equal. apply H.
Qed.

Lemma first_seen_all_seen (seen ids : list str) :
  (forall k, In k ids -> In k seen) -> first_seen seen ids = [].
Proof.
  induction ids as [|k ids IH]; intros H; [reflexivity|].
  cbn [first_seen]. rewrite (proj2 (mem_In k seen)) by (apply H; now left).
  apply IH. intros x Hx. apply H. now right.
Qed.

Section MergeOrder.

Variable J : Type.
Variable job_id : J -> option str.

#[local] Abbreviation JobMap := (JobProcessor.JobMap J).
#[local] Abbreviation map_set := (@JobProcessor.map_set J).
#[local] Abbreviation insert_job := (JobProcessor.insert_job job_id).
#[local] Abbreviation ids := (written_ids job_id).

Lemma written_ids_app (a b : list J) : ids (a ++ b) = ids a ++ ids b.
Proof. unfold written_ids. apply flat_map_app. Qed.

Lemma In_written_ids (k : str) (l : list J) :
  In k (ids l) <-> exists job, In job l /\ truthy (job_id job) = true
                               /\ orEmpty (job_id job) = k.
Proof.
  unfold written_ids. rewrite in_flat_map. split.
  - intros [job [Hin H]]. exists job. destruct (truthy (job_id job)).
    + destruct H as [<-|[]]. auto.
    + destruct H.
  - intros [job [Hin [Ht <-]]]. exists job. rewrite Ht. split; [exact Hin|now left].
Qed.

(** The keys of the map after a sequence of writes. *)
Lemma keys_fold (l : list J) :
  forall m : JobMap,
    keys (fold_left insert_job l m) = keys m ++ first_seen (keys m) (ids l).
Proof.
  induction l as [|x l IH]; intros m.
  - simpl. now rewrite app_nil_r.
  - cbn [fold_left]. rewrite IH.
    assert (Ei : ids (x :: l)
                 = (if truthy (job_id x) then [orEmpty (job_id x)] else []) ++ ids l)
      by reflexivity.
    rewrite Ei. unfold JobProcessor.insert_job.
    destruct (truthy (job_id x)); [|reflexivity].
    cbn [app first_seen]. rewrite keys_map_set.
    destruct (mem (orEmpty (job_id x)) (keys m)) eqn:E; [reflexivity|].
    rewrite <- app_assoc. cbn [app]. do 2 f_equal.
    apply first_seen_ext. intros k. unfold mem.
    rewrite existsb_app. cbn [existsb]. rewrite orb_false_r. apply orb_comm.
Qed.

(** X14.  [mergeJobs] returns the jobs in the order in which their ids
    come first among the persisted jobs followed by the fresh ones: a
    fresh job that replaces a persisted one takes its place, and a job
    with a new id goes to the end. *)
Theorem mergeJobs_order (persisted fresh : list J) :
  map job_id (JobProcessor.mergeJobs job_id persisted fresh)
  = map Some (first_seen [] (ids (persisted ++ fresh))).
Proof.
  unfold JobProcessor.mergeJobs. rewrite <- fold_left_app.
  destruct (Written_fold J job_id (persisted ++ fresh)) as [_ Hlast _].
  rewrite ids_of_values.
  - now rewrite keys_fold.
  - intros k v Hin. now apply Hlast.
Qed.

Lemma assoc_map_set (k k' : str) (v : J) (m : JobMap) :
  assoc k (map_set k' v m) = if eqb k' k then Some v else assoc k m.
Proof.
  induction m as [|[k0 v0] m IH]; cbn [JobProcessor.map_set assoc].
  - reflexivity.
  - destruct (eqb k0 k') eqn:E0.
    + apply eqb_eq in E0. subst k0. cbn [assoc]. now destruct (eqb k' k).
    + cbn [assoc]. rewrite IH. destruct (eqb k0 k) eqn:E1; [|reflexivity].
      apply eqb_eq in E1. subst k0. now rewrite (eqb_sym k' k), E0.
Qed.

Lemma last_with_id_cons (k : str) (x : J) (l : list J) :
  last_with_id job_id k (x :: l) =
    match last_with_id job_id k l with
    | Some v => Some v
    | None => if has_id job_id k x then Some x else None
    end.
Proof.
  unfold last_with_id. cbn [rev]. rewrite find_app. cbn [find].
  reflexivity.
Qed.

(** The job under an id after a sequence of writes: the last one written
    under it, or else the one that was there. *)
Lemma assoc_fold (k : str) (l : list J) :
  forall m : JobMap,
    assoc k (fold_left insert_job l m) =
      match last_with_id job_id k l with
      | Some v => Some v
      | None => assoc k m
      end.
Proof.
  induction l as [|x l IH]; intros m; [reflexivity|].
  cbn [fold_left]. rewrite IH, last_with_id_cons.
  destruct (last_with_id job_id k l); [reflexivity|].
  unfold JobProcessor.insert_job, has_id.
  destruct (truthy (job_id x)); [|reflexivity].
  cbn [andb]. rewrite assoc_map_set.
  now destruct (eqb (orEmpty (job_id x)) k).
Qed.

Lemma assoc_In (k : str) (v : J) (m : JobMap) :
  NoDup (keys m) -> In (k, v) m -> assoc k m = Some v.
Proof.
  induction m as [|[k0 v0] m IH]; intros Hnd Hin; [destruct Hin|].
  inversion Hnd as [|? ? Hk Hm]; subst. cbn [assoc]. destruct Hin as [E|Hin].
  - injection E as -> ->. now rewrite eqb_refl.
  - destruct (eqb k0 k) eqn:E; [|now apply IH].
    apply eqb_eq in E. subst k0. exfalso. apply Hk.
    change k with (fst (k, v)). now apply in_map.
Qed.

(** Two maps with the same keys, in the same order, and the same job
    under each key are equal. *)
Lemma maps_equal (m1 m2 : JobMap) :
  keys m1 = keys m2 -> NoDup (keys m1) ->
  (forall k, In k (keys m1) -> assoc k m1 = assoc k m2) -> m1 = m2.
Proof.
  revert m2. induction m1 as [|[k1 v1] m1 IH]; intros [|[k2 v2] m2] Hk Hnd Ha;
    try discriminate; [reflexivity|].
  injection Hk as -> Hk. inversion Hnd as [|? ? Hn Hm]; subst.
  pose proof (Ha k2 (or_introl eq_refl)) as H0. cbn [assoc] in H0.
  rewrite eqb_refl in H0. injection H0 as ->. f_equal.
  apply IH; [exact Hk | exact Hm|].
  intros k Hin. specialize (Ha k (or_intror Hin)). cbn [assoc] in Ha.
  destruct (eqb k2 k) eqn:E; [|exact Ha].
  apply eqb_eq in E. subst k2. contradiction.
Qed.

(** Writing the values of a map back, in their order, rebuilds the map. *)
Lemma fold_values (m2 : JobMap) :
  forall m1 : JobMap,
    NoDup (keys (m1 ++ m2)) ->
    (forall k v, In (k, v) m2 -> job_id v = Some k /\ k <> []) ->
    fold_left insert_job (JobProcessor.map_values m2) m1 = m1 ++ m2.
Proof.
  induction m2 as [|[k v] m2 IH]; intros m1 Hnd Hwf.
  - simpl. now rewrite app_nil_r.
  - cbn [JobProcessor.map_values map fold_left snd].
    fold (JobProcessor.map_values m2).
    destruct (Hwf k v (or_introl eq_refl)) as [Hid Hne].
    assert (Hins : insert_job m1 v = m1 ++ [(k, v)]).
    { unfold JobProcessor.insert_job. rewrite Hid.
      destruct k as [|c k]; [congruence|]. cbn [truthy orEmpty].
      assert (Hk : ~ In (c :: k) (keys m1)).
      { unfold keys in Hnd. rewrite map_app in Hnd. cbn [map fst] in Hnd.
        apply NoDup_remove_2 in Hnd. intros Hin. apply Hnd.
        apply in_or_app. now left. }
      clear - Hk. induction m1 as [|[k0 v0] m1 IH]; [reflexivity|].
      cbn [JobProcessor.map_set app]. destruct (eqb k0 (c :: k)) eqn:E.
      - apply eqb_eq in E. subst k0. exfalso. apply Hk. now left.
      - f_equal. apply IH. intros Hin. apply Hk. now right. }
    rewrite Hins, IH.
    + now rewrite <- app_assoc.
    + now rewrite <- app_assoc.
    + intros k' v' Hin. apply Hwf. now right.
Qed.

(** X15.  Merging is stable: once the fresh jobs are merged in, merging
    the same fresh jobs into the result again returns the same list; so
    does merging nothing into it. *)
Theorem mergeJobs_again (persisted fresh : list J) :
  let merged := JobProcessor.mergeJobs job_id persisted fresh in
  JobProcessor.mergeJobs job_id merged fresh = merged
  /\ JobProcessor.mergeJobs job_id merged [] = merged.
Proof.
  cbv zeta.
  assert (Hm : JobProcessor.mergeJobs job_id persisted fresh
               = JobProcessor.map_values
                   (fold_left insert_job (persisted ++ fresh) [])).
  { unfold JobProcessor.mergeJobs. now rewrite fold_left_app. }
  rewrite Hm.
  destruct (Written_fold J job_id (persisted ++ fresh)) as [Hnd Hlast Hall].
  set (m := fold_left insert_job (persisted ++ fresh) []) in *.
  assert (Hback : fold_left insert_job (JobProcessor.map_values m) [] = m).
  { apply (fold_values m []); [exact Hnd|].
    intros k v Hin. destruct (Hlast k v Hin) as [H1 [H2 _]]. auto. }
  unfold JobProcessor.mergeJobs. rewrite Hback. split; [|reflexivity]. f_equal.
  assert (Hk : keys (fold_left insert_job fresh m) = keys m).
  { rewrite keys_fold, first_seen_all_seen; [apply app_nil_r|].
    intros k Hin. apply In_written_ids in Hin.
    destruct Hin as [job [Hin [Ht <-]]]. apply Hall; [|exact Ht].
    apply in_or_app. now right. }
  apply maps_equal; [exact Hk | now rewrite Hk |].
  intros k Hin. rewrite Hk in Hin. rewrite assoc_fold.
  destruct (last_with_id job_id k fresh) as [v|] eqn:E; [|reflexivity].
  unfold keys in Hin. apply in_map_iff in Hin.
  destruct Hin as [[k' v'] [Ek Hin]]. cbn [fst] in Ek. subst k'.
  rewrite (assoc_In _ _ _ Hnd Hin).
  destruct (Hlast k v' Hin) as [_ [_ Hl]].
  unfold last_with_id in Hl, E. rewrite rev_app_distr, find_app, E in Hl.
  exact Hl.
Qed.

End MergeOrder.

(** ** Names of places in a location *)

Lemma Contains_app_l (name pre s : str) : Contains name s -> Contains name (pre ++ s).
Proof.
  intros [a [b ->]]. exists (pre ++ a), b. now rewrite <- app_assoc.
Qed.

Lemma Contains_nonempty (name s : str) : name <> [] -> Contains name s -> s <> [].
Proof.
  intros Hn [a [b ->]] E. apply app_eq_nil in E. destruct E as [_ E].
  apply app_eq_nil in E. tauto.
Qed.

Lemma plain_words_first (name : str) :
  plain_words true name = true ->
  exists c rest, name = c :: rest /\ is_space c = false
                 /\ (is_comma c || is_space c) = false.
Proof.
  destruct name as [|c rest]; [discriminate|]. cbn [plain_words].
  destruct (is_comma c || is_space c) eqn:E; [discriminate|]. intros _.
  exists c, rest. split; [reflexivity|]. split; [|exact E].
  now apply orb_false_iff in E.
Qed.

Lemma plain_words_lower (name : str) :
  forall b, plain_words b name = true -> toLowerCase name = name.
Proof.
  induction name as [|c rest IH]; intros b H; [reflexivity|].
  cbn [plain_words] in H. simpl. destruct (is_comma c || is_space c).
  - apply andb_true_iff in H. destruct H as [H Hr].
    apply andb_true_iff in H. destruct H as [_ Hc].
    apply Ascii.eqb_eq in Hc. subst c. f_equal. exact (IH _ Hr).
  - apply andb_true_iff in H. destruct H as [Hc Hr].
    apply Ascii.eqb_eq in Hc. rewrite Hc. f_equal. exact (IH _ Hr).
Qed.

Lemma toLowerCase_Contains (name s : str) :
  Contains name s -> Contains (toLowerCase name) (toLowerCase s).
Proof.
  intros [a [b ->]]. exists (toLowerCase a), (toLowerCase b).
  unfold toLowerCase. now rewrite !map_app.
Qed.

Lemma trimStart_Contains (name s : str) :
  plain_words true name = true -> Contains name s -> Contains name (trimStart s).
Proof.
  intros Hp. destruct (plain_words_first name Hp) as [c0 [rest [-> [Hc0 _]]]].
  induction s as [|c s IH]; intros H; [exact H|].
  simpl. destruct (is_space c) eqn:Hc; [|exact H].
  apply Contains_cons in H. destruct H as [H|H]; [|now apply IH].
  cbn [starts_with] in H. apply andb_true_iff in H. destruct H as [H _].
  apply Ascii.eqb_eq in H. congruence.
Qed.

Lemma trimEnd_app (a b : str) :
  trimEnd (a ++ b) = match trimEnd b with
                     | [] => trimEnd a
                     | _ :: _ => a ++ trimEnd b
                     end.
Proof.
  induction a as [|c a IH]; simpl.
  - now destruct (trimEnd b).
  - rewrite IH. destruct (trimEnd b); [reflexivity|]. now destruct a.
Qed.

Lemma plain_words_trimEnd (name : str) :
  forall b, plain_words b name = true ->
    trimEnd name = name /\ (name = [] -> b = false).
Proof.
  induction name as [|c rest IH]; intros b H.
  - split; [reflexivity|]. intros _. now destruct b.
  - split; [|discriminate]. cbn [plain_words] in H. simpl.
    destruct (is_comma c || is_space c) eqn:E.
    + apply andb_true_iff in H. destruct H as [_ Hr].
      destruct (IH _ Hr) as [Ht He]. rewrite Ht.
      destruct rest; [now specialize (He eq_refl) | reflexivity].
    + apply andb_true_iff in H. destruct H as [_ Hr].
      destruct (IH _ Hr) as [Ht _]. rewrite Ht.
      apply orb_false_iff in E. destruct E as [_ E]. rewrite E.
      now destruct rest.
Qed.

Lemma trimEnd_Contains (name s : str) :
  plain_words true name = true -> Contains name s -> Contains name (trimEnd s).
Proof.
  intros Hp [a [b ->]].
  destruct (plain_words_trimEnd name true Hp) as [Ht _].
  destruct (plain_words_first name Hp) as [c0 [rest [E _]]].
  rewrite !trimEnd_app. destruct (trimEnd b) as [|x t].
  - rewrite Ht. rewrite E. exists a, []. now rewrite app_nil_r.
  - destruct (name ++ x :: t) eqn:En.
    + apply app_eq_nil in En. destruct En; discriminate.
    + rewrite <- En. now exists a, (x :: t).
Qed.

Lemma trim_Contains (name s : str) :
  plain_words true name = true -> Contains name s -> Contains name (trim s).
Proof.
  intros Hp H. unfold trim. now apply trimEnd_Contains, trimStart_Contains.
Qed.

(** The replacement of runs of commas and white space by one space leaves
    a plain name where it is. *)
Lemma squeeze_plain_words (name post : str) :
  forall b0 b,
    plain_words b0 name = true -> (b0 = false -> b = false) ->
    squeeze_from (fun c => is_comma c || is_space c) " " b (name ++ post)
    = name ++ squeeze_from (fun c => is_comma c || is_space c) " " false post.
Proof.
  induction name as [|c rest IH]; intros b0 b H Hb.
  - cbn [plain_words] in H. apply negb_true_iff in H. now rewrite (Hb H).
  - cbn [plain_words] in H. cbn [app squeeze_from].
    destruct (is_comma c || is_space c).
    + apply andb_true_iff in H. destruct H as [H Hr].
      apply andb_true_iff in H. destruct H as [Hp Hc].
      apply negb_true_iff in Hp. apply Ascii.eqb_eq in Hc. subst c.
      rewrite (Hb Hp). f_equal. apply (IH true true Hr). discriminate.
    + apply andb_true_iff in H. destruct H as [_ Hr].
      f_equal. now apply (IH false false Hr).
Qed.

Lemma squeeze_Contains (name s : str) :
  plain_words true name = true -> Contains name s ->
  forall b,
    Contains name (squeeze_from (fun c => is_comma c || is_space c) " " b s).
Proof.
  intros Hp [a [post ->]]. induction a as [|c a IH]; intros b.
  - cbn [app]. rewrite (squeeze_plain_words name post true b Hp) by discriminate.
    now exists [], (squeeze_from (fun c => is_comma c || is_space c) " " false post).
  - cbn [app squeeze_from]. destruct (is_comma c || is_space c).
    + destruct b; [apply IH|]. apply (Contains_app_l _ [" "%char]). apply IH.
    + apply (Contains_app_l _ [c]). apply IH.
Qed.

(** The cleaning of a location keeps a plain name that the text has. *)
Lemma clean_Contains (name raw : str) :
  plain_words true name = true ->
  Contains name (toLowerCase raw) ->
  Contains name
    (trim (squeeze (fun c => is_comma c || is_space c) " " (trim (toLowerCase raw)))).
Proof.
  intros Hp H. apply trim_Contains; [exact Hp|].
  apply squeeze_Contains; [exact Hp|]. now apply trim_Contains.
Qed.

Lemma nonUSNames_plain :
  forallb (plain_words true) nonUSNames = true.
Proof. vm_compute. reflexivity. Qed.

(** [isNonUS] of config/locations.js is true of a text that holds one of
    the listed names. *)
Lemma isNonUS_Contains (name location : str) :
  In name nonUSNames -> Contains name location -> Locations.isNonUS location = true.
Proof.
  intros Hin Hc.
  assert (Hp : plain_words true name = true).
  { pose proof nonUSNames_plain as H. rewrite forallb_forall in H. now apply H. }
  assert (Hn : name <> []).
  { destruct (plain_words_first name Hp) as [c [r [-> _]]]. discriminate. }
  unfold Locations.isNonUS.
  destruct location as [|c0 l0] eqn:El; [exact (False_ind _ (Contains_nonempty _ _ Hn Hc eq_refl))|].
  rewrite <- El in *. clear El c0 l0.
  assert (Hl : Contains name (trim (toLowerCase location))).
  { apply trim_Contains; [exact Hp|].
    rewrite <- (plain_words_lower name true Hp). now apply toLowerCase_Contains. }
  unfold nonUSNames in Hin. apply in_app_or in Hin.
  destruct Hin as [Hin|Hin]; apply in_concat in Hin; destruct Hin as [group [Hg Hin]].
  - assert (E : existsb (fun countries => includes_any (trim (toLowerCase location)) countries)
                  Locations.nonUSCountries = true).
    { apply existsb_exists. exists group. split; [exact Hg|].
      apply includes_any_spec. now exists name. }
    now rewrite E.
  - assert (E : existsb (fun cities => includes_any (trim (toLowerCase location)) cities)
                  Locations.nonUSCities = true).
    { apply existsb_exists. exists group. split; [exact Hg|].
      apply includes_any_spec. now exists name. }
    rewrite E. now destruct (existsb _ Locations.nonUSCountries).
Qed.

(** ** The location filter with and without a configuration *)

(** X16.  With the configuration of the package, a job whose city or
    state names one of the listed countries or cities outside the United
    States is rejected, whatever else the two fields say: the names are
    looked for first, anywhere in the text and in any letter case. *)
Theorem isUSOnlyJob_rejects_abroad (job : Utils.Job) (name : str) :
  In name nonUSNames ->
  Contains name (toLowerCase (orEmpty (Utils.job_city job)))
  \/ Contains name (toLowerCase (orEmpty (Utils.job_state job))) ->
  Utils.isUSOnlyJob job (Some packageConfig) = false.
Proof.
  intros Hin H.
  assert (Hp : plain_words true name = true).
  { pose proof nonUSNames_plain as Hall. rewrite forallb_forall in Hall.
    now apply Hall. }
  unfold Utils.isUSOnlyJob.
  cbn [packageConfig Utils.config_locations Utils.packageLocations Utils.isNonUS].
  destruct H as [H|H]; apply (clean_Contains name _ Hp) in H;
    apply (isNonUS_Contains name _ Hin) in H; rewrite H, ?orb_true_r; reflexivity.
Qed.

Lemma isUSOnlyJob_rejects_abroad_witness :
  Utils.isUSOnlyJob parisTexas (Some packageConfig) = false
  /\ Locations.isUS (lit "texas") = true.
Proof.
  split; [|reflexivity].
  apply (isUSOnlyJob_rejects_abroad parisTexas (lit "paris")).
  - vm_compute. tauto.
  - left. exists [], []. reflexivity.
Defined.

(** X17.  Without a location configuration the filter of lib/utils.js
    accepts every job: each of its three exits returns true, so a job
    located abroad passes as well. *)
Theorem isUSOnlyJob_without_config (job : Utils.Job) (config : option Utils.Config) :
  locationConfig config = None -> Utils.isUSOnlyJob job config = true.
Proof.
  intros H. unfold Utils.isUSOnlyJob. unfold locationConfig in H. rewrite H.
  destruct (existsb _ Utils.usIndicators); [reflexivity|].
  now destruct (includes _ _ || includes _ _).
Qed.

Lemma isUSOnlyJob_without_config_witness :
  Utils.isUSOnlyJob (locatedJob "London" "England") None = true
  /\ Utils.isUSOnlyJob (locatedJob "London" "England") (Some testConfig) = true.
Proof.
  split.
  - now apply (isUSOnlyJob_without_config (locatedJob "London" "England") None).
  - now apply (isUSOnlyJob_without_config (locatedJob "London" "England")
                 (Some testConfig)).
Defined.

(** X18.  In the filter of lib/job-processor.js the country decides
    before the state and the city: a job whose country is "us", "usa" or
    "united states" in any letter case is accepted, and a job whose
    country names one of the ten listed foreign countries is rejected,
    whatever its state and its city are. *)
Theorem jsearch_isUSOnlyJob_country_first (job : JobProcessor.Job) :
  (In (toLowerCase (orEmpty (JobProcessor.job_country job)))
      (map lit ["us"; "usa"; "united states"]%string) ->
   JobProcessor.isUSOnlyJob job = true)
  /\ (forall name,
        In name JobProcessor.nonUSCountries ->
        Contains name (toLowerCase (orEmpty (JobProcessor.job_country job))) ->
        JobProcessor.isUSOnlyJob job = false).
Proof.
  unfold JobProcessor.isUSOnlyJob. split.
  - intros [E|[E|[E|[]]]]; rewrite <- E; reflexivity.
  - intros name Hin Hc.
    set (country := toLowerCase (orEmpty (JobProcessor.job_country job))) in *.
    assert (Hany : existsb (fun c => includes country c) JobProcessor.nonUSCountries
                   = true).
    { apply existsb_exists. exists name. split; [exact Hin|].
      now apply includes_spec. }
    destruct (eqb country (lit "us") || eqb country (lit "usa")
              || eqb country (lit "united states")) eqn:E; [|now rewrite Hany].
    exfalso. apply orb_true_iff in E. destruct E as [E|E];
      [apply orb_true_iff in E; destruct E as [E|E]|];
      apply eqb_eq in E; rewrite E in Hany; discriminate Hany.
Qed.

Lemma jsearch_isUSOnlyJob_country_first_witness :
  JobProcessor.isUSOnlyJob (placedJSearchJob "USA" "" "Toronto") = true
  /\ JobProcessor.isUSOnlyJob (placedJSearchJob "Canada" "CA" "San Jose") = false.
Proof.
  split.
  - apply (proj1 (jsearch_isUSOnlyJob_country_first
                    (placedJSearchJob "USA" "" "Toronto"))).
    right. left. reflexivity.
  - apply (proj2 (jsearch_isUSOnlyJob_country_first
                    (placedJSearchJob "Canada" "CA" "San Jose")) (lit "canada")).
    + left. reflexivity.
    + exists [], []. reflexivity.
Defined.

(** ** Keys that do not depend on letter case and outer white space *)

Lemma trim_nil_falsy (o : option str) :
  truthy o = false -> trim (toLowerCase (orEmpty o)) = [].
Proof. destruct o as [[|c s]|]; simpl; intros H; [reflexivity|discriminate|reflexivity]. Qed.

Lemma normalizeCompanyName_text (c : option str) :
  Dedup.normalizeCompanyName c
  = squeeze is_space " "
      (strip_suffix true Dedup.companySuffixes (trim (toLowerCase (orEmpty c)))).
Proof.
  unfold Dedup.normalizeCompanyName. destruct (truthy c) eqn:E; [reflexivity|].
  now rewrite trim_nil_falsy.
Qed.

Lemma normalizeTitle_text (t : option str) :
  Dedup.normalizeTitle t = squeeze is_space " " (trim (toLowerCase (orEmpty t))).
Proof.
  unfold Dedup.normalizeTitle. destruct (truthy t) eqn:E; [reflexivity|].
  now rewrite trim_nil_falsy.
Qed.

Lemma hashedId_text (sha256_hex : str -> str) (job : Dedup.Job) :
  Dedup.hashedId sha256_hex job
  = firstn 8
      (sha256_hex
         (trim (toLowerCase
            (Dedup.normalizeCompanyName (Dedup.company job) ++ lit "|"
             ++ Dedup.normalizeTitle (Dedup.title job) ++ lit "|"
             ++ squeeze is_space " "
                  (trim (toLowerCase (orEmpty (Dedup.location job)))))))).
Proof.
  unfold Dedup.hashedId. cbv zeta.
  destruct (truthy (Dedup.location job)) eqn:E.
  - unfold Dedup.normalizeLocation. now rewrite E.
  - now rewrite (trim_nil_falsy _ E).
Qed.

(** X19.  The keys of the shared package do not depend on letter case or
    on white space around a text: two jobs whose company, title and
    location agree up to that get the same id from [generateJobId] of
    lib/jobId.js, and the same fingerprint from [generateFingerprint]
    when the experience level and the employment type agree as well. *)
Theorem keys_ignore_case_and_padding (sha256_hex : str -> str)
  (j1 j2 : Dedup.Job) :
  same_text (Dedup.company j1) (Dedup.company j2) ->
  same_text (Dedup.title j1) (Dedup.title j2) ->
  same_text (Dedup.location j1) (Dedup.location j2) ->
  Dedup.generateJobId sha256_hex (Some j1) = Dedup.generateJobId sha256_hex (Some j2)
  /\ (same_text (Dedup.experience_level j1) (Dedup.experience_level j2) ->
      same_text (Dedup.employment_type j1) (Dedup.employment_type j2) ->
      Dedup.generateFingerprint sha256_hex (Some j1)
      = Dedup.generateFingerprint sha256_hex (Some j2)).
Proof.
  unfold same_text. intros Hc Ht Hl. split.
  - cbn [Dedup.generateJobId]. f_equal. rewrite !hashedId_text.
    rewrite !normalizeCompanyName_text, !normalizeTitle_text, Hc, Ht, Hl.
    reflexivity.
  - intros He Hy. cbn [Dedup.generateFingerprint]. f_equal.
    unfold Dedup.hashedFingerprint. cbv zeta. cbn [map].
    now rewrite Hc, Ht, Hl, He, Hy.
Qed.

Lemma keys_ignore_case_and_padding_witness :
  Dedup.generateFingerprint (fun s => s)
    (Some (Dedup.mkJob (Some (lit "Acme")) (Some (lit "Engineer"))
             (Some (lit "Austin")) None (Some (lit "Full-time")) None None))
  = Dedup.generateFingerprint (fun s => s)
      (Some (Dedup.mkJob (Some (lit " ACME ")) (Some (lit "engineer"))
               (Some (lit "AUSTIN ")) (Some []) (Some (lit "FULL-TIME")) None None)).
Proof.
  apply (keys_ignore_case_and_padding (fun s => s)
           (Dedup.mkJob (Some (lit "Acme")) (Some (lit "Engineer"))
              (Some (lit "Austin")) None (Some (lit "Full-time")) None None)
           (Dedup.mkJob (Some (lit " ACME ")) (Some (lit "engineer"))
              (Some (lit "AUSTIN ")) (Some []) (Some (lit "FULL-TIME")) None None));
    reflexivity.
Defined.

(** ** Seniority words in the fingerprint of lib/job-processor.js *)

Lemma jsearch_seniorityWords_space_free :
  Forall space_free JobProcessor.seniorityWords.
Proof. repeat constructor. Qed.

Lemma whole_word_removed (w : str) :
  In w wholeSeniorityWords ->
  replace_words true JobProcessor.seniorityWords [] w = [].
Proof.
  intros H. repeat (destruct H as [<-|H]; [reflexivity|]). destruct H.
Qed.

(** X20.  [generateJobFingerprint] of lib/job-processor.js does not see a
    seniority word that stands before or after the title: with the same
    employer and city, the titles "Senior X", "X Lead" and "X" give the
    same fingerprint, for every X and for each of the words senior, sr,
    junior, jr, staff, principal, lead and associate in any letter case. *)
Theorem jsearch_fingerprint_seniority (w W X : str) (j1 j2 : JobProcessor.Job) :
  In w wholeSeniorityWords ->
  toLowerCase W = w ->
  JobProcessor.employer_name j1 = JobProcessor.employer_name j2 ->
  JobProcessor.job_city j1 = JobProcessor.job_city j2 ->
  JobProcessor.job_title j2 = Some X ->
  JobProcessor.job_title j1 = Some (W ++ lit " " ++ X)
  \/ JobProcessor.job_title j1 = Some (X ++ lit " " ++ W) ->
  JobProcessor.generateJobFingerprint j1 = JobProcessor.generateJobFingerprint j2.
Proof.
  intros Hin Hw He Hc H2 H1. unfold JobProcessor.generateJobFingerprint.
  rewrite He, Hc, H2. do 2 f_equal. f_equal. cbn [orEmpty].
  pose proof (whole_word_removed w Hin) as Hr.
  destruct H1 as [-> | ->]; cbn [orEmpty]; unfold toLowerCase;
    rewrite !map_app; fold (toLowerCase W); fold (toLowerCase X); rewrite Hw;
    change (map lower_char (lit " ")) with [" "%char]; cbn [app].
  - rewrite replace_words_sep
      by (auto using jsearch_seniorityWords_space_free).
    rewrite Hr. apply (trim_squeeze_blank_l [" "%char]). reflexivity.
  - rewrite replace_words_sep
      by (auto using jsearch_seniorityWords_space_free).
    rewrite Hr. apply (trim_squeeze_blank_r _ [" "%char]). reflexivity.
Qed.

Lemma jsearch_fingerprint_seniority_witness :
  JobProcessor.generateJobFingerprint (googleJSearchJob "Senior Software Engineer")
  = JobProcessor.generateJobFingerprint (googleJSearchJob "Software Engineer")
  /\ JobProcessor.generateJobFingerprint (googleJSearchJob "Software Engineer LEAD")
     = JobProcessor.generateJobFingerprint (googleJSearchJob "Software Engineer").
Proof.
  split.
  - apply (jsearch_fingerprint_seniority (lit "senior") (lit "Senior")
             (lit "Software Engineer")); try reflexivity.
    + left. reflexivity.
    + left. reflexivity.
  - apply (jsearch_fingerprint_seniority (lit "lead") (lit "LEAD")
             (lit "Software Engineer")); try reflexivity.
    + vm_compute. tauto.
    + right. reflexivity.
Defined.

(** ** Jobs by age (lib/readme-generator.js) *)

Section ByAge.

Variable J : Type.
Variable job_date : J -> option str.
Variable Date_parse : str -> option Z.
Variable oneWeekAgo : Z.

#[local] Abbreviation isCurrent :=
  (ReadmeGenerator.isCurrent job_date Date_parse oneWeekAgo).
#[local] Abbreviation isArchived :=
  (ReadmeGenerator.isArchived job_date Date_parse oneWeekAgo).

Lemma isArchived_not_current (job : J) : isArchived job = negb (isCurrent job).
Proof.
  unfold ReadmeGenerator.isArchived, ReadmeGenerator.isCurrent.
  destruct (negb (truthy (job_date job))); [reflexivity|].
  destruct (Date_parse _) as [d|]; [|reflexivity].
  apply eq_true_iff_eq. rewrite negb_true_iff, Z.ltb_lt, Z.leb_gt. tauto.
Qed.

Lemma filter_lengths {A : Type} (p : A -> bool) (l : list A) :
  length (filter p l) + length (filter (fun x => negb (p x)) l) = length l.
Proof.
  induction l as [|x l IH]; simpl; [reflexivity|].
  destruct (p x); simpl; lia.
Qed.

Lemma filter_Interleaved {A : Type} (p : A -> bool) (l : list A) :
  Interleaved (filter p l) (filter (fun x => negb (p x)) l) l.
Proof.
  induction l as [|x l IH]; simpl; [constructor|].
  destruct (p x); simpl; now constructor.
Qed.

(** X21.  [filterJobsByAge] splits the jobs in two: every job is current
    or archived and none is both, the order is kept on both sides (the
    jobs are the two lists shuffled together, each of them in its
    order), and a job without a date or with a date that cannot be read
    is current. *)
Theorem filterJobsByAge_partition (allJobs : list J) :
  let (currentJobs, archivedJobs) :=
    ReadmeGenerator.filterJobsByAge job_date Date_parse oneWeekAgo allJobs in
  Interleaved currentJobs archivedJobs allJobs
  /\ length currentJobs + length archivedJobs = length allJobs
  /\ archivedJobs = filter (fun job => negb (isCurrent job)) allJobs
  /\ (forall job, In job allJobs ->
        (In job currentJobs /\ ~ In job archivedJobs)
        \/ (In job archivedJobs /\ ~ In job currentJobs))
  /\ (forall job, In job allJobs ->
        truthy (job_date job) = false
        \/ Date_parse (orEmpty (job_date job)) = None ->
        In job currentJobs).
Proof.
  unfold ReadmeGenerator.filterJobsByAge.
  assert (E : filter isArchived allJobs
              = filter (fun job => negb (isCurrent job)) allJobs).
  { apply filter_ext. intros job. apply isArchived_not_current. }
  rewrite E. split; [apply filter_Interleaved|].
  split; [apply filter_lengths|]. split; [reflexivity|]. split.
  - intros job Hin. rewrite !filter_In.
    destruct (isCurrent job) eqn:Ec; [left|right]; simpl; intuition congruence.
  - intros job Hin H. apply filter_In. split; [exact Hin|].
    unfold ReadmeGenerator.isCurrent. destruct H as [H|H].
    + now rewrite H.
    + rewrite H. now destruct (negb _).
Qed.

End ByAge.

Lemma filterJobsByAge_partition_witness :
  ReadmeGenerator.filterJobsByAge (fun d : option str => d) readNewYear
    (1767225600000 + 1)%Z [Some newYear; None; Some (lit "soon")]
  = ([None; Some (lit "soon")], [Some newYear]).
Proof.
  pose proof (filterJobsByAge_partition (option str) (fun d => d) readNewYear
                (1767225600000 + 1)%Z [Some newYear; None; Some (lit "soon")]) as H.
  destruct (ReadmeGenerator.filterJobsByAge _ _ _ _) as [c a] eqn:E.
  destruct H as [_ [_ [Ha _]]]. vm_compute in E. exact (eq_sym E).
Defined.

(** ** The pipeline (lib/job-processor.js) *)

Lemma older_later (Date_parse : str -> option Z) (now later : Z)
  (job : JobProcessor.Posting) :
  (now <= later)%Z ->
  JobProcessor.isJobOlderThan14Days Date_parse now job = true ->
  JobProcessor.isJobOlderThan14Days Date_parse later job = true.
Proof.
  intros Hl. unfold JobProcessor.isJobOlderThan14Days.
  destruct (negb (truthy _)); [auto|].
  destruct (Date_parse _) as [date|]; [|auto].
  intros H. apply Z.leb_le in H. apply Z.leb_le.
  etransitivity; [exact H|]. apply Z.div_le_mono; lia.
Qed.

Lemma mergeJobs_ids {J : Type} (job_id : J -> option str)
  (persisted fresh : list J) :
  NoDup (map job_id (JobProcessor.mergeJobs job_id persisted fresh))
  /\ forall job, In job (JobProcessor.mergeJobs job_id persisted fresh) ->
       truthy (job_id job) = true.
Proof.
  unfold JobProcessor.mergeJobs. rewrite <- fold_left_app.
  destruct (Written_fold J job_id (persisted ++ fresh)) as [Hnd Hlast _].
  split.
  - rewrite ids_of_values by (intros k v Hin; now apply Hlast).
    now apply NoDup_map_Some.
  - intros job Hin. apply In_values in Hin. destruct Hin as [k Hin].
    destruct (Hlast k job Hin) as [Hid [Hne _]]. rewrite Hid.
    now destruct k.
Qed.

Lemma NoDup_map_Subseq {A B : Type} (f : A -> B) (out l : list A) :
  Subseq out l -> NoDup (map f l) -> NoDup (map f out).
Proof.
  induction 1 as [|x out l H IH|x out l H IH]; simpl; intros Hnd.
  - constructor.
  - inversion Hnd; subst. auto.
  - inversion Hnd as [|? ? Hx Hl]; subst. constructor; [|auto].
    intros Hin. apply Hx. apply in_map_iff in Hin.
    destruct Hin as [y [E Hy]]. apply in_map_iff. exists y.
    split; [exact E|]. exact (Subseq_incl _ _ H y Hy).
Qed.

Lemma filter_Subseq {A : Type} (p : A -> bool) (l : list A) :
  Subseq (filter p l) l.
Proof.
  induction l as [|x l IH]; simpl; [constructor|].
  destruct (p x); now constructor.
Qed.

(** *** The age filter on records *)

Section PostingsByAgeFacts.

Variable Date_parse : str -> option Z.
Variable clock : nat -> Z.

#[local] Abbreviation older :=
  (fun n job => JobProcessor.isJobOlderThan14Days Date_parse (clock n) job).
#[local] Abbreviation byAge := (postingsByAge Date_parse clock).

(** The age filter reads the clock between the reading it starts from
    and the one it ends with, and keeps a job by what it reads for it. *)
Lemma postingsByAge_spec (wanted : bool) (jobs : list JobProcessor.Posting) :
  forall tick kept t,
    byAge wanted tick jobs = (kept, t) ->
    tick <= t
    /\ (forall job, In job kept ->
          In job jobs /\ exists n, tick <= n <= t /\ older n job = wanted)
    /\ (forall job, In job jobs ->
          exists n, tick <= n <= t
                    /\ (older n job = wanted -> In job kept)).
Proof.
  induction jobs as [|x rest IH]; intros tick kept t H.
  - cbn [postingsByAge] in H. injection H as <- <-.
    split; [lia|]. split; intros job [].
  - cbn [postingsByAge] in H.
    set (tick' := if truthy (JobProcessor.job_posted_at_datetime_utc x)
                  then S tick else tick) in *.
    assert (Ht : tick <= tick') by (unfold tick'; destruct (truthy _); lia).
    destruct (byAge wanted tick' rest) as [kept' t'] eqn:E.
    destruct (IH _ _ _ E) as [H1 [H2 H3]].
    injection H as <- <-. split; [lia|]. split.
    + intros job Hin.
      assert (Hx : Bool.eqb (older tick x) wanted = true ->
                   exists n, tick <= n <= t' /\ older n x = wanted).
      { intros Hx. exists tick. split; [lia|]. now apply Bool.eqb_prop. }
      destruct (Bool.eqb (older tick x) wanted) eqn:Ex.
      * destruct Hin as [<-|Hin]; [split; [now left | now apply Hx]|].
        destruct (H2 job Hin) as [Hj [n [Hn Ho]]].
        split; [now right|]. exists n. split; [lia | exact Ho].
      * destruct (H2 job Hin) as [Hj [n [Hn Ho]]].
        split; [now right|]. exists n. split; [lia | exact Ho].
    + intros job [<-|Hin].
      * exists tick. split; [lia|]. intros Ho.
        rewrite Ho, Bool.eqb_reflx. now left.
      * destruct (H3 job Hin) as [n [Hn Ho]]. exists n. split; [lia|].
        intros Hw. specialize (Ho Hw).
        destruct (Bool.eqb _ wanted); [now right | exact Ho].
Qed.

Lemma postingsByAge_Subseq (wanted : bool) (jobs : list JobProcessor.Posting) :
  forall tick, Subseq (fst (byAge wanted tick jobs)) jobs.
Proof.
  induction jobs as [|x rest IH]; intros tick; [constructor|].
  cbn [postingsByAge].
  set (tick' := if truthy _ then S tick else tick).
  specialize (IH tick'). destruct (byAge wanted tick' rest) as [kept t].
  cbn [fst] in *. destruct (Bool.eqb _ wanted); now constructor.
Qed.

End PostingsByAgeFacts.

(** *** Job objects of the store *)

Lemma viewed_Forall2 {num : Type} (jobs : list (JobProcessor.Entry num))
  (records : list JobProcessor.Posting) :
  viewed jobs records <-> Forall2 (fun e p => view e = Some p) jobs records.
Proof.
  unfold viewed. revert records.
  induction jobs as [|e jobs IH]; intros [|p records]; simpl; split; intros H;
    try discriminate; try (inversion H; fail); try constructor; try reflexivity.
  - now injection H.
  - apply IH. now injection H.
  - inversion H; subst. f_equal; [assumption|]. now apply IH.
Qed.

Lemma as_posting_Forall2 {num : Type} (items : list (JobProcessor.json num))
  (records : list JobProcessor.Posting) :
  map as_posting items = map Some records ->
  Forall2 (fun e p => view e = Some p) (map JobProcessor.Stored items) records.
Proof.
  revert records.
  induction items as [|v items IH]; intros [|p records]; simpl; intros H;
    try discriminate; constructor.
  - now injection H.
  - apply IH. now injection H.
Qed.

Lemma fresh_Forall2 {num : Type} (records : list JobProcessor.Posting) :
  Forall2 (fun (e : JobProcessor.Entry num) p => view e = Some p)
    (map JobProcessor.Fresh records) records.
Proof. induction records; simpl; constructor; auto. Qed.

Section ViewFacts.

Variable num : Type.
Variable num_same : num -> num -> bool.
Variable num_falsy : num -> bool.
Variable Date_parse : str -> option Z.
Variable String_value : JobProcessor.json num -> result str.
Variable Date_value : JobProcessor.json num -> result (option Z).
Variable clock : nat -> Z.

#[local] Abbreviation V :=
  (fun (e : JobProcessor.Entry num) (p : JobProcessor.Posting) => view e = Some p).

Lemma text_field_lower (name : string)
  (props : list (str * JobProcessor.json num)) (o : option str) :
  text_field name props = Some o ->
  JobProcessor.Dyn.lower_receiver
    (JobProcessor.Dyn.or_empty num_falsy (JobProcessor.Dyn.lookup (lit name) props))
  = Ok (orEmpty o).
Proof.
  unfold text_field.
  destruct (JobProcessor.Dyn.lookup (lit name) props) as [[| | |s| |]|];
    intros H; try discriminate; injection H as <-; try reflexivity.
  now destruct s.
Qed.

Lemma text_field_template (name : string)
  (props : list (str * JobProcessor.json num)) (o : option str) :
  text_field name props = Some o ->
  JobProcessor.Dyn.template_text String_value
    (JobProcessor.Dyn.or_empty num_falsy (JobProcessor.Dyn.lookup (lit name) props))
  = Ok (orEmpty o).
Proof.
  unfold text_field.
  destruct (JobProcessor.Dyn.lookup (lit name) props) as [[| | |s| |]|];
    intros H; try discriminate; injection H as <-; try reflexivity.
  now destruct s.
Qed.

(** The properties of a job object are those of its record. *)
Lemma as_posting_inv (v : JobProcessor.json num) (p : JobProcessor.Posting) :
  as_posting v = Some p ->
  exists props,
    v = JobProcessor.JObj props
    /\ text_field "job_title" props = Some (JobProcessor.job_title (JobProcessor.posting p))
    /\ text_field "job_city" props = Some (JobProcessor.job_city (JobProcessor.posting p))
    /\ text_field "job_state" props = Some (JobProcessor.job_state (JobProcessor.posting p))
    /\ text_field "job_country" props
       = Some (JobProcessor.job_country (JobProcessor.posting p))
    /\ text_field "job_description" props
       = Some (JobProcessor.job_description (JobProcessor.posting p))
    /\ text_field "job_source" props
       = Some (JobProcessor.job_source (JobProcessor.posting p))
    /\ text_field "id" props = Some (JobProcessor.id (JobProcessor.posting p))
    /\ text_field "job_posted_at_datetime_utc" props
       = Some (JobProcessor.job_posted_at_datetime_utc p).
Proof.
  destruct v as [| | | | |props]; try discriminate. intros H.
  exists props. split; [reflexivity|]. unfold as_posting, and_then in H.
  destruct (text_field "job_apply_link" props); [|discriminate].
  destruct (text_field "employer_name" props); [|discriminate].
  destruct (text_field "job_title" props); [|discriminate].
  destruct (text_field "job_city" props); [|discriminate].
  destruct (text_field "job_state" props); [|discriminate].
  destruct (text_field "job_country" props); [|discriminate].
  destruct (text_field "job_description" props); [|discriminate].
  destruct (text_field "job_source" props); [|discriminate].
  destruct (text_field "id" props); [|discriminate].
  destruct (text_field "job_posted_at_datetime_utc" props); [|discriminate].
  injection H as <-. repeat split.
Qed.

Lemma view_isUSOnlyJob (e : JobProcessor.Entry num) (p : JobProcessor.Posting) :
  V e p ->
  JobProcessor.Dyn.isUSOnlyJob num_falsy e
  = Ok (JobProcessor.isUSOnlyJob (JobProcessor.posting p)).
Proof.
  destruct e as [job|v]; cbn [view].
  - intros [= ->]. reflexivity.
  - intros H. apply as_posting_inv in H.
    destruct H as [props [-> [_ [Hci [Hs [Hc _]]]]]].
    cbn [JobProcessor.Dyn.isUSOnlyJob JobProcessor.Dyn.get bind].
    rewrite (text_field_lower _ _ _ Hc). cbn [bind].
    rewrite (text_field_lower _ _ _ Hs). cbn [bind].
    rewrite (text_field_lower _ _ _ Hci). cbn [bind].
    reflexivity.
Qed.

Lemma view_isSeniorJob (e : JobProcessor.Entry num) (p : JobProcessor.Posting) :
  V e p ->
  JobProcessor.Dyn.isSeniorJob num_falsy String_value e
  = Ok (JobProcessor.isSeniorJob (JobProcessor.posting p)).
Proof.
  destruct e as [job|v]; cbn [view].
  - intros [= ->]. reflexivity.
  - intros H. apply as_posting_inv in H.
    destruct H as [props [-> [Ht [_ [_ [_ [Hd [Hsrc _]]]]]]]].
    cbn [JobProcessor.Dyn.isSeniorJob JobProcessor.Dyn.get bind].
    assert (Es : match JobProcessor.Dyn.lookup (lit "job_source") props with
                 | Some (JobProcessor.JStr s) => Some s
                 | _ => None
                 end = JobProcessor.job_source (JobProcessor.posting p)).
    { unfold text_field in Hsrc.
      destruct (JobProcessor.Dyn.lookup (lit "job_source") props) as [[| | |s| |]|];
        try discriminate; now injection Hsrc. }
    rewrite Es. unfold JobProcessor.isSeniorJob at 2.
    destruct (match JobProcessor.job_source (JobProcessor.posting p) with
              | Some s => eqb s (lit "jsearch")
              | None => false
              end) eqn:Ej; [reflexivity|].
    rewrite (text_field_template _ _ _ Ht). cbn [bind].
    rewrite (text_field_template _ _ _ Hd). cbn [bind].
    unfold JobProcessor.isSeniorJob, JobProcessor.seniorText.
    cbn [JobProcessor.job_source JobProcessor.job_title
         JobProcessor.job_description orEmpty].
    now rewrite Ej.
Qed.

Lemma view_isJobOlderThan14Days (e : JobProcessor.Entry num)
  (p : JobProcessor.Posting) (tick : nat) :
  V e p ->
  JobProcessor.Dyn.isJobOlderThan14Days num_falsy Date_parse Date_value clock tick e
  = Ok (JobProcessor.isJobOlderThan14Days Date_parse (clock tick) p,
        if truthy (JobProcessor.job_posted_at_datetime_utc p) then S tick
        else tick).
Proof.
  destruct e as [job|v]; cbn [view].
  - intros [= ->]. reflexivity.
  - intros H. apply as_posting_inv in H.
    destruct H as [props [-> [_ [_ [_ [_ [_ [_ [_ Hd]]]]]]]]].
    cbn [JobProcessor.Dyn.isJobOlderThan14Days JobProcessor.Dyn.get bind].
    unfold text_field in Hd. unfold JobProcessor.isJobOlderThan14Days.
    destruct (JobProcessor.Dyn.lookup (lit "job_posted_at_datetime_utc") props)
      as [[| | |s| |]|]; try discriminate; injection Hd as <-;
      try reflexivity.
    destruct s as [|c s]; [reflexivity|].
    cbn [JobProcessor.falsy truthy negb orEmpty bind].
    now destruct (Date_parse (c :: s)).
Qed.

(** *** The merge on job objects *)

#[local] Abbreviation MapRel :=
  (Forall2 (fun (a : JobProcessor.json num * JobProcessor.Entry num)
                (b : str * JobProcessor.Posting) =>
              fst a = JobProcessor.JStr (fst b) /\ V (snd a) (snd b))).

Lemma map_set_sim (s : str) (e : JobProcessor.Entry num)
  (p : JobProcessor.Posting) :
  V e p ->
  forall m tm,
    MapRel m tm ->
    MapRel (JobProcessor.Dyn.map_set num_same (JobProcessor.JStr s) e m)
      (JobProcessor.map_set s p tm).
Proof.
  intros Hv m tm H. induction H as [|[k e'] [s' p'] m tm [Hk He] H IH]; simpl.
  - constructor; [split; [reflexivity | exact Hv] | constructor].
  - cbn [fst snd] in Hk, He. subst k. cbn [JobProcessor.same_value_zero].
    destruct (eqb s' s).
    + constructor; [split; [reflexivity | exact Hv] | exact H].
    + constructor; [split; [reflexivity | exact He] | exact IH].
Qed.

Lemma insert_job_sim (e : JobProcessor.Entry num) (p : JobProcessor.Posting) :
  V e p ->
  forall m tm,
    MapRel m tm ->
    exists m',
      JobProcessor.Dyn.insert_job num_same num_falsy m e = Ok m'
      /\ MapRel m' (JobProcessor.insert_job JobProcessor.posting_id tm p).
Proof.
  intros Hv m tm H. unfold JobProcessor.Dyn.insert_job, JobProcessor.insert_job.
  destruct e as [job|v].
  - injection Hv as ->. cbn [JobProcessor.Dyn.id_of bind].
    destruct (JobProcessor.posting_id p) as [[|c s]|]; cbn [truthy orEmpty];
      eexists; (split; [reflexivity|]); try exact H.
    cbn [JobProcessor.falsy]. now apply map_set_sim.
  - pose proof Hv as Hv'. cbn [view] in Hv'. apply as_posting_inv in Hv'.
    destruct Hv' as [props [-> [_ [_ [_ [_ [_ [_ [Hi _]]]]]]]]].
    cbn [JobProcessor.Dyn.id_of JobProcessor.Dyn.get bind].
    unfold text_field in Hi. unfold JobProcessor.posting_id.
    destruct (JobProcessor.Dyn.lookup (lit "id") props) as [[| | |s| |]|];
      try discriminate; injection Hi as <-; cbn [truthy orEmpty JobProcessor.falsy];
      try (eexists; split; [reflexivity | exact H]).
    destruct s as [|c s]; eexists; (split; [reflexivity|]); [exact H|].
    now apply map_set_sim.
Qed.

Lemma insert_jobs_sim (es : list (JobProcessor.Entry num))
  (ps : list JobProcessor.Posting) :
  Forall2 V es ps ->
  forall m tm,
    MapRel m tm ->
    exists m',
      JobProcessor.Dyn.insert_jobs num_same num_falsy m es = Ok m'
      /\ MapRel m' (fold_left (JobProcessor.insert_job JobProcessor.posting_id) ps tm).
Proof.
  induction 1 as [|e p es ps Hv H IH]; intros m tm Hm; simpl.
  - now exists m.
  - destruct (insert_job_sim e p Hv m tm Hm) as [m1 [E1 H1]].
    rewrite E1. cbn [bind]. now apply IH.
Qed.

Lemma mergeJobs_sim (items : list (JobProcessor.json num))
  (persisted fresh : list JobProcessor.Posting) :
  map as_posting items = map Some persisted ->
  exists merged,
    JobProcessor.Dyn.mergeJobs num_same num_falsy (JobProcessor.JArr items) fresh
    = Ok merged
    /\ Forall2 V merged
         (JobProcessor.mergeJobs JobProcessor.posting_id persisted fresh).
Proof.
  intros Hi. unfold JobProcessor.Dyn.mergeJobs, JobProcessor.mergeJobs.
  destruct (insert_jobs_sim _ _ (as_posting_Forall2 _ _ Hi) [] [])
    as [m1 [E1 H1]]; [constructor|].
  rewrite E1. cbn [bind].
  destruct (insert_jobs_sim _ _ (fresh_Forall2 fresh) m1 _ H1) as [m2 [E2 H2]].
  rewrite E2. cbn [bind]. eexists. split; [reflexivity|].
  unfold JobProcessor.map_values. clear - H2.
  induction H2 as [|a b m tm [_ Hv] H IH]; simpl; constructor; auto.
Qed.

(** A [null] in the store stops the merge. *)
Lemma insert_jobs_null (items : list (JobProcessor.json num)) :
  In JobProcessor.JNull items ->
  forall m, exists e,
    JobProcessor.Dyn.insert_jobs num_same num_falsy m
      (map JobProcessor.Stored items) = Throw e.
Proof.
  induction items as [|v items IH]; [intros []|].
  intros [->|Hin] m; cbn [map JobProcessor.Dyn.insert_jobs].
  - eexists. reflexivity.
  - destruct (JobProcessor.Dyn.insert_job num_same num_falsy m
                (JobProcessor.Stored v)) as [m'|e]; cbn [bind].
    + now apply IH.
    + now exists e.
Qed.

(** *** The filters on job objects *)

Lemma filter_by_sim (test : JobProcessor.Entry num -> result bool)
  (g : JobProcessor.Posting -> bool) :
  (forall e p, V e p -> test e = Ok (g p)) ->
  forall es ps,
    Forall2 V es ps ->
    exists kept,
      JobProcessor.Dyn.filter_by test es = Ok kept
      /\ Forall2 V kept (filter g ps).
Proof.
  intros Ht es ps H. induction H as [|e p es ps Hv H [kept [E IH]]]; simpl.
  - exists []. split; [reflexivity | constructor].
  - rewrite (Ht e p Hv). cbn [bind]. rewrite E. cbn [bind].
    eexists. split; [reflexivity|].
    destruct (g p); [constructor|]; assumption.
Qed.

Lemma filterByAge_sim (wanted : bool) (es : list (JobProcessor.Entry num))
  (ps : list JobProcessor.Posting) :
  Forall2 V es ps ->
  forall tick,
    exists kept,
      JobProcessor.Dyn.filterByAge num_falsy Date_parse Date_value clock wanted
        tick es
      = Ok (kept, snd (postingsByAge Date_parse clock wanted tick ps))
      /\ Forall2 V kept (fst (postingsByAge Date_parse clock wanted tick ps)).
Proof.
  induction 1 as [|e p es ps Hv H IH]; intros tick.
  - exists []. split; [reflexivity | constructor].
  - cbn [JobProcessor.Dyn.filterByAge postingsByAge].
    rewrite (view_isJobOlderThan14Days e p tick Hv). cbn [bind].
    set (tick' := if truthy _ then S tick else tick).
    destruct (IH tick') as [kept [E Hk]]. rewrite E. cbn [bind].
    destruct (postingsByAge Date_parse clock wanted tick' ps) as [kept' t].
    cbn [fst snd] in *. eexists. split; [reflexivity|].
    destruct (Bool.eqb _ wanted); [constructor|]; assumption.
Qed.

End ViewFacts.

(** *** processJobs *)

Section PipelineFacts.

Variable num : Type.
Variable num_same : num -> num -> bool.
Variable num_falsy : num -> bool.
Variable URL_parse : str -> option URL.
Variable Date_parse : str -> option Z.
Variable String_value : JobProcessor.json num -> result str.
Variable Date_value : JobProcessor.json num -> result (option Z).
Variable clock : nat -> Z.
Variable writeNewJobsFile : list JobProcessor.Posting -> result unit.
Variable saveCurrentJobsStore : list (JobProcessor.Entry num) -> result unit.
Variable cwd : str.
Variable path_join : list str -> str.
Variable existsSync : str -> bool.
Variable readFileSync : str -> result str.
Variable JSON_parse : str -> result (JobProcessor.json num).

#[local] Abbreviation loadCurrentJobsStore :=
  (JobProcessor.loadCurrentJobsStore num_falsy cwd path_join existsSync
     readFileSync JSON_parse).

#[local] Abbreviation older :=
  (fun n job => JobProcessor.isJobOlderThan14Days Date_parse (clock n) job).
#[local] Abbreviation byAge := (postingsByAge Date_parse clock).
#[local] Abbreviation run :=
  (JobProcessor.processJobs num_same num_falsy URL_parse Date_parse String_value
     Date_value clock writeNewJobsFile saveCurrentJobsStore cwd path_join
     existsSync readFileSync JSON_parse).
#[local] Abbreviation V :=
  (fun (e : JobProcessor.Entry num) (p : JobProcessor.Posting) => view e = Some p).

(** On a store of job objects the pipeline does on the objects what the
    functions on records do on their records. *)
Lemma processJobs_viewed (jobs : list JobProcessor.Posting)
  (items : list (JobProcessor.json num))
  (persisted : list JobProcessor.Posting) (u : unit) :
  writeNewJobsFile (map (JobProcessor.assignId URL_parse) jobs) = Ok u ->
  loadCurrentJobsStore = Ok (JobProcessor.JArr items) ->
  map as_posting items = map Some persisted ->
  let nonSenior :=
    filter (fun job => negb (JobProcessor.isSeniorJob (JobProcessor.posting job)))
      (filter (fun job => JobProcessor.isUSOnlyJob (JobProcessor.posting job))
         (JobProcessor.mergeJobs JobProcessor.posting_id persisted
            (map (JobProcessor.assignId URL_parse) jobs))) in
  exists cur arc,
    Forall2 V cur (fst (byAge false 0 nonSenior))
    /\ Forall2 V arc (fst (byAge true (snd (byAge false 0 nonSenior)) nonSenior))
    /\ run jobs = (_ <- saveCurrentJobsStore cur ;; Ok (cur, arc)).
Proof.
  intros Hw Hl Hi nonSenior. unfold JobProcessor.processJobs.
  rewrite Hw, Hl. cbn [bind JobProcessor.Dyn.length_text].
  destruct (mergeJobs_sim num num_same num_falsy items persisted
              (map (JobProcessor.assignId URL_parse) jobs) Hi) as [merged [Em Hm]].
  rewrite Em. cbn [bind].
  destruct (filter_by_sim num (JobProcessor.Dyn.isUSOnlyJob num_falsy)
              (fun job => JobProcessor.isUSOnlyJob (JobProcessor.posting job))
              (view_isUSOnlyJob num num_falsy) _ _ Hm) as [us [Eu Hu]].
  rewrite Eu. cbn [bind].
  destruct (filter_by_sim num
              (fun job =>
                 b <- JobProcessor.Dyn.isSeniorJob num_falsy String_value job ;;
                 Ok (negb b))
              (fun job => negb (JobProcessor.isSeniorJob (JobProcessor.posting job))))
    with (es := us)
         (ps := filter (fun job => JobProcessor.isUSOnlyJob (JobProcessor.posting job))
                  (JobProcessor.mergeJobs JobProcessor.posting_id persisted
                     (map (JobProcessor.assignId URL_parse) jobs)))
    as [ns [En Hn]].
  { intros e p Hv. now rewrite (view_isSeniorJob num num_falsy String_value e p Hv). }
  { exact Hu. }
  rewrite En. cbn [bind]. fold nonSenior in Hn.
  destruct (filterByAge_sim num num_falsy Date_parse Date_value clock false
              ns nonSenior Hn 0) as [cur [Ec Hc]].
  rewrite Ec. cbn [bind].
  destruct (filterByAge_sim num num_falsy Date_parse Date_value clock true
              ns nonSenior Hn (snd (byAge false 0 nonSenior))) as [arc [Ea Ha]].
  exists cur, arc. split; [exact Hc|]. split; [exact Ha|].
  destruct (saveCurrentJobsStore cur) as [u'|e]; cbn [bind]; [|reflexivity].
  rewrite Ea. reflexivity.
Qed.

(** X22.  [processJobs] is rejected with the error of the write of
    new_jobs.json when that throws.  It is rejected as well when the
    store of current jobs holds a value that is not an array, or an array
    with a [null] in it.  On a store that is an array of job objects
    (every property that is read is absent, [null] or a string) it is
    fulfilled whenever its two writes succeed, and then, the returned
    jobs seen as records: each of them is a merged job that has an id,
    passes the location filter and is not senior; no two current jobs
    share an id; with a clock that does not run backwards no such job is
    lost: it is current or archived, and it is both only if it reaches
    the age of fourteen days while the function runs; a job without a
    readable date is current and never archived. *)
Theorem processJobs_splits (jobs : list JobProcessor.Posting) :
  let fresh := map (JobProcessor.assignId URL_parse) jobs in
  (forall e, writeNewJobsFile fresh = Throw e -> run jobs = Throw e)
  /\ (forall store,
        loadCurrentJobsStore = Ok store ->
        (forall items, store <> JobProcessor.JArr items)
        \/ (exists items,
              store = JobProcessor.JArr items /\ In JobProcessor.JNull items) ->
        exists e, run jobs = Throw e)
  /\ (forall items persisted,
        loadCurrentJobsStore = Ok (JobProcessor.JArr items) ->
        map as_posting items = map Some persisted ->
        let merged :=
          JobProcessor.mergeJobs JobProcessor.posting_id persisted fresh in
        let eligible job :=
          In job merged
          /\ JobProcessor.isUSOnlyJob (JobProcessor.posting job) = true
          /\ JobProcessor.isSeniorJob (JobProcessor.posting job) = false in
        ((forall l, exists u, writeNewJobsFile l = Ok u) ->
         (forall l, exists u, saveCurrentJobsStore l = Ok u) ->
         exists cur arc, run jobs = Ok (cur, arc))
        /\ (forall cur arc,
              run jobs = Ok (cur, arc) ->
              exists currentJobs archivedJobs,
                viewed cur currentJobs /\ viewed arc archivedJobs
                /\ (forall job, In job currentJobs \/ In job archivedJobs ->
                      eligible job /\ truthy (JobProcessor.posting_id job) = true)
                /\ NoDup (map JobProcessor.posting_id currentJobs)
                /\ (forall job, eligible job ->
                      truthy (JobProcessor.job_posted_at_datetime_utc job) = false
                      \/ Date_parse
                           (orEmpty (JobProcessor.job_posted_at_datetime_utc job))
                         = None ->
                      In job currentJobs /\ ~ In job archivedJobs)
                /\ (forall job, In job currentJobs -> In job archivedJobs ->
                      exists n m,
                        n <= m /\ older n job = false /\ older m job = true)
                /\ (monotone clock ->
                    forall job, eligible job ->
                      In job currentJobs \/ In job archivedJobs))).
Proof.
  cbv zeta. set (fresh := map (JobProcessor.assignId URL_parse) jobs).
  split; [|split].
  - intros e He. unfold JobProcessor.processJobs. fold fresh. now rewrite He.
  - intros store Hl Hs. unfold JobProcessor.processJobs. fold fresh.
    destruct (writeNewJobsFile fresh) as [u|e]; cbn [bind]; [|now exists e].
    rewrite Hl. cbn [bind].
    destruct Hs as [Hs|[items [-> Hin]]].
    + destruct store as [|b|n|s|items|props];
        try (eexists; reflexivity); [exfalso; now apply (Hs items)|].
      destruct (JobProcessor.Dyn.length_text String_value
                  (JobProcessor.JObj props)) as [[]|e]; cbn [bind];
        eexists; reflexivity.
    + cbn [JobProcessor.Dyn.length_text bind JobProcessor.Dyn.mergeJobs].
      destruct (insert_jobs_null num num_same num_falsy items Hin []) as [e He].
      rewrite He. cbn [bind]. now exists e.
  - intros items persisted Hl Hi.
    set (merged := JobProcessor.mergeJobs JobProcessor.posting_id persisted fresh).
    set (nonSenior :=
           filter (fun job => negb (JobProcessor.isSeniorJob (JobProcessor.posting job)))
             (filter (fun job => JobProcessor.isUSOnlyJob (JobProcessor.posting job))
                merged)).
    assert (Hel : forall job,
              In job nonSenior <->
              In job merged
              /\ JobProcessor.isUSOnlyJob (JobProcessor.posting job) = true
              /\ JobProcessor.isSeniorJob (JobProcessor.posting job) = false).
    { intros job. unfold nonSenior. rewrite !filter_In, negb_true_iff. tauto. }
    split.
    + intros Hw Hs. destruct (Hw fresh) as [u Eu].
      destruct (processJobs_viewed jobs items persisted u Eu Hl Hi)
        as [cur [arc [_ [_ E]]]].
      exists cur, arc. rewrite E. destruct (Hs cur) as [u' ->]. reflexivity.
    + intros cur0 arc0 H.
      destruct (writeNewJobsFile fresh) as [u|e] eqn:Eu.
      2:{ unfold JobProcessor.processJobs in H. fold fresh in H.
          rewrite Eu in H. discriminate. }
      destruct (processJobs_viewed jobs items persisted u Eu Hl Hi)
        as [cur [arc [Hcv [Hav E]]]].
      fold fresh in Hcv, Hav. fold merged in Hcv, Hav. fold nonSenior in Hcv, Hav.
      rewrite E in H.
      destruct (saveCurrentJobsStore cur) as [u'|e]; [|discriminate].
      cbn [bind] in H. injection H as <- <-.
      destruct (byAge false 0 nonSenior) as [curP tick] eqn:Ec.
      destruct (byAge true tick nonSenior) as [arcP t2] eqn:Ea.
      cbn [fst snd] in Hcv, Hav. rewrite Ea in Hav. cbn [fst] in Hav.
      exists curP, arcP.
      split; [now apply viewed_Forall2|]. split; [now apply viewed_Forall2|].
      destruct (postingsByAge_spec Date_parse clock false nonSenior 0 curP tick Ec)
        as [_ [Hc1 Hc2]].
      destruct (postingsByAge_spec Date_parse clock true nonSenior tick arcP t2 Ea)
        as [Ht [Ha1 Ha2]].
      destruct (mergeJobs_ids JobProcessor.posting_id persisted fresh)
        as [Hnd Hid]. fold merged in Hnd, Hid.
      split; [|split; [|split; [|split]]].
      * intros job [Hin|Hin];
          [destruct (Hc1 job Hin) as [Hj _] | destruct (Ha1 job Hin) as [Hj _]];
          apply Hel in Hj; (split; [exact Hj|]); apply Hid; tauto.
      * pose proof (postingsByAge_Subseq Date_parse clock false nonSenior 0) as Hs.
        rewrite Ec in Hs. cbn [fst] in Hs.
        apply (NoDup_map_Subseq _ _ _ Hs).
        apply (NoDup_map_Subseq _ _ _ (filter_Subseq _ _)).
        apply (NoDup_map_Subseq _ _ _ (filter_Subseq _ _)). exact Hnd.
      * intros job Hj Hd. apply Hel in Hj.
        assert (Ho : forall n, older n job = false).
        { intros n. unfold JobProcessor.isJobOlderThan14Days.
          destruct Hd as [Hd|Hd]; [now rewrite Hd|].
          rewrite Hd. now destruct (negb _). }
        split.
        -- destruct (Hc2 job Hj) as [n [_ Hn]]. apply Hn, Ho.
        -- intros Hin. destruct (Ha1 job Hin) as [_ [n [_ Hn]]].
           rewrite Ho in Hn. discriminate.
      * intros job Hc Ha0. destruct (Hc1 job Hc) as [_ [n [Hn Hon]]].
        destruct (Ha1 job Ha0) as [_ [m [Hm Hom]]].
        exists n, m. split; [lia|]. auto.
      * intros Hmono job Hj. apply Hel in Hj.
        destruct (Hc2 job Hj) as [n [Hn Hcur]].
        destruct (Ha2 job Hj) as [m [Hm Harc]].
        destruct (older n job) eqn:Eo; [right | left; now apply Hcur].
        apply Harc. apply (older_later Date_parse (clock n)); [|exact Eo].
        apply Hmono. lia.
Qed.

End PipelineFacts.

(** The pipeline twenty days after the new year.  The store file holds
    one job object that was posted on new year's day; the feed has a job
    without a date and a senior job: the first is current, the stored job
    is archived, and the senior one is in neither list.  With a store
    file that holds an object the promise is rejected. *)
Lemma processJobs_splits_witness :
  JobProcessor.processJobs (fun _ _ : unit => true) (fun _ => false) plainURL
    readNewYear (fun _ => Ok (lit "1")) (fun _ => Ok None)
    (tickingFrom twentyDaysLater) (fun _ => Ok tt) (fun _ => Ok tt)
    (lit "/repo") (join (lit "/")) (fun _ => true) (fun _ => Ok (lit "store"))
    (fun _ => Ok (JobProcessor.JArr
                    [storedJob "Analyst" "acme-com-jobs-7" newYear]))
    [ austinPosting "Engineer" "https://acme.com/jobs/1" None;
      austinPosting "Senior Engineer" "https://acme.com/jobs/2" None ]
  = Ok ([JobProcessor.Fresh
           (JobProcessor.assignId plainURL
              (austinPosting "Engineer" "https://acme.com/jobs/1" None))],
        [JobProcessor.Stored (storedJob "Analyst" "acme-com-jobs-7" newYear)])
  /\ exists e,
       JobProcessor.processJobs (fun _ _ : unit => true) (fun _ => false) plainURL
         readNewYear (fun _ => Ok (lit "1")) (fun _ => Ok None)
         (tickingFrom twentyDaysLater) (fun _ => Ok tt) (fun _ => Ok tt)
         (lit "/repo") (join (lit "/")) (fun _ => true)
         (fun _ => Ok (lit "store"))
         (fun _ => Ok (JobProcessor.JObj [(lit "a", JobProcessor.JNum tt)]))
         [ austinPosting "Engineer" "https://acme.com/jobs/1" None ]
       = Throw e.
Proof.
  split.
  - pose proof (processJobs_splits unit (fun _ _ => true) (fun _ => false) plainURL
                  readNewYear (fun _ => Ok (lit "1")) (fun _ => Ok None)
                  (tickingFrom twentyDaysLater) (fun _ => Ok tt) (fun _ => Ok tt)
                  (lit "/repo") (join (lit "/")) (fun _ => true)
                  (fun _ => Ok (lit "store"))
                  (fun _ => Ok (JobProcessor.JArr
                                  [storedJob "Analyst" "acme-com-jobs-7" newYear]))
                  [ austinPosting "Engineer" "https://acme.com/jobs/1" None;
                    austinPosting "Senior Engineer" "https://acme.com/jobs/2" None ])
      as [_ [_ H]].
    destruct (H [storedJob "Analyst" "acme-com-jobs-7" newYear]
                [JobProcessor.mkPosting
                   (JobProcessor.mkJob None None (Some (lit "Analyst")) None
                      (Some (lit "TX")) None None None
                      (Some (lit "acme-com-jobs-7")))
                   (Some newYear)]
                eq_refl eq_refl) as [Hrun _].
    destruct Hrun as [cur [arc E]].
    + intros l. now exists tt.
    + intros l. now exists tt.
    + rewrite E. pose proof E as E'. vm_compute in E'.
      injection E' as <- <-. reflexivity.
  - apply (processJobs_splits unit (fun _ _ => true) (fun _ => false) plainURL
             readNewYear (fun _ => Ok (lit "1")) (fun _ => Ok None)
             (tickingFrom twentyDaysLater) (fun _ => Ok tt) (fun _ => Ok tt)
             (lit "/repo") (join (lit "/")) (fun _ => true)
             (fun _ => Ok (lit "store"))
             (fun _ => Ok (JobProcessor.JObj [(lit "a", JobProcessor.JNum tt)]))
             [ austinPosting "Engineer" "https://acme.com/jobs/1" None ])
      with (store := JobProcessor.JObj [(lit "a", JobProcessor.JNum tt)]).
    + reflexivity.
    + left. intros items. discriminate.
Defined.


(** ** Saving and loading the stores (lib/job-processor.js) *)

Lemma disk_renamed_file_reads :
  renamed_file_reads disk_exists disk_read disk_write disk_rename.
Proof.
  intros fs fs1 fs2 p q text Hw Hr.
  unfold disk_write in Hw. injection Hw as <-.
  unfold disk_rename in Hr. rewrite eqb_refl in Hr. injection Hr as <-.
  unfold disk_exists, disk_read. now rewrite eqb_refl.
Qed.

Section SaveFacts.

Variable num : Type.
Variable num_same : num -> num -> bool.
Variable num_falsy : num -> bool.
Variable FS : Type.
Variable cwd : str.
Variable path_join : list str -> str.
Variable existsSync : FS -> str -> bool.
Variable readFileSync : FS -> str -> result str.
Variable mkdirSync : FS -> str -> result FS.
Variable writeFileSync : FS -> str -> str -> result FS.
Variable renameSync : FS -> str -> str -> result FS.
Variable JSON_stringify : JobProcessor.json num -> str.
Variable JSON_parse : str -> result (JobProcessor.json num).

#[local] Abbreviation set_add := (JobProcessor.set_add num_same).

(** Adding distinct strings that the set does not hold appends them in
    their order. *)
Lemma set_add_fresh (ks : list str) :
  forall s : list (JobProcessor.json num),
    NoDup ks -> (forall k, In k ks -> ~ In (JobProcessor.JStr k) s) ->
    fold_left set_add (map JobProcessor.JStr ks) s
    = s ++ map JobProcessor.JStr ks.
Proof.
  induction ks as [|k ks IH]; intros s Hnd Hs; simpl.
  - now rewrite app_nil_r.
  - inversion Hnd as [|? ? Hk Hks]; subst.
    unfold JobProcessor.set_add at 2.
    destruct (JobProcessor.set_has num_same s (JobProcessor.JStr k)) eqn:E.
    + apply set_has_string in E. exfalso. apply (Hs k); [now left | exact E].
    + rewrite IH; [now rewrite <- app_assoc | exact Hks |].
      intros k' Hk' Hin. apply in_app_or in Hin. destruct Hin as [Hin|[Hin|[]]].
      * apply (Hs k'); [now right | exact Hin].
      * injection Hin as <-. contradiction.
Qed.

(** What a save leaves behind: the file of the store exists and holds the
    text of the data. *)
Lemma writeStore_file (fs fs' : FS) (name temp : str)
    (data : JobProcessor.json num) :
  renamed_file_reads existsSync readFileSync writeFileSync renameSync ->
  JobProcessor.writeStore cwd path_join existsSync mkdirSync writeFileSync
    renameSync JSON_stringify fs name temp data = Ok fs' ->
  let path := path_join [JobProcessor.dataDir cwd path_join; name] in
  existsSync fs' path = true
  /\ readFileSync fs' path = Ok (JSON_stringify data).
Proof.
  intros Hfs Hsave. unfold JobProcessor.writeStore in Hsave.
  destruct (JobProcessor.ensureDataDir cwd path_join existsSync mkdirSync fs)
    as [fs0|e]; simpl in Hsave; [|discriminate].
  destruct (writeFileSync fs0 _ _) as [fs1|e] eqn:Ew; simpl in Hsave;
    [|discriminate].
  exact (Hfs _ _ _ _ _ _ Ew Hsave).
Qed.

(** X23.  What is saved is what is loaded, on a file system where a text
    written to a temporary file and renamed is the text of the file of
    the new name, and for data that [JSON.stringify] and [JSON.parse]
    give back: after a successful [saveSeenJobsStore] of a set of
    distinct string ids, [loadSeenJobsStore] returns the same ids in the
    same order; after a successful [saveCurrentJobsStore] of an array,
    [loadCurrentJobsStore] returns that array. *)
Theorem stores_round_trip (fs fs' : FS) (ids : list str)
    (jobs : list (JobProcessor.json num))
    (Hfs : renamed_file_reads existsSync readFileSync writeFileSync renameSync) :
  (NoDup ids ->
   JSON_parse (JSON_stringify (JobProcessor.JArr (map JobProcessor.JStr ids)))
   = Ok (JobProcessor.JArr (map JobProcessor.JStr ids)) ->
   JobProcessor.saveSeenJobsStore cwd path_join existsSync mkdirSync
     writeFileSync renameSync JSON_stringify fs (map JobProcessor.JStr ids)
   = Ok fs' ->
   JobProcessor.loadSeenJobsStore num_same cwd path_join (existsSync fs')
     (readFileSync fs') JSON_parse
   = Ok (map JobProcessor.JStr ids))
  /\ (JSON_parse (JSON_stringify (JobProcessor.JArr jobs))
      = Ok (JobProcessor.JArr jobs) ->
      JobProcessor.saveCurrentJobsStore cwd path_join existsSync mkdirSync
        writeFileSync renameSync JSON_stringify fs (JobProcessor.JArr jobs)
      = Ok fs' ->
      JobProcessor.loadCurrentJobsStore num_falsy cwd path_join (existsSync fs')
        (readFileSync fs') JSON_parse
      = Ok (JobProcessor.JArr jobs)).
Proof.
  split.
  - intros Hnd Hjson Hsave.
    destruct (writeStore_file _ _ _ _ _ Hfs Hsave) as [Hex Hrd].
    unfold JobProcessor.loadSeenJobsStore.
    rewrite Hex, Hrd. simpl. rewrite Hjson. simpl.
    rewrite (set_add_fresh ids [] Hnd); [reflexivity|]. intros k _ [].
  - intros Hjson Hsave.
    destruct (writeStore_file _ _ _ _ _ Hfs Hsave) as [Hex Hrd].
    unfold JobProcessor.loadCurrentJobsStore.
    rewrite Hex, Hrd. simpl. rewrite Hjson. reflexivity.
Qed.

End SaveFacts.

(** Two ids saved to an empty file system and loaded again; an array of
    one job saved and loaded again. *)
Lemma stores_round_trip_witness :
  (exists fs',
     JobProcessor.saveSeenJobsStore (lit "/repo") (join (lit "/")) disk_exists
       disk_mkdir disk_write disk_rename (fun _ : JobProcessor.json unit => lit "ids")
       emptyDisk (map JobProcessor.JStr twoIds) = Ok fs'
     /\ JobProcessor.loadSeenJobsStore (fun _ _ : unit => true) (lit "/repo")
          (join (lit "/")) (disk_exists fs') (disk_read fs')
          (fun _ => Ok (JobProcessor.JArr (map JobProcessor.JStr twoIds)))
        = Ok (map JobProcessor.JStr twoIds))
  /\ (exists fs',
        JobProcessor.saveCurrentJobsStore (lit "/repo") (join (lit "/"))
          disk_exists disk_mkdir disk_write disk_rename
          (fun _ : JobProcessor.json unit => lit "jobs")
          emptyDisk (JobProcessor.JArr [legacySeen]) = Ok fs'
        /\ JobProcessor.loadCurrentJobsStore (fun _ : unit => false) (lit "/repo")
             (join (lit "/")) (disk_exists fs') (disk_read fs')
             (fun _ => Ok (JobProcessor.JArr [legacySeen]))
           = Ok (JobProcessor.JArr [legacySeen])).
Proof.
  split.
  - eexists. split; [reflexivity|].
    apply (stores_round_trip unit (fun _ _ => true) (fun _ => false) Disk
             (lit "/repo") (join (lit "/")) disk_exists disk_read disk_mkdir
             disk_write disk_rename (fun _ => lit "ids")
             (fun _ => Ok (JobProcessor.JArr (map JobProcessor.JStr twoIds)))
             emptyDisk _ twoIds [] disk_renamed_file_reads).
    + repeat constructor; simpl; intros H; repeat destruct H as [H|H];
        try discriminate H; exact H.
    + reflexivity.
    + reflexivity.
  - eexists. split; [reflexivity|].
    apply (stores_round_trip unit (fun _ _ => true) (fun _ => false) Disk
             (lit "/repo") (join (lit "/")) disk_exists disk_read disk_mkdir
             disk_write disk_rename (fun _ => lit "jobs")
             (fun _ => Ok (JobProcessor.JArr [legacySeen]))
             emptyDisk _ [] [legacySeen] disk_renamed_file_reads).
    + reflexivity.
    + reflexivity.
Defined.

(** ** What the classifiers answer *)

Lemma defaultCategory_range (text : str) :
  In (Utils.defaultCategory text) Categories.categories.
Proof.
  unfold Utils.defaultCategory.
  repeat match goal with
         | |- context [if ?b then _ else _] => destruct b
         end; vm_compute; tauto.
Qed.

Lemma defaultLevel_range (text : str) :
  Utils.defaultLevel text = lit "Senior" \/ Utils.defaultLevel text = lit "Entry-Level".
Proof.
  unfold Utils.defaultLevel.
  repeat match goal with
         | |- context [if ?b then _ else _] => destruct b
         end; auto.
Qed.

(** X24.  [getExperienceLevel] answers "Senior", "Entry-Level" or
    "Mid-Level", and "Mid-Level" only where a configured Mid-Level keyword
    occurs in the text: without a configuration it never answers
    "Mid-Level", the default level that config/categories.js names.
    Without a configuration [getJobCategory] answers one of the eleven
    categories of config/categories.js. *)
Theorem classifier_answers (title : str) (description : option str)
  (config : option Utils.Config) :
  let text := Utils.classifierText title description in
  let level := Utils.getExperienceLevel title description config in
  (level = lit "Senior" \/ level = lit "Entry-Level" \/ level = lit "Mid-Level")
  /\ (level = lit "Mid-Level" ->
      exists levels kws kw,
        Utils.configuredLevels config = Some levels
        /\ Utils.MidLevel levels = Some kws /\ In kw kws /\ Contains kw text)
  /\ Utils.getExperienceLevel title description None <> Categories.defaultExperienceLevel
  /\ In (Utils.getJobCategory title description None) Categories.categories.
Proof.
  cbv zeta. unfold Utils.getExperienceLevel, Utils.getJobCategory.
  cbn [Utils.configuredLevels Utils.configuredKeywords].
  set (text := Utils.classifierText title description).
  pose proof (defaultLevel_range text) as Hd.
  assert (Hn : Utils.defaultLevel text <> lit "Mid-Level").
  { destruct Hd as [-> | ->]; discriminate. }
  split; [|split; [|split]].
  - destruct (Utils.configuredLevels config) as [levels|]; [|tauto].
    destruct (Utils.level_matches (Utils.Senior levels) text); [tauto|].
    destruct (Utils.level_matches (Utils.EntryLevel levels) text); [tauto|].
    destruct (Utils.level_matches (Utils.MidLevel levels) text); tauto.
  - destruct (Utils.configuredLevels config) as [levels|]; [|contradiction].
    destruct (Utils.level_matches (Utils.Senior levels) text); [discriminate|].
    destruct (Utils.level_matches (Utils.EntryLevel levels) text); [discriminate|].
    destruct (Utils.level_matches (Utils.MidLevel levels) text) eqn:E;
      [|contradiction].
    intros _. unfold Utils.level_matches in E.
    destruct (Utils.MidLevel levels) as [kws|] eqn:Ek; [|discriminate].
    apply includes_any_spec in E. destruct E as [kw [Hin Hc]].
    now exists levels, kws, kw.
  - exact Hn.
  - apply defaultCategory_range.
Qed.

Lemma classifier_answers_witness :
  exists levels kws kw,
    Utils.configuredLevels (Some testConfig) = Some levels
    /\ Utils.MidLevel levels = Some kws /\ In kw kws
    /\ Contains kw (Utils.classifierText (lit "Intermediate Engineer") None).
Proof.
  apply (proj1 (proj2 (classifier_answers (lit "Intermediate Engineer") None
                         (Some testConfig)))).
  reflexivity.
Defined.

(** X25.  The two tests of seniority agree on this: a job that does not
    come from JSearch, that the default rules of [getExperienceLevel]
    call "Senior" and whose text has none of the entry-level keywords of
    [isSeniorJob] is a senior job for [isSeniorJob] too, so the pipeline
    drops it. *)
Theorem senior_tests_agree (job : JobProcessor.Job) (title : str) :
  JobProcessor.job_title job = Some title ->
  JobProcessor.job_source job <> Some (lit "jsearch") ->
  Utils.getExperienceLevel title (JobProcessor.job_description job) None
    = lit "Senior" ->
  includes_any (JobProcessor.seniorText job) JobProcessor.entryLevelKeywords = false ->
  JobProcessor.isSeniorJob job = true.
Proof.
  intros Ht Hs Hl He. unfold JobProcessor.isSeniorJob.
  assert (Es : match JobProcessor.job_source job with
               | Some s => eqb s (lit "jsearch")
               | None => false
               end = false).
  { destruct (JobProcessor.job_source job) as [s|]; [|reflexivity].
    apply eqb_neq. congruence. }
  rewrite Es, He. cbn [negb]. rewrite andb_true_r.
  assert (Et : JobProcessor.seniorText job
               = Utils.classifierText title (JobProcessor.job_description job)).
  { unfold JobProcessor.seniorText, Utils.classifierText. now rewrite Ht. }
  rewrite Et. unfold Utils.getExperienceLevel in Hl.
  cbn [Utils.configuredLevels] in Hl. unfold Utils.defaultLevel in Hl.
  set (text := Utils.classifierText title (JobProcessor.job_description job)) in *.
  unfold includes_any, JobProcessor.seniorKeywords. cbn [map existsb].
  destruct (includes text (lit "senior")); [reflexivity|].
  destruct (includes text (lit "sr.")); [reflexivity|].
  destruct (includes text (lit "lead")); [now rewrite !orb_true_r|].
  destruct (includes text (lit "principal")); [now rewrite !orb_true_r|].
  destruct (includes text (lit "staff")); [now rewrite !orb_true_r|].
  destruct (includes text (lit "architect")); [now rewrite !orb_true_r|].
  cbn [orb] in Hl. exfalso.
  destruct (_ || _) in Hl; discriminate Hl.
Qed.

Lemma senior_tests_agree_witness :
  JobProcessor.isSeniorJob
    (JobProcessor.mkJob None None (Some (lit "Staff Architect")) None None None
       (Some (lit "Ten years of practice")) (Some (lit "greenhouse")) None) = true.
Proof.
  apply (senior_tests_agree _ (lit "Staff Architect")); try reflexivity.
  discriminate.
Defined.


(** ** The other id and fingerprint (utils.js) *)

Lemma drop_trailing_all (p : ascii -> bool) (s : str) :
  forallb p s = true -> drop_trailing p s = [].
Proof. destruct s as [|c s]; [reflexivity|]. intros H. cbn [drop_trailing]. now rewrite H. Qed.

Lemma drop_trailing_app (p : ascii -> bool) (s r : str) :
  forallb p r = true -> drop_trailing p (s ++ r) = drop_trailing p s.
Proof.
  intros Hr. induction s as [|c s IH].
  - simpl. now apply drop_trailing_all.
  - change ((c :: s) ++ r) with (c :: s ++ r). cbn [drop_trailing].
    rewrite IH. change (c :: s ++ r) with ((c :: s) ++ r).
    now rewrite forallb_app, Hr, andb_true_r.
Qed.

Lemma blank_title_tail (r : str) : blank_text r -> forallb Utils.title_tail r = true.
Proof.
  induction r as [|c r IH]; intros H; [reflexivity|].
  apply blank_text_cons in H. destruct H as [Hc Hr]. simpl.
  unfold Utils.title_tail at 1. rewrite Hc, orb_true_r. now apply IH.
Qed.

Lemma drop_trailing_trimEnd (s : str) :
  drop_trailing Utils.title_tail (trimEnd s) = drop_trailing Utils.title_tail s.
Proof.
  destruct (trimEnd_split s) as [r [Hr E]]. rewrite E at 2.
  symmetry. now apply drop_trailing_app, blank_title_tail.
Qed.

Lemma drop_trailing_trimStart (s : str) :
  drop_trailing Utils.title_tail (trimStart s)
  = trimStart (drop_trailing Utils.title_tail s).
Proof.
  induction s as [|c s IH]; [reflexivity|].
  cbn [trimStart drop_trailing]. destruct (is_space c) eqn:Hc.
  - rewrite IH. cbn [forallb]. unfold Utils.title_tail at 2.
    rewrite Hc, orb_true_r. cbn [andb].
    destruct (forallb Utils.title_tail s) eqn:Ea.
    + now rewrite (drop_trailing_all _ _ Ea).
    + cbn [trimStart]. now rewrite Hc.
  - cbn [drop_trailing].
    destruct (forallb Utils.title_tail (c :: s)); [reflexivity|].
    cbn [trimStart]. now rewrite Hc.
Qed.

Lemma drop_trailing_trim (s r : str) :
  forallb Utils.title_tail r = true ->
  drop_trailing Utils.title_tail (trim (s ++ r))
  = drop_trailing Utils.title_tail (trim s).
Proof.
  intros Hr. unfold trim.
  now rewrite !drop_trailing_trimEnd, !drop_trailing_trimStart,
    drop_trailing_app.
Qed.

Lemma lower_char_title_tail (c : ascii) :
  Utils.title_tail (lower_char c) = Utils.title_tail c.
Proof. each_char c; reflexivity. Qed.

Lemma minimalTitle_tail (t tail : str) :
  forallb Utils.title_tail tail = true ->
  Utils.minimalTitle (t ++ tail) = Utils.minimalTitle t.
Proof.
  intros H. unfold Utils.minimalTitle, toLowerCase. rewrite map_app.
  rewrite drop_trailing_trim; [reflexivity|].
  rewrite forallb_forall in *. intros x Hx. apply in_map_iff in Hx.
  destruct Hx as [c [<- Hc]]. rewrite lower_char_title_tail. now apply H.
Qed.

(** X26.  The minimal fingerprint does not read what follows the title:
    a job whose title is not empty keeps its fingerprint when hyphens,
    underscores and white space, in any number and order, are added at
    the end of the title. *)
Theorem minimal_fingerprint_title_tail (job : Utils.Job) (t tail : str)
    (Ht : t <> [])
    (Htail : forallb Utils.title_tail tail = true) :
  Utils.generateMinimalJobFingerprint (withTitle job (t ++ tail))
  = Utils.generateMinimalJobFingerprint (withTitle job t).
Proof.
  unfold Utils.generateMinimalJobFingerprint, withTitle, Utils.companyWords,
    Utils.fingerprintLocation, Utils.firstLocation.
  cbn [Utils.title Utils.job_title Utils.company_name Utils.employer_name
       Utils.company Utils.locations Utils.job_city Utils.location].
  destruct t as [|c t]; [contradiction|].
  cbn [orElse truthy orEmpty app].
  change (c :: t ++ tail) with ((c :: t) ++ tail).
  now rewrite (minimalTitle_tail (c :: t) tail Htail).
Qed.

(** A title with a dangling separator. *)
Lemma minimal_fingerprint_title_tail_witness :
  Utils.generateMinimalJobFingerprint
    (withTitle (titledJob "Acme" "" "Austin") (lit "Data Engineer" ++ lit " - _"))
  = Utils.generateMinimalJobFingerprint
      (withTitle (titledJob "Acme" "" "Austin") (lit "Data Engineer")).
Proof.
  apply (minimal_fingerprint_title_tail (titledJob "Acme" "" "Austin")
           (lit "Data Engineer") (lit " - _")).
  - discriminate.
  - reflexivity.
Defined.

Lemma normalizeCompanyNameStr_text (c : option str) :
  Utils.normalizeCompanyNameStr (Some (orEmpty c))
  = squeeze is_space " "
      (strip_suffix true Utils.companySuffixes (trim (toLowerCase (orEmpty c)))).
Proof.
  unfold Utils.normalizeCompanyNameStr.
  destruct c as [[|x s]|]; reflexivity.
Qed.

Lemma lower_app (a b : str) :
  toLowerCase (a ++ b) = toLowerCase a ++ toLowerCase b.
Proof. apply map_app. Qed.

Section HashedFacts.

Variable sha256_hex : str -> str.

(** X27.  The hashed id has at most eight characters, and it is the same
    for two jobs whose companies and titles have the same text, letter
    case and white space at the ends apart, and whose locations have the
    same text, letter case and white space at the end apart. *)
Theorem generateJobIdHash_same (j1 j2 : Utils.Job)
    (Hc : same_text (Utils.companyWords j1) (Utils.companyWords j2))
    (Ht : same_text (titleOf j1) (titleOf j2))
    (Hl : trimEnd (toLowerCase (orEmpty (hashLocationOf j1)))
          = trimEnd (toLowerCase (orEmpty (hashLocationOf j2)))) :
  Utils.generateJobIdHash sha256_hex j1 = Utils.generateJobIdHash sha256_hex j2
  /\ length (Utils.generateJobIdHash sha256_hex j1) <= 8.
Proof.
  unfold Utils.generateJobIdHash. cbv zeta. split.
  - f_equal. f_equal.
    rewrite !normalizeCompanyNameStr_text.
    unfold same_text, titleOf, hashLocationOf in *.
    rewrite Hc, Ht.
    set (c := squeeze is_space " " _).
    set (t := trim (toLowerCase (orEmpty (orElse (Utils.title j2) _)))).
    rewrite !app_assoc.
    set (pre := ((c ++ lit "|") ++ t) ++ lit "|").
    rewrite !(lower_app pre). unfold trim. rewrite !trim_comm, !trimEnd_app, Hl. reflexivity.
  - apply firstn_le_length.
Qed.

End HashedFacts.

(** Two spellings of one job. *)
Lemma generateJobIdHash_same_witness :
  Utils.generateJobIdHash (fun s => s) (titledJob " ACME Inc" "Engineer " "Austin")
  = Utils.generateJobIdHash (fun s => s) (titledJob "acme inc" "engineer" "Austin")
  /\ length (Utils.generateJobIdHash (fun s => s)
               (titledJob " ACME Inc" "Engineer " "Austin")) <= 8.
Proof.
  apply (generateJobIdHash_same (fun s => s)
           (titledJob " ACME Inc" "Engineer " "Austin")
           (titledJob "acme inc" "engineer" "Austin")); reflexivity.
Defined.
